(** * dcrlnd: invoice store, AcceptChannel wire record and channel arbitrator

    A shallow embedding of [channeldb/invoices.go], [lnwire/accept_channel.go]
    and of the arbitrator log exercised by
    [contractcourt/channel_arbitrator_test.go], with the properties the
    specification states about them.

    Conventions.  Go's fixed-width integers are [Z] values with the
    wrap-around written out ([wrap64] and friends); byte slices are
    [list byte]; Go maps are [gmap]s, and a [range] over a map is a run over
    an arbitrary enumeration of it; functions returning [(T, error)] return
    [result T]. *)

From Stdlib Require Import ZArith List Lia Bool.
From Stdlib.Strings Require Import Byte.
From stdpp Require Import base option list gmap.
Import ListNotations.
Local Open Scope Z_scope.

(** ** Errors and the error monad *)

Inductive error : Type :=
  (* sentinel errors of channeldb *)
  | ErrDuplicateInvoice
  | ErrInvoiceNotFound
  | ErrNoInvoicesCreated
  (* fmt.Errorf values of invoices.go, one constructor per message *)
  | ErrMemoTooLong
  | ErrReceiptTooLong
  | ErrPaymentRequestTooLong
  | ErrUnknownHtlc
  | ErrCancelNotAccepted
  | ErrHtlcAlreadyExists
  | ErrPreimageMismatch
  (* errors of the libraries underneath *)
  | ErrEOF
  | ErrUnexpectedEOF
  | ErrVarIntNonCanonical
  | ErrVarBytesTooBig
  | ErrTimeMarshal
  | ErrTimeUnmarshal
  | ErrTlvStream
  | ErrNilPubKey
  | ErrInvalidPubKey
  (* an error returned by a caller-supplied callback *)
  | ErrCallback.

Inductive result (A : Type) : Type :=
  | Ok (a : A)
  | Err (e : error).
Arguments Ok {A} a.
Arguments Err {A} e.

Definition bind {A B} (r : result A) (k : A -> result B) : result B :=
  match r with
  | Ok a => k a
  | Err e => Err e
  end.

Declare Scope result_scope.
Delimit Scope result_scope with result.
Notation "'let*' x ':=' r 'in' k" := (bind r (fun x => k))
  (at level 10, x name, r at level 100, k at level 200) : result_scope.
Notation "'let*' ' p ':=' r 'in' k" := (bind r (fun x => let 'p := x in k))
  (at level 10, p pattern, r at level 100, k at level 200) : result_scope.
Local Open Scope result_scope.

Definition is_ok {A} (r : result A) : bool :=
  match r with Ok _ => true | Err _ => false end.

(** The value of a result, [d] for an error. *)
Definition unwrap {A} (r : result A) (d : A) : A :=
  match r with Ok a => a | Err _ => d end.

(** ** Fixed-width integers *)

Definition wrap (bits : Z) (z : Z) : Z := z mod 2 ^ bits.
Definition wrap8 := wrap 8.
Definition wrap16 := wrap 16.
Definition wrap32 := wrap 32.
Definition wrap64 := wrap 64.

(** [int64(u)] for an unsigned 64-bit [u]. *)
Definition to_int64 (u : Z) : Z :=
  let u := wrap64 u in if u <? 2 ^ 63 then u else u - 2 ^ 64.

Definition is_uint (bits : Z) (z : Z) : Prop := 0 <= z < 2 ^ bits.
Definition is_int64 (z : Z) : Prop := - 2 ^ 63 <= z < 2 ^ 63.

(** ** Bytes and big-endian / little-endian integers *)

Definition byte_of_Z (z : Z) : byte :=
  match Byte.of_N (Z.to_N (z mod 256)) with
  | Some b => b
  | None => x00
  end.

Definition Z_of_byte (b : byte) : Z := Z.of_N (Byte.to_N b).

(** [binary.BigEndian.PutUintN]: the [n] low bytes of [v], most significant
    first. *)
Fixpoint be_bytes (n : nat) (v : Z) : list byte :=
  match n with
  | O => []
  | S n' => byte_of_Z (v / 256 ^ Z.of_nat n') :: be_bytes n' v
  end.

(** [binary.BigEndian.UintN]. *)
Definition be_value (bs : list byte) : Z :=
  fold_left (fun acc b => acc * 256 + Z_of_byte b) bs 0.

Definition le_bytes (n : nat) (v : Z) : list byte := rev (be_bytes n v).
Definition le_value (bs : list byte) : Z := be_value (rev bs).

(** [bytes.Compare]: lexicographic order on byte strings. *)
Fixpoint bytes_compare (a b : list byte) : comparison :=
  match a, b with
  | [], [] => Eq
  | [], _ :: _ => Lt
  | _ :: _, [] => Gt
  | x :: a', y :: b' =>
      match Z.compare (Z_of_byte x) (Z_of_byte y) with
      | Eq => bytes_compare a' b'
      | c => c
      end
  end.

Definition bytes_eqb (a b : list byte) : bool :=
  match bytes_compare a b with Eq => true | _ => false end.

(** ** Readers: an [io.Reader] over an in-memory buffer

    A reader consumes a prefix of the remaining input and returns the rest. *)

Definition reader (A : Type) : Type := list byte -> result (A * list byte).

(** [io.ReadFull(r, buf)] with [len(buf) = n]: [io.EOF] when nothing could be
    read, [io.ErrUnexpectedEOF] on a short read.  Reading zero bytes always
    succeeds. *)
Definition ReadFull (n : nat) : reader (list byte) := fun input =>
  if (n =? 0)%nat then Ok ([], input)
  else if (length input =? 0)%nat then Err ErrEOF
  else if (length input <? n)%nat then Err ErrUnexpectedEOF
  else Ok (firstn n input, skipn n input).

(** [binary.Read(r, binary.BigEndian, &x)] for an [n]-byte unsigned [x]. *)
Definition read_uint (n : nat) : reader Z := fun input =>
  let* '(bs, rest) := ReadFull n input in
  Ok (be_value bs, rest).

(** * lnwire: the AcceptChannel message ([lnwire/accept_channel.go]) *)

Module lnwire.
Section AcceptChannel.

(** Public keys belong to the secp256k1 library; the message only needs
  their compressed serialization and its parser. *)
Variable PublicKey : Type.
Variable SerializeCompressed : PublicKey -> list byte.
Variable ParsePubKey : list byte -> option PublicKey.

(** [dcrutil.Amount] is an [int64], [MilliAtom] a [uint64]; a
  [*secp256k1.PublicKey] may be nil. *)
Record AcceptChannel : Type := {
PendingChannelID : list byte;   (* [32]byte *)
DustLimit : Z;                  (* dcrutil.Amount *)
MaxValueInFlight : Z;           (* MilliAtom *)
ChannelReserve : Z;             (* dcrutil.Amount *)
HtlcMinimum : Z;                (* MilliAtom *)
MinAcceptDepth : Z;             (* uint32 *)
CsvDelay : Z;                   (* uint16 *)
MaxAcceptedHTLCs : Z;           (* uint16 *)
FundingKey : option PublicKey;
RevocationPoint : option PublicKey;
PaymentPoint : option PublicKey;
DelayedPaymentPoint : option PublicKey;
HtlcPoint : option PublicKey;
FirstCommitmentPoint : option PublicKey
}.

(** Modelled from the spec: [WriteElement] and [ReadElement] of
  [lnwire/lnwire.go] are not among the sources.  The elements of an
  AcceptChannel are written as the spec lays the record out: the channel
  id as its 32 raw bytes, amounts and milli-atoms as 8 bytes, the accept
  depth as 4 bytes, the csv delay and the htlc count as 2 bytes each
  (integers big-endian, as everywhere in the spec), and every public key
  as its 33-byte compressed form.  A nil key cannot be written; bytes
  that are not a compressed key cannot be read. *)
Inductive element : Type :=
| EBytes (bs : list byte)
| EAmount (a : Z)
| EMilliAtom (m : Z)
| EUint32 (v : Z)
| EUint16 (v : Z)
| EPubKey (k : option PublicKey).

Definition WriteElement (e : element) : result (list byte) :=
match e with
| EBytes bs => Ok bs
| EAmount a => Ok (be_bytes 8 (wrap64 a))
| EMilliAtom m => Ok (be_bytes 8 m)
| EUint32 v => Ok (be_bytes 4 v)
| EUint16 v => Ok (be_bytes 2 v)
| EPubKey None => Err ErrNilPubKey
| EPubKey (Some k) => Ok (SerializeCompressed k)
end.

(** [WriteElements] stops at the first element that fails. *)
Fixpoint WriteElements (es : list element) : result (list byte) :=
match es with
| [] => Ok []
| e :: es' =>
    let* b := WriteElement e in
    let* bs := WriteElements es' in
    Ok (b ++ bs)
end.

Definition readBytes (n : nat) : reader (list byte) := ReadFull n.

Definition readAmount : reader Z := fun r =>
let* '(u, r) := read_uint 8 r in Ok (to_int64 u, r).

Definition readMilliAtom : reader Z := read_uint 8.
Definition readUint32 : reader Z := read_uint 4.
Definition readUint16 : reader Z := read_uint 2.

Definition readPubKey : reader (option PublicKey) := fun r =>
let* '(b, r) := ReadFull 33 r in
match ParsePubKey b with
| Some k => Ok (Some k, r)
| None => Err ErrInvalidPubKey
end.

(** [AcceptChannel.Encode] *)
Definition Encode (a : AcceptChannel) : result (list byte) :=
WriteElements
  [ EBytes (PendingChannelID a);
    EAmount (DustLimit a);
    EMilliAtom (MaxValueInFlight a);
    EAmount (ChannelReserve a);
    EMilliAtom (HtlcMinimum a);
    EUint32 (MinAcceptDepth a);
    EUint16 (CsvDelay a);
    EUint16 (MaxAcceptedHTLCs a);
    EPubKey (FundingKey a);
    EPubKey (RevocationPoint a);
    EPubKey (PaymentPoint a);
    EPubKey (DelayedPaymentPoint a);
    EPubKey (HtlcPoint a);
    EPubKey (FirstCommitmentPoint a) ].

(** [AcceptChannel.Decode]: the elements are read in the order [Encode]
  writes them; the first failure aborts. *)
Definition Decode : reader AcceptChannel := fun r =>
let* '(pid, r) := readBytes 32 r in
let* '(dust, r) := readAmount r in
let* '(inflight, r) := readMilliAtom r in
let* '(reserve, r) := readAmount r in
let* '(htlcmin, r) := readMilliAtom r in
let* '(depth, r) := readUint32 r in
let* '(csv, r) := readUint16 r in
let* '(maxhtlcs, r) := readUint16 r in
let* '(funding, r) := readPubKey r in
let* '(revocation, r) := readPubKey r in
let* '(payment, r) := readPubKey r in
let* '(delayed, r) := readPubKey r in
let* '(htlc, r) := readPubKey r in
let* '(first, r) := readPubKey r in
Ok ({| PendingChannelID := pid;
       DustLimit := dust;
       MaxValueInFlight := inflight;
       ChannelReserve := reserve;
       HtlcMinimum := htlcmin;
       MinAcceptDepth := depth;
       CsvDelay := csv;
       MaxAcceptedHTLCs := maxhtlcs;
       FundingKey := funding;
       RevocationPoint := revocation;
       PaymentPoint := payment;
       DelayedPaymentPoint := delayed;
       HtlcPoint := htlc;
       FirstCommitmentPoint := first |}, r).

(** [AcceptChannel.MaxPayloadLength]:
  32 + (8 * 4) + (4 * 1) + (2 * 2) + (33 * 6). *)
Definition MaxPayloadLength : Z := 270.

(** The values the Go field types admit, with every key present. *)
Record wf_AcceptChannel (a : AcceptChannel) : Prop := {
wf_pending : length (PendingChannelID a) = 32%nat;
wf_dust : is_int64 (DustLimit a);
wf_inflight : is_uint 64 (MaxValueInFlight a);
wf_reserve : is_int64 (ChannelReserve a);
wf_htlcmin : is_uint 64 (HtlcMinimum a);
wf_depth : is_uint 32 (MinAcceptDepth a);
wf_csv : is_uint 16 (CsvDelay a);
wf_maxhtlcs : is_uint 16 (MaxAcceptedHTLCs a);
wf_funding : is_Some (FundingKey a);
wf_revocation : is_Some (RevocationPoint a);
wf_payment : is_Some (PaymentPoint a);
wf_delayed : is_Some (DelayedPaymentPoint a);
wf_htlc : is_Some (HtlcPoint a);
wf_first : is_Some (FirstCommitmentPoint a)
}.

End AcceptChannel.

Arguments PendingChannelID {PublicKey} a.
Arguments DustLimit {PublicKey} a.
Arguments MaxValueInFlight {PublicKey} a.
Arguments ChannelReserve {PublicKey} a.
Arguments HtlcMinimum {PublicKey} a.
Arguments MinAcceptDepth {PublicKey} a.
Arguments CsvDelay {PublicKey} a.
Arguments MaxAcceptedHTLCs {PublicKey} a.
Arguments FundingKey {PublicKey} a.
Arguments RevocationPoint {PublicKey} a.
Arguments PaymentPoint {PublicKey} a.
Arguments DelayedPaymentPoint {PublicKey} a.
Arguments HtlcPoint {PublicKey} a.
Arguments FirstCommitmentPoint {PublicKey} a.
Arguments Encode {PublicKey} SerializeCompressed a.
Arguments Decode {PublicKey} ParsePubKey r.
Arguments wf_AcceptChannel {PublicKey} a.

(** A stand-in key type for running the codec: a key is the parity byte of
  its compressed form, the x coordinate being fixed. *)
Definition toy_serialize (odd : bool) : list byte :=
(if odd then x03 else x02) :: repeat x00 32.
Definition toy_parse (bs : list byte) : option bool :=
match bs with
| x02 :: _ => Some false
| x03 :: _ => Some true
| _ => None
end.

Definition sample : AcceptChannel bool :=
{| PendingChannelID := repeat x07 32;
   DustLimit := 6030;
   MaxValueInFlight := 1000000000;
   ChannelReserve := 10000;
   HtlcMinimum := 1000;
   MinAcceptDepth := 3;
   CsvDelay := 144;
   MaxAcceptedHTLCs := 483;
   FundingKey := Some true;
   RevocationPoint := Some false;
   PaymentPoint := Some true;
   DelayedPaymentPoint := Some false;
   HtlcPoint := Some true;
   FirstCommitmentPoint := Some false |}.

End lnwire.

(** * The libraries underneath the invoice store *)

Definition to_int32 (u : Z) : Z :=
  let u := wrap32 u in if u <? 2 ^ 31 then u else u - 2 ^ 32.
Definition to_int16 (u : Z) : Z :=
  let u := wrap16 u in if u <? 2 ^ 15 then u else u - 2 ^ 16.

(** ** time: Go's [time.Time]

    A [Time] is an instant, counted as Go counts it internally in seconds
    since January 1 of year 1 plus nanoseconds, together with a location.
    The monotonic clock reading a [Time] may carry is left out: neither
    [MarshalBinary] nor [UnixNano] looks at it. *)

Module time.

Inductive Location : Type :=
  | UTC
  | Local
  | FixedZone (offset : Z).

Record Time : Type := {
  sec : Z;        (* int64, seconds since January 1, year 1 00:00:00 UTC *)
  nsec : Z;       (* int32, in [0, 999999999] *)
  loc : Location
}.

(** [time.Time{}] *)
Definition zero : Time := {| sec := 0; nsec := 0; loc := UTC |}.

Definition unixToInternal : Z := 62135596800.

Definition unixSec (t : Time) : Z := sec t - unixToInternal.

Definition IsZero (t : Time) : bool := (sec t =? 0) && (nsec t =? 0).

(** [t.UnixNano()]: computed in [int64], so it wraps for instants outside
    the years 1678 to 2262. *)
Definition UnixNano (t : Time) : Z :=
  to_int64 (unixSec t * 1000000000 + nsec t).

(** [time.Unix(sec, nsec)]; Go's [/] truncates towards zero. *)
Definition Unix (s ns : Z) : Time :=
  let '(s, ns) :=
    if (ns <? 0) || (1000000000 <=? ns) then
      let n := Z.quot ns 1000000000 in
      let s := s + n in
      let ns := ns - n * 1000000000 in
      if ns <? 0 then (s - 1, ns + 1000000000) else (s, ns)
    else (s, ns) in
  {| sec := s + unixToInternal; nsec := ns; loc := Local |}.

Section Zone.

(** The offset, in seconds east of UTC, in force in the machine's local
    zone at a Unix time. *)
Variable localOffset : Z -> Z.

Definition zoneOffset (t : Time) : Z :=
  match loc t with
  | UTC => 0
  | Local => localOffset (unixSec t)
  | FixedZone o => o
  end.

(** [t.MarshalBinary()], version 1 of the encoding: a version byte, the
    seconds, the nanoseconds, and the zone offset in minutes (-1 stands
    for UTC). *)
Definition MarshalBinary (t : Time) : result (list byte) :=
  let* offsetMin :=
    match loc t with
    | UTC => Ok (-1)
    | _ =>
        let offset := zoneOffset t in
        if negb (Z.rem offset 60 =? 0) then Err ErrTimeMarshal
        else
          let offset := Z.quot offset 60 in
          if (offset <? -32768) || (offset =? -1) || (32767 <? offset)
          then Err ErrTimeMarshal
          else Ok offset
    end in
  Ok (x01 :: be_bytes 8 (sec t) ++ be_bytes 4 (nsec t)
          ++ be_bytes 2 offsetMin).

(** [t.UnmarshalBinary(data)] *)
Definition UnmarshalBinary (data : list byte) : result Time :=
  match data with
  | [] => Err ErrTimeUnmarshal
  | v :: buf =>
      if negb (Byte.eqb v x01) then Err ErrTimeUnmarshal
      else if negb (length data =? 15)%nat then Err ErrTimeUnmarshal
      else
        let s := to_int64 (be_value (firstn 8 buf)) in
        let ns := to_int32 (be_value (firstn 4 (skipn 8 buf))) in
        let offset := to_int16 (be_value (skipn 12 buf)) * 60 in
        let l :=
          if offset =? -1 * 60 then UTC
          else if offset =? localOffset (s - unixToInternal) then Local
          else FixedZone offset in
        Ok {| sec := s; nsec := ns; loc := l |}
  end.

End Zone.

End time.

(** ** wire: variable-length integers and byte strings of dcrd's [wire] *)

Module wire.

Definition WriteVarInt (val : Z) : list byte :=
  if val <? 253 then [byte_of_Z val]
  else if val <=? 65535 then xfd :: le_bytes 2 val
  else if val <=? 4294967295 then xfe :: le_bytes 4 val
  else xff :: le_bytes 8 val.

Definition read_le (n : nat) : reader Z := fun input =>
  let* '(bs, rest) := ReadFull n input in
  Ok (le_value bs, rest).

(** [ReadVarInt] refuses an encoding longer than its value needs. *)
Definition ReadVarInt : reader Z := fun input =>
  let* '(d, r) := read_le 1 input in
  if d =? 255 then
    let* '(v, r) := read_le 8 r in
    if v <? 4294967296 then Err ErrVarIntNonCanonical else Ok (v, r)
  else if d =? 254 then
    let* '(v, r) := read_le 4 r in
    if v <? 65536 then Err ErrVarIntNonCanonical else Ok (v, r)
  else if d =? 253 then
    let* '(v, r) := read_le 2 r in
    if v <? 253 then Err ErrVarIntNonCanonical else Ok (v, r)
  else Ok (d, r).

Definition WriteVarBytes (bytes : list byte) : list byte :=
  WriteVarInt (Z.of_nat (length bytes)) ++ bytes.

Definition ReadVarBytes (maxAllowed : Z) : reader (list byte) := fun input =>
  let* '(count, r) := ReadVarInt input in
  if maxAllowed <? count then Err ErrVarBytesTooBig
  else ReadFull (Z.to_nat count) r.

End wire.

(** ** tlv: type-length-value streams *)

Module tlv.

(** Modelled from the spec: the [tlv] package is not among the sources.
    A stream is a sequence of records, each a type, the length of its
    value, and the value; the type codes of a stream are fixed.  Type and
    length are variable-length integers (one byte below 253, else a marker
    byte and 2, 4 or 8 big-endian bytes, in the shortest form), records
    come in strictly increasing type order, a record of a type the stream
    does not know is skipped when the type is odd and refused when it is
    even, and a field absent from the stream keeps its zero value. *)
Definition Type_ := Z.

Definition WriteVarInt (val : Z) : list byte :=
  if val <? 253 then [byte_of_Z val]
  else if val <=? 65535 then xfd :: be_bytes 2 val
  else if val <=? 4294967295 then xfe :: be_bytes 4 val
  else xff :: be_bytes 8 val.

(** The bytes after the marker: running out of input there is an
    unexpected end of the stream. *)
Definition read_more (n : nat) : reader Z := fun input =>
  match read_uint n input with
  | Err ErrEOF => Err ErrUnexpectedEOF
  | r => r
  end.

Definition ReadVarInt : reader Z := fun input =>
  let* '(d, r) := read_uint 1 input in
  if d =? 255 then
    let* '(v, r) := read_more 8 r in
    if v <? 4294967296 then Err ErrVarIntNonCanonical else Ok (v, r)
  else if d =? 254 then
    let* '(v, r) := read_more 4 r in
    if v <? 65536 then Err ErrVarIntNonCanonical else Ok (v, r)
  else if d =? 253 then
    let* '(v, r) := read_more 2 r in
    if v <? 253 then Err ErrVarIntNonCanonical else Ok (v, r)
  else Ok (d, r).

(** A primitive record: its type and the big-endian bytes of its value. *)
Definition Record_ : Type := Type_ * list byte.

Definition MakePrimitiveRecord (typ : Type_) (size : nat) (v : Z) : Record_ :=
  (typ, be_bytes size v).

Definition MaxRecordSize : Z := 65535.

(** [Stream.Encode] *)
Fixpoint Encode (records : list Record_) : list byte :=
  match records with
  | [] => []
  | (typ, value) :: rest =>
      WriteVarInt typ ++ WriteVarInt (Z.of_nat (length value)) ++ value
        ++ Encode rest
  end.

(** The scan of [Stream.Decode]: the records of the stream, in order.
    [known] lists the types of the stream with the sizes of their values;
    [min] is the least type the next record may have.  Each record takes
    at least two bytes, so [fuel] equal to the length of the input is
    enough. *)
Fixpoint scan (fuel : nat) (known : list (Type_ * nat)) (min : Z)
    (input : list byte) : result (list Record_) :=
  match fuel with
  | O =>
      match input with
      | [] => Ok []
      | _ => Err ErrTlvStream
      end
  | S fuel' =>
      match ReadVarInt input with
      | Err ErrEOF => Ok []
      | Err e => Err e
      | Ok (typ, r) =>
          if typ <? min then Err ErrTlvStream
          else
            match ReadVarInt r with
            | Err ErrEOF => Err ErrUnexpectedEOF
            | Err e => Err e
            | Ok (len, r) =>
                if MaxRecordSize <? len then Err ErrTlvStream
                else
                  match List.find (fun k => fst k =? typ) known with
                  | Some (_, size) =>
                      if negb (len =? Z.of_nat size) then Err ErrTlvStream
                      else
                        match ReadFull size r with
                        | Err _ => Err ErrUnexpectedEOF
                        | Ok (value, r) =>
                            let* rest := scan fuel' known (typ + 1) r in
                            Ok ((typ, value) :: rest)
                        end
                  | None =>
                      if Z.even typ then Err ErrTlvStream
                      else
                        match ReadFull (Z.to_nat len) r with
                        | Err _ => Err ErrUnexpectedEOF
                        | Ok (_, r) => scan fuel' known (typ + 1) r
                        end
                  end
            end
      end
  end.

Definition Decode (known : list (Type_ * nat)) (input : list byte)
    : result (list Record_) :=
  scan (length input) known 0 input.

(** The value a decoded stream leaves in the variable of type [typ]. *)
Definition field (typ : Type_) (records : list Record_) : Z :=
  match List.find (fun r => fst r =? typ) records with
  | Some (_, value) => be_value value
  | None => 0
  end.

End tlv.

(** ** bolt: buckets, cursors and transactions of the key-value store

    A bucket keeps its pairs sorted by key in [bytes.Compare] order.  [Put]
    and [Get] are taken within bolt's limits on key and value sizes, which
    the keys here (3, 4, 8 and 32 bytes) meet. *)

Module bolt.

Definition pairs : Type := list (list byte * list byte).

Fixpoint put (key value : list byte) (ps : pairs) : pairs :=
  match ps with
  | [] => [(key, value)]
  | (k, v) :: rest =>
      match bytes_compare key k with
      | Lt => (key, value) :: (k, v) :: rest
      | Eq => (key, value) :: rest
      | Gt => (k, v) :: put key value rest
      end
  end.

Fixpoint get (key : list byte) (ps : pairs) : option (list byte) :=
  match ps with
  | [] => None
  | (k, v) :: rest => if bytes_eqb key k then Some v else get key rest
  end.

Record Bucket : Type := {
  kv : pairs;
  sequence : Z      (* uint64 *)
}.

Definition empty : Bucket := {| kv := []; sequence := 0 |}.

Definition Put (key value : list byte) (b : Bucket) : Bucket :=
  {| kv := put key value (kv b); sequence := sequence b |}.

Definition Get (key : list byte) (b : Bucket) : option (list byte) :=
  get key (kv b).

(** [b.NextSequence()]: the counter is incremented and returned. *)
Definition NextSequence (b : Bucket) : Bucket * Z :=
  let n := wrap64 (sequence b + 1) in
  ({| kv := kv b; sequence := n |}, n).

(** [CreateBucketIfNotExists] on a bucket slot of the parent. *)
Definition CreateBucketIfNotExists (slot : option Bucket) : Bucket :=
  match slot with
  | Some b => b
  | None => empty
  end.

(** A cursor is the part of the bucket from its position on: the pair at
    the head is the current one, and a cursor past the last pair is
    empty. *)
Definition Cursor : Type := pairs.

(** [c.Seek(seek)]: to the first pair whose key is not below [seek]. *)
Fixpoint Seek (seek : list byte) (ps : pairs) : Cursor :=
  match ps with
  | [] => []
  | (k, v) :: rest =>
      match bytes_compare k seek with
      | Lt => Seek seek rest
      | _ => ps
      end
  end.

(** [c.Next()]: one pair on; the pair now current is returned, [nil] (the
    empty cursor) when there is none. *)
Definition Next (c : Cursor) : Cursor := tl c.

Definition current (c : Cursor) : option (list byte * list byte) := hd_error c.

End bolt.

(** * channeldb: the invoice store ([channeldb/invoices.go]) *)

Module channeldb.

(** ** Circuit keys *)

(** Modelled from the spec: [lnwire.ShortChannelID] and
    [channeldb.CircuitKey] are not among the sources.  A short channel id
    is the triple (block height, transaction index, output position) and a
    circuit key pairs it with the htlc index.  In its 8-byte compact form
    the triple takes 3, 3 and 2 bytes. *)
Record ShortChannelID : Type := {
  BlockHeight : Z;    (* uint32 *)
  TxIndex : Z;        (* uint32 *)
  TxPosition : Z      (* uint16 *)
}.

Definition ToUint64 (c : ShortChannelID) : Z :=
  Z.lor (Z.lor (wrap64 (Z.shiftl (BlockHeight c) 40))
               (Z.shiftl (TxIndex c) 16))
        (TxPosition c).

Definition NewShortChanIDFromInt (chanID : Z) : ShortChannelID :=
  {| BlockHeight := wrap32 (Z.shiftr chanID 40);
     TxIndex := Z.land (wrap32 (Z.shiftr chanID 16)) 16777215;
     TxPosition := wrap16 chanID |}.

Record CircuitKey : Type := {
  ChanID : ShortChannelID;
  HtlcID : Z          (* uint64 *)
}.

#[export] Instance ShortChannelID_eq_dec : EqDecision ShortChannelID.
Proof. solve_decision. Defined.

#[export] Instance CircuitKey_eq_dec : EqDecision CircuitKey.
Proof. solve_decision. Defined.

#[export] Instance CircuitKey_countable : Countable CircuitKey.
Proof.
  refine (inj_countable'
    (fun k => (BlockHeight (ChanID k), TxIndex (ChanID k),
               TxPosition (ChanID k), HtlcID k))
    (fun p => match p with
              | (bh, ti, tp, h) =>
                  {| ChanID := {| BlockHeight := bh; TxIndex := ti;
                                  TxPosition := tp |};
                     HtlcID := h |}
              end) _).
  intros [[] ?]. reflexivity.
Defined.

(** ** Constants *)

Definition MaxMemoSize : Z := 1024.
Definition MaxReceiptSize : Z := 1024.
Definition MaxPaymentRequestSize : Z := 4096.

Definition chanIDType : tlv.Type_ := 1.
Definition htlcIDType : tlv.Type_ := 3.
Definition amtType : tlv.Type_ := 5.
Definition acceptHeightType : tlv.Type_ := 7.
Definition acceptTimeType : tlv.Type_ := 9.
Definition resolveTimeType : tlv.Type_ := 11.
Definition expiryHeightType : tlv.Type_ := 13.
Definition stateType : tlv.Type_ := 15.

(** [ContractState] is a [uint8]. *)
Definition ContractState : Type := Z.
Definition ContractOpen : ContractState := 0.
Definition ContractSettled : ContractState := 1.
Definition ContractCanceled : ContractState := 2.
Definition ContractAccepted : ContractState := 3.

(** [HtlcState] is a [uint8]. *)
Definition HtlcState : Type := Z.
Definition HtlcStateAccepted : HtlcState := 0.
Definition HtlcStateCanceled : HtlcState := 1.
Definition HtlcStateSettled : HtlcState := 2.

(** The key of the invoice counter within the payment hash index. *)
Definition numInvoicesKey : list byte := [x6e; x69; x6b].   (* nik *)

(** ** Records *)

Module ContractTerm.
Record t : Type := {
  PaymentPreimage : list byte;   (* [32]byte *)
  Value : Z;                     (* MilliAtom, uint64 *)
  State : ContractState
}.
End ContractTerm.

Module InvoiceHTLC.
Record t : Type := {
  Amt : Z;                       (* MilliAtom *)
  AcceptHeight : Z;              (* uint32 *)
  AcceptTime : time.Time;
  ResolveTime : time.Time;
  Expiry : Z;                    (* uint32 *)
  State : HtlcState
}.
End InvoiceHTLC.

Module HtlcAcceptDesc.
Record t : Type := {
  AcceptHeight : Z;              (* int32 *)
  Amt : Z;                       (* MilliAtom *)
  Expiry : Z                     (* uint32 *)
}.
End HtlcAcceptDesc.

Module InvoiceUpdateDesc.
(** A nil [*HtlcAcceptDesc] is [None]. *)
Record t : Type := {
  State : ContractState;
  Htlcs : gmap CircuitKey (option HtlcAcceptDesc.t);
  Preimage : list byte           (* [32]byte *)
}.
End InvoiceUpdateDesc.

Module Invoice.
(** The htlcs of an invoice are a map from circuit keys to pointers to
    [InvoiceHTLC] records.  [over H] is the invoice with entries of type
    [H]: [t] holds the records themselves, [ref] the addresses of
    records kept in a store. *)
Record over (H : Type) : Type := {
  Memo : list byte;
  Receipt : list byte;
  PaymentRequest : list byte;
  FinalCltvDelta : Z;            (* int32 *)
  Expiry : Z;                    (* time.Duration, int64 *)
  CreationDate : time.Time;
  SettleDate : time.Time;
  Terms : ContractTerm.t;
  AddIndex : Z;                  (* uint64 *)
  SettleIndex : Z;               (* uint64 *)
  AmtPaid : Z;                   (* MilliAtom *)
  Htlcs : gmap CircuitKey H
}.
Arguments Memo {H} _.
Arguments Receipt {H} _.
Arguments PaymentRequest {H} _.
Arguments FinalCltvDelta {H} _.
Arguments Expiry {H} _.
Arguments CreationDate {H} _.
Arguments SettleDate {H} _.
Arguments Terms {H} _.
Arguments AddIndex {H} _.
Arguments SettleIndex {H} _.
Arguments AmtPaid {H} _.
Arguments Htlcs {H} _.

Definition t : Type := over InvoiceHTLC.t.
Definition ref : Type := over nat.

Definition with_Htlcs {H H'} (i : over H) (htlcs : gmap CircuitKey H')
    : over H' :=
  {| Memo := Memo i; Receipt := Receipt i;
     PaymentRequest := PaymentRequest i;
     FinalCltvDelta := FinalCltvDelta i; Expiry := Expiry i;
     CreationDate := CreationDate i; SettleDate := SettleDate i;
     Terms := Terms i; AddIndex := AddIndex i;
     SettleIndex := SettleIndex i; AmtPaid := AmtPaid i;
     Htlcs := htlcs |}.

Definition with_AmtPaid {H} (i : over H) (amt : Z) : over H :=
  {| Memo := Memo i; Receipt := Receipt i;
     PaymentRequest := PaymentRequest i;
     FinalCltvDelta := FinalCltvDelta i; Expiry := Expiry i;
     CreationDate := CreationDate i; SettleDate := SettleDate i;
     Terms := Terms i; AddIndex := AddIndex i;
     SettleIndex := SettleIndex i; AmtPaid := amt;
     Htlcs := Htlcs i |}.

Definition with_Terms {H} (i : over H) (terms : ContractTerm.t) : over H :=
  {| Memo := Memo i; Receipt := Receipt i;
     PaymentRequest := PaymentRequest i;
     FinalCltvDelta := FinalCltvDelta i; Expiry := Expiry i;
     CreationDate := CreationDate i; SettleDate := SettleDate i;
     Terms := terms; AddIndex := AddIndex i;
     SettleIndex := SettleIndex i; AmtPaid := AmtPaid i;
     Htlcs := Htlcs i |}.

Definition with_AddIndex {H} (i : over H) (idx : Z) : over H :=
  {| Memo := Memo i; Receipt := Receipt i;
     PaymentRequest := PaymentRequest i;
     FinalCltvDelta := FinalCltvDelta i; Expiry := Expiry i;
     CreationDate := CreationDate i; SettleDate := SettleDate i;
     Terms := Terms i; AddIndex := idx;
     SettleIndex := SettleIndex i; AmtPaid := AmtPaid i;
     Htlcs := Htlcs i |}.

Definition with_settle {H} (i : over H) (date : time.Time) (idx : Z) : over H :=
  {| Memo := Memo i; Receipt := Receipt i;
     PaymentRequest := PaymentRequest i;
     FinalCltvDelta := FinalCltvDelta i; Expiry := Expiry i;
     CreationDate := CreationDate i; SettleDate := date;
     Terms := Terms i; AddIndex := AddIndex i;
     SettleIndex := idx; AmtPaid := AmtPaid i;
     Htlcs := Htlcs i |}.
End Invoice.

Definition with_State (terms : ContractTerm.t) (s : ContractState)
    : ContractTerm.t :=
  {| ContractTerm.PaymentPreimage := ContractTerm.PaymentPreimage terms;
     ContractTerm.Value := ContractTerm.Value terms;
     ContractTerm.State := s |}.

Definition with_PaymentPreimage (terms : ContractTerm.t) (p : list byte)
    : ContractTerm.t :=
  {| ContractTerm.PaymentPreimage := p;
     ContractTerm.Value := ContractTerm.Value terms;
     ContractTerm.State := ContractTerm.State terms |}.

(** [htlc.State = s; htlc.ResolveTime = now] *)
Definition resolve (htlc : InvoiceHTLC.t) (s : HtlcState) (now : time.Time)
    : InvoiceHTLC.t :=
  {| InvoiceHTLC.Amt := InvoiceHTLC.Amt htlc;
     InvoiceHTLC.AcceptHeight := InvoiceHTLC.AcceptHeight htlc;
     InvoiceHTLC.AcceptTime := InvoiceHTLC.AcceptTime htlc;
     InvoiceHTLC.ResolveTime := now;
     InvoiceHTLC.Expiry := InvoiceHTLC.Expiry htlc;
     InvoiceHTLC.State := s |}.

(** ** What the store takes from its surroundings

    The local time zone of the machine, the hash of a preimage
    ([lntypes.Preimage.Hash], a SHA-256), and the order in which a [range]
    over a map visits its entries, which Go leaves open. *)
Record runtime : Type := {
  localOffset : Z -> Z;
  preimageHash : list byte -> list byte;
  range : forall V : Type, gmap CircuitKey V -> list (CircuitKey * V)
}.
Arguments range r {V} m.

(** A runtime is sound when [range] visits every entry of the map once. *)
Definition range_sound (rt : runtime) : Prop :=
  forall (V : Type) (m : gmap CircuitKey V), range rt m ≡ₚ map_to_list m.

(** ** Validation *)

Definition validateInvoice (i : Invoice.t) : result unit :=
  if MaxMemoSize <? Z.of_nat (length (Invoice.Memo i)) then
    Err ErrMemoTooLong
  else if MaxReceiptSize <? Z.of_nat (length (Invoice.Receipt i)) then
    Err ErrReceiptTooLong
  else if MaxPaymentRequestSize
            <? Z.of_nat (length (Invoice.PaymentRequest i)) then
    Err ErrPaymentRequestTooLong
  else Ok tt.

(** ** Serialization *)

(** The tlv stream of one htlc. *)
Definition htlcRecords (key : CircuitKey) (htlc : InvoiceHTLC.t)
    : list tlv.Record_ :=
  let chanID := ToUint64 (ChanID key) in
  let amt := wrap64 (InvoiceHTLC.Amt htlc) in
  let acceptTime := wrap64 (time.UnixNano (InvoiceHTLC.AcceptTime htlc)) in
  let resolveTime := wrap64 (time.UnixNano (InvoiceHTLC.ResolveTime htlc)) in
  let state := wrap8 (InvoiceHTLC.State htlc) in
  [ tlv.MakePrimitiveRecord chanIDType 8 chanID;
    tlv.MakePrimitiveRecord htlcIDType 8 (HtlcID key);
    tlv.MakePrimitiveRecord amtType 8 amt;
    tlv.MakePrimitiveRecord acceptHeightType 4 (InvoiceHTLC.AcceptHeight htlc);
    tlv.MakePrimitiveRecord acceptTimeType 8 acceptTime;
    tlv.MakePrimitiveRecord resolveTimeType 8 resolveTime;
    tlv.MakePrimitiveRecord expiryHeightType 4 (InvoiceHTLC.Expiry htlc);
    tlv.MakePrimitiveRecord stateType 1 state ].

(** [serializeHtlcs], over the entries in the order the [range] visits
    them: the length of each stream, then the stream. *)
Fixpoint serializeHtlcs (htlcs : list (CircuitKey * InvoiceHTLC.t))
    : list byte :=
  match htlcs with
  | [] => []
  | (key, htlc) :: rest =>
      let b := tlv.Encode (htlcRecords key htlc) in
      be_bytes 8 (Z.of_nat (length b)) ++ b ++ serializeHtlcs rest
  end.

Definition serializeInvoice (rt : runtime) (i : Invoice.t)
    : result (list byte) :=
  let* birthBytes :=
    time.MarshalBinary (localOffset rt) (Invoice.CreationDate i) in
  let* settleBytes :=
    time.MarshalBinary (localOffset rt) (Invoice.SettleDate i) in
  Ok (wire.WriteVarBytes (Invoice.Memo i)
      ++ wire.WriteVarBytes (Invoice.Receipt i)
      ++ wire.WriteVarBytes (Invoice.PaymentRequest i)
      ++ be_bytes 4 (Invoice.FinalCltvDelta i)
      ++ be_bytes 8 (Invoice.Expiry i)
      ++ wire.WriteVarBytes birthBytes
      ++ wire.WriteVarBytes settleBytes
      ++ ContractTerm.PaymentPreimage (Invoice.Terms i)
      ++ be_bytes 8 (ContractTerm.Value (Invoice.Terms i))
      ++ be_bytes 1 (ContractTerm.State (Invoice.Terms i))
      ++ be_bytes 8 (Invoice.AddIndex i)
      ++ be_bytes 8 (Invoice.SettleIndex i)
      ++ be_bytes 8 (Invoice.AmtPaid i)
      ++ serializeHtlcs (range rt (Invoice.Htlcs i))).

(** ** Deserialization *)

(** The fields of the htlc stream and the sizes of their values. *)
Definition htlcFields : list (tlv.Type_ * nat) :=
  [ (chanIDType, 8%nat); (htlcIDType, 8%nat); (amtType, 8%nat);
    (acceptHeightType, 4%nat); (acceptTimeType, 8%nat);
    (resolveTimeType, 8%nat); (expiryHeightType, 4%nat);
    (stateType, 1%nat) ].

(** [r.Read(buf)] of a [bytes.Reader] with [len(buf) = n]: [io.EOF] at the
    end of the input, else as many bytes as there are, the rest of the
    buffer staying zero. *)
Definition Read (n : nat) : reader (list byte) := fun input =>
  match input with
  | [] => Err ErrEOF
  | _ => Ok (firstn n input ++ repeat x00 (n - length input), skipn n input)
  end.

Definition decodeHtlc (records : list tlv.Record_)
    : CircuitKey * InvoiceHTLC.t :=
  let chanID := tlv.field chanIDType records in
  let acceptTime := tlv.field acceptTimeType records in
  let resolveTime := tlv.field resolveTimeType records in
  ({| ChanID := NewShortChanIDFromInt chanID;
      HtlcID := tlv.field htlcIDType records |},
   {| InvoiceHTLC.Amt := tlv.field amtType records;
      InvoiceHTLC.AcceptHeight := tlv.field acceptHeightType records;
      InvoiceHTLC.AcceptTime := time.Unix 0 (to_int64 acceptTime);
      InvoiceHTLC.ResolveTime := time.Unix 0 (to_int64 resolveTime);
      InvoiceHTLC.Expiry := tlv.field expiryHeightType records;
      InvoiceHTLC.State := tlv.field stateType records |}).

(** The loop of [deserializeHtlcs].  Every round consumes the eight bytes
    of a length, so [fuel] equal to the length of the input is enough. *)
Fixpoint deserializeHtlcsFrom (fuel : nat)
    (htlcs : gmap CircuitKey InvoiceHTLC.t) (r : list byte)
    : result (gmap CircuitKey InvoiceHTLC.t) :=
  match fuel with
  | O =>
      match r with
      | [] => Ok htlcs
      | _ => Err ErrUnexpectedEOF
      end
  | S fuel' =>
      match read_uint 8 r with
      | Err ErrEOF => Ok htlcs
      | Err e => Err e
      | Ok (streamLen, r) =>
          let* '(streamBytes, r) := Read (Z.to_nat streamLen) r in
          let* records := tlv.Decode htlcFields streamBytes in
          let '(key, htlc) := decodeHtlc records in
          deserializeHtlcsFrom fuel' (<[key := htlc]> htlcs) r
      end
  end.

Definition deserializeHtlcs (r : list byte)
    : result (gmap CircuitKey InvoiceHTLC.t) :=
  deserializeHtlcsFrom (length r) ∅ r.

Definition deserializeInvoice (rt : runtime) (r : list byte)
    : result Invoice.t :=
  let* '(memo, r) := wire.ReadVarBytes MaxMemoSize r in
  let* '(receipt, r) := wire.ReadVarBytes MaxReceiptSize r in
  let* '(payreq, r) := wire.ReadVarBytes MaxPaymentRequestSize r in
  let* '(delta, r) := read_uint 4 r in
  let* '(expiry, r) := read_uint 8 r in
  let* '(birthBytes, r) := wire.ReadVarBytes 300 r in
  let* creation := time.UnmarshalBinary (localOffset rt) birthBytes in
  let* '(settledBytes, r) := wire.ReadVarBytes 300 r in
  let* settle := time.UnmarshalBinary (localOffset rt) settledBytes in
  let* '(preimage, r) := ReadFull 32 r in
  let* '(value, r) := read_uint 8 r in
  let* '(state, r) := read_uint 1 r in
  let* '(addIndex, r) := read_uint 8 r in
  let* '(settleIndex, r) := read_uint 8 r in
  let* '(amtPaid, r) := read_uint 8 r in
  let* htlcs := deserializeHtlcs r in
  Ok {| Invoice.Memo := memo;
        Invoice.Receipt := receipt;
        Invoice.PaymentRequest := payreq;
        Invoice.FinalCltvDelta := to_int32 delta;
        Invoice.Expiry := to_int64 expiry;
        Invoice.CreationDate := creation;
        Invoice.SettleDate := settle;
        Invoice.Terms :=
          {| ContractTerm.PaymentPreimage := preimage;
             ContractTerm.Value := value;
             ContractTerm.State := state |};
        Invoice.AddIndex := addIndex;
        Invoice.SettleIndex := settleIndex;
        Invoice.AmtPaid := amtPaid;
        Invoice.Htlcs := htlcs |}.

(** ** The database

    The top-level [invoices] bucket holds the serialized invoices under
    their invoice numbers, and the three index buckets nested in it: the
    payment hashes (with the invoice counter), the add index and the settle
    index.  A bucket that has not been created yet is [None]. *)
Record InvoiceBucket : Type := {
  records : bolt.Bucket;
  invoiceIndex : option bolt.Bucket;
  addIndex : option bolt.Bucket;
  settleIndex : option bolt.Bucket
}.

Definition DB : Type := option InvoiceBucket.

Definition emptyInvoiceBucket : InvoiceBucket :=
  {| records := bolt.empty; invoiceIndex := None; addIndex := None;
     settleIndex := None |}.

(** [d.Update(fn)]: the writes of [fn] are committed when it returns no
    error and rolled back when it returns one. *)
Definition Update {A} (d : DB) (fn : DB -> result (DB * A)) : DB * result A :=
  match fn d with
  | Ok (d', a) => (d', Ok a)
  | Err e => (d, Err e)
  end.

(** [d.View(fn)]: a read-only transaction. *)
Definition View {A} (d : DB) (fn : DB -> result A) : result A := fn d.

Definition fetchInvoice (rt : runtime) (invoiceNum : list byte)
    (invoices : bolt.Bucket) : result Invoice.t :=
  match bolt.Get invoiceNum invoices with
  | None => Err ErrInvoiceNotFound
  | Some invoiceBytes => deserializeInvoice rt invoiceBytes
  end.

(** [putInvoice]; the three buckets are returned as written, with the
    invoice as stored (its [AddIndex] set) and the add index. *)
Definition putInvoice (rt : runtime)
    (invoices invoiceIndex addIndex : bolt.Bucket)
    (i : Invoice.t) (invoiceNum : Z) (paymentHash : list byte)
    : result (bolt.Bucket * bolt.Bucket * bolt.Bucket * Invoice.t * Z) :=
  let invoiceKey := be_bytes 4 invoiceNum in
  let invoiceCounter := wrap32 (invoiceNum + 1) in
  let invoiceIndex :=
    bolt.Put numInvoicesKey (be_bytes 4 invoiceCounter) invoiceIndex in
  let invoiceIndex := bolt.Put paymentHash invoiceKey invoiceIndex in
  let '(addIndex, nextAddSeqNo) := bolt.NextSequence addIndex in
  let seqNoBytes := be_bytes 8 nextAddSeqNo in
  let addIndex := bolt.Put seqNoBytes invoiceKey addIndex in
  let i := Invoice.with_AddIndex i nextAddSeqNo in
  let* buf := serializeInvoice rt i in
  let invoices := bolt.Put invoiceKey buf invoices in
  Ok (invoices, invoiceIndex, addIndex, i, nextAddSeqNo).

(** [AddInvoice].  The caller passes a pointer to [newInvoice] and
    [putInvoice] sets [AddIndex] on it: beside the add index, a successful
    call gives the invoice as the caller finds it afterwards. *)
Definition AddInvoice (rt : runtime) (newInvoice : Invoice.t)
    (paymentHash : list byte) (d : DB) : DB * result (Z * Invoice.t) :=
  match validateInvoice newInvoice with
  | Err e => (d, Err e)
  | Ok _ =>
      Update d (fun tx =>
        let invoices := default emptyInvoiceBucket tx in
        let invoiceIndex :=
          bolt.CreateBucketIfNotExists (invoiceIndex invoices) in
        let addIndex := bolt.CreateBucketIfNotExists (addIndex invoices) in
        match bolt.Get paymentHash invoiceIndex with
        | Some _ => Err ErrDuplicateInvoice
        | None =>
            let '(invoiceNum, invoiceIndex) :=
              match bolt.Get numInvoicesKey invoiceIndex with
              | None =>
                  (0, bolt.Put numInvoicesKey (be_bytes 4 0) invoiceIndex)
              | Some invoiceCounter =>
                  (be_value (firstn 4 invoiceCounter), invoiceIndex)
              end in
            let* '(recs, invoiceIndex, addIndex, newInvoice, newIndex) :=
              putInvoice rt (records invoices) invoiceIndex addIndex
                newInvoice invoiceNum paymentHash in
            Ok (Some {| records := recs;
                        invoiceIndex := Some invoiceIndex;
                        addIndex := Some addIndex;
                        settleIndex := settleIndex invoices |},
                (newIndex, newInvoice))
        end)
  end.

(** The loop shared by [InvoicesAddedSince] and [InvoicesSettledSince],
    entered with the cursor on the first pair to look at: it stops at the
    end of the bucket or at a key that is not above the start index. *)
Fixpoint collectSince (rt : runtime) (startIndex : list byte)
    (invoices : bolt.Bucket) (c : bolt.Cursor) : result (list Invoice.t) :=
  match c with
  | [] => Ok []
  | (seqNo, invoiceKey) :: c' =>
      match bytes_compare seqNo startIndex with
      | Gt =>
          let* invoice := fetchInvoice rt invoiceKey invoices in
          let* newInvoices := collectSince rt startIndex invoices c' in
          Ok (invoice :: newInvoices)
      | _ => Ok []
      end
  end.

(** [InvoicesAddedSince] *)
Definition InvoicesAddedSince (rt : runtime) (sinceAddIndex : Z) (d : DB)
    : result (list Invoice.t) :=
  if sinceAddIndex =? 0 then Ok []
  else
    let startIndex := be_bytes 8 sinceAddIndex in
    let err := View d (fun tx =>
      match tx with
      | None => Err ErrNoInvoicesCreated
      | Some invoices =>
          match addIndex invoices with
          | None => Err ErrNoInvoicesCreated
          | Some addIndex =>
              let invoiceCursor := bolt.Seek startIndex (bolt.kv addIndex) in
              collectSince rt startIndex (records invoices)
                (bolt.Next invoiceCursor)
          end
      end) in
    match err with
    | Err ErrNoInvoicesCreated => Ok []
    | Err e => Err e
    | Ok newInvoices => Ok newInvoices
    end.

(** [LookupInvoice] *)
Definition LookupInvoice (rt : runtime) (paymentHash : list byte) (d : DB)
    : result Invoice.t :=
  View d (fun tx =>
    match tx with
    | None => Err ErrNoInvoicesCreated
    | Some invoices =>
        match invoiceIndex invoices with
        | None => Err ErrNoInvoicesCreated
        | Some invoiceIndex =>
            match bolt.Get paymentHash invoiceIndex with
            | None => Err ErrInvoiceNotFound
            | Some invoiceNum => fetchInvoice rt invoiceNum (records invoices)
            end
        end
    end).

(** [InvoicesSettledSince] *)
Definition InvoicesSettledSince (rt : runtime) (sinceSettleIndex : Z)
    (d : DB) : result (list Invoice.t) :=
  if sinceSettleIndex =? 0 then Ok []
  else
    let startIndex := be_bytes 8 sinceSettleIndex in
    let err := View d (fun tx =>
      match tx with
      | None => Err ErrNoInvoicesCreated
      | Some invoices =>
          match settleIndex invoices with
          | None => Err ErrNoInvoicesCreated
          | Some settleIndex =>
              let invoiceCursor :=
                bolt.Seek startIndex (bolt.kv settleIndex) in
              collectSince rt startIndex (records invoices)
                (bolt.Next invoiceCursor)
          end
      end) in
    match err with
    | Err e => Err e
    | Ok settledInvoices => Ok settledInvoices
    end.

(** ** Updating an invoice *)

(** [copySlice] *)
Definition copySlice (src : list byte) : list byte :=
  firstn (length src) src.

(** [copyInvoice], on an invoice whose htlc entries are addresses: the
    byte slices are copied, the scalar fields assigned (there is no
    assignment for [Expiry], which keeps its zero value), and every entry
    of the htlc map is assigned to a fresh map, address for address. *)
Definition copyInvoice (rt : runtime) (src : Invoice.ref) : Invoice.ref :=
  {| Invoice.Memo := copySlice (Invoice.Memo src);
     Invoice.Receipt := copySlice (Invoice.Receipt src);
     Invoice.PaymentRequest := copySlice (Invoice.PaymentRequest src);
     Invoice.FinalCltvDelta := Invoice.FinalCltvDelta src;
     Invoice.Expiry := 0;
     Invoice.CreationDate := Invoice.CreationDate src;
     Invoice.SettleDate := Invoice.SettleDate src;
     Invoice.Terms := Invoice.Terms src;
     Invoice.AddIndex := Invoice.AddIndex src;
     Invoice.SettleIndex := Invoice.SettleIndex src;
     Invoice.AmtPaid := Invoice.AmtPaid src;
     Invoice.Htlcs :=
       foldl (fun dest kv => <[fst kv := snd kv]> dest) ∅
         (range rt (Invoice.Htlcs src)) |}.

(** The [InvoiceHTLC] records of a fetched invoice are objects of their
    own: [deserializeHtlcs] allocates one per entry and the map holds its
    address.  [store] is the memory holding them, an address being an
    index into it. *)
Definition store : Type := list InvoiceHTLC.t.

(** The fetched invoice as it sits in memory: its records in a store, and
    the invoice with the addresses in its map. *)
Definition allocate (rt : runtime) (i : Invoice.t) : store * Invoice.ref :=
  let entries := range rt (Invoice.Htlcs i) in
  (map snd entries,
   Invoice.with_Htlcs i
     (list_to_map (zip (map fst entries) (seq 0 (length entries))))).

(** The invoice a reference denotes in a store. *)
Definition load (s : store) (i : Invoice.ref) : Invoice.t :=
  Invoice.with_Htlcs i (omap (fun a => s !! a) (Invoice.Htlcs i)).

(** [InvoiceUpdateCallback].  A callback is handed the copy and can read
    the store; what it does is the writes it performs on records of the
    store, in order, and the descriptor or error it returns. *)
Record effect : Type := {
  writes : list (nat * InvoiceHTLC.t);
  returned : result InvoiceUpdateDesc.t
}.

Definition InvoiceUpdateCallback : Type := Invoice.ref -> store -> effect.

Definition perform (ws : list (nat * InvoiceHTLC.t)) (s : store) : store :=
  foldl (fun s w => <[fst w := snd w]> s) s ws.

(** The record made for a new htlc paying to the invoice. *)
Definition newHtlc (preUpdateState : ContractState) (now : time.Time)
    (htlcUpdate : HtlcAcceptDesc.t) : InvoiceHTLC.t :=
  let htlc :=
    {| InvoiceHTLC.Amt := HtlcAcceptDesc.Amt htlcUpdate;
       InvoiceHTLC.Expiry := HtlcAcceptDesc.Expiry htlcUpdate;
       InvoiceHTLC.AcceptHeight :=
         wrap32 (HtlcAcceptDesc.AcceptHeight htlcUpdate);
       InvoiceHTLC.AcceptTime := now;
       InvoiceHTLC.ResolveTime := time.zero;
       InvoiceHTLC.State := HtlcStateAccepted |} in
  if preUpdateState =? ContractSettled then
    resolve htlc HtlcStateSettled now
  else htlc.

(** One round of the loop over [update.Htlcs]. *)
Definition applyHtlcUpdate (preUpdateState : ContractState)
    (now : time.Time) (invoice : Invoice.t)
    (key : CircuitKey) (htlcUpdate : option HtlcAcceptDesc.t)
    : result Invoice.t :=
  let htlc := Invoice.Htlcs invoice !! key in
  match htlcUpdate with
  | None =>
      (* No update means the htlc needs to be canceled. *)
      match htlc with
      | None => Err ErrUnknownHtlc
      | Some htlc =>
          if negb (InvoiceHTLC.State htlc =? HtlcStateAccepted) then
            Err ErrCancelNotAccepted
          else
            Ok (Invoice.with_AmtPaid
                  (Invoice.with_Htlcs invoice
                     (<[key := resolve htlc HtlcStateCanceled now]>
                        (Invoice.Htlcs invoice)))
                  (wrap64 (Invoice.AmtPaid invoice - InvoiceHTLC.Amt htlc)))
      end
  | Some htlcUpdate =>
      (* Add new htlc paying to the invoice. *)
      match htlc with
      | Some _ => Err ErrHtlcAlreadyExists
      | None =>
          let htlc := newHtlc preUpdateState now htlcUpdate in
          Ok (Invoice.with_AmtPaid
                (Invoice.with_Htlcs invoice
                   (<[key := htlc]> (Invoice.Htlcs invoice)))
                (wrap64 (Invoice.AmtPaid invoice + InvoiceHTLC.Amt htlc)))
      end
  end.

(** The loop over [update.Htlcs], in the order of the [range]. *)
Fixpoint applyHtlcUpdates (preUpdateState : ContractState)
    (now : time.Time) (invoice : Invoice.t)
    (updates : list (CircuitKey * option HtlcAcceptDesc.t))
    : result Invoice.t :=
  match updates with
  | [] => Ok invoice
  | (key, htlcUpdate) :: rest =>
      let* invoice :=
        applyHtlcUpdate preUpdateState now invoice key htlcUpdate in
      applyHtlcUpdates preUpdateState now invoice rest
  end.

(** The loop that settles all accepted htlcs. *)
Definition settleAccepted (rt : runtime) (now : time.Time)
    (htlcs : gmap CircuitKey InvoiceHTLC.t)
    : gmap CircuitKey InvoiceHTLC.t :=
  foldl (fun acc kv =>
           if negb (InvoiceHTLC.State (snd kv) =? HtlcStateAccepted) then acc
           else <[fst kv := resolve (snd kv) HtlcStateSettled now]> acc)
        htlcs (range rt htlcs).

(** [setSettleFields] *)
Definition setSettleFields (settleIndex : bolt.Bucket)
    (invoiceNum : list byte) (invoice : Invoice.t) (now : time.Time)
    : bolt.Bucket * Invoice.t :=
  let '(settleIndex, nextSettleSeqNo) := bolt.NextSequence settleIndex in
  let seqNoBytes := be_bytes 8 nextSettleSeqNo in
  let settleIndex := bolt.Put seqNoBytes invoiceNum settleIndex in
  (settleIndex,
   Invoice.with_settle
     (Invoice.with_Terms invoice
        (with_State (Invoice.Terms invoice) ContractSettled))
     now nextSettleSeqNo).

(** The invoice as [updateInvoice] holds it once the callback has
    returned, and what the callback returned. *)
Definition runCallback (rt : runtime) (invoice : Invoice.t)
    (callback : InvoiceUpdateCallback)
    : Invoice.t * result InvoiceUpdateDesc.t :=
  let '(s, invoiceRef) := allocate rt invoice in
  (* Create deep copy to prevent any accidental modification in the
     callback. *)
  let copy := copyInvoice rt invoiceRef in
  (* Call the callback and obtain the update descriptor. *)
  let e := callback copy s in
  (load (perform (writes e) s) invoiceRef, returned e).

(** [updateInvoice]; [now] is the value of [d.now()].  The buckets are
    returned as written, with the updated invoice.  (When the callback
    fails, Go returns the fetched invoice next to the error.) *)
Definition updateInvoice (rt : runtime) (now : time.Time) (hash : list byte)
    (invoices settleIndex : bolt.Bucket) (invoiceNum : list byte)
    (callback : InvoiceUpdateCallback)
    : result (bolt.Bucket * bolt.Bucket * Invoice.t) :=
  let* invoice := fetchInvoice rt invoiceNum invoices in
  let preUpdateState := ContractTerm.State (Invoice.Terms invoice) in
  let '(invoice, ret) := runCallback rt invoice callback in
  let* update := ret in
  (* Update invoice state. *)
  let invoice :=
    Invoice.with_Terms invoice
      (with_State (Invoice.Terms invoice) (InvoiceUpdateDesc.State update)) in
  (* Update htlc set. *)
  let* invoice :=
    applyHtlcUpdates preUpdateState now invoice
      (range rt (InvoiceUpdateDesc.Htlcs update)) in
  (* If invoice moved to the settled state, update settle index and settle
     time. *)
  let* '(settleIndex, invoice) :=
    if negb (preUpdateState =? ContractTerm.State (Invoice.Terms invoice))
       && (ContractTerm.State (Invoice.Terms invoice) =? ContractSettled)
    then
      if negb (bytes_eqb (preimageHash rt (InvoiceUpdateDesc.Preimage update))
                         hash)
      then Err ErrPreimageMismatch
      else
        let invoice :=
          Invoice.with_Terms invoice
            (with_PaymentPreimage (Invoice.Terms invoice)
               (InvoiceUpdateDesc.Preimage update)) in
        (* Settle all accepted htlcs. *)
        let invoice :=
          Invoice.with_Htlcs invoice
            (settleAccepted rt now (Invoice.Htlcs invoice)) in
        Ok (setSettleFields settleIndex invoiceNum invoice now)
    else Ok (settleIndex, invoice) in
  let* buf := serializeInvoice rt invoice in
  let invoices := bolt.Put invoiceNum buf invoices in
  Ok (invoices, settleIndex, invoice).

(** [UpdateInvoice] *)
Definition UpdateInvoice (rt : runtime) (now : time.Time)
    (paymentHash : list byte) (callback : InvoiceUpdateCallback) (d : DB)
    : DB * result Invoice.t :=
  Update d (fun tx =>
    let invoices := default emptyInvoiceBucket tx in
    let invoiceIndex :=
      bolt.CreateBucketIfNotExists (invoiceIndex invoices) in
    let settleIndex :=
      bolt.CreateBucketIfNotExists (settleIndex invoices) in
    match bolt.Get paymentHash invoiceIndex with
    | None => Err ErrInvoiceNotFound
    | Some invoiceNum =>
        let* '(recs, settleIndex, updatedInvoice) :=
          updateInvoice rt now paymentHash (records invoices) settleIndex
            invoiceNum callback in
        Ok (Some {| records := recs;
                    invoiceIndex := Some invoiceIndex;
                    addIndex := addIndex invoices;
                    settleIndex := Some settleIndex |},
            updatedInvoice)
    end).

(** ** Running the store *)

(** A runtime to run the store with: UTC as the local zone, the entries of
    a map in the order [map_to_list] gives them, and, standing in for
    SHA-256, a hash that maps a preimage to itself. *)
Definition sample_runtime : runtime :=
  {| localOffset := fun _ => 0;
     preimageHash := fun p => p;
     range := fun V m => map_to_list m |}.

End channeldb.

(** ** Observations on a database state, used to state the properties *)

Module dbview.
Import channeldb.

(** Does the payment hash index hold the key? *)
Definition indexed (key : list byte) (d : DB) : bool :=
  match d with
  | Some invoices =>
      match invoiceIndex invoices with
      | Some idx => bool_decide (is_Some (bolt.Get key idx))
      | None => false
      end
  | None => false
  end.

(** The invoice number the payment hash index holds under the key. *)
Definition numberOf (key : list byte) (d : DB) : option (list byte) :=
  match d with
  | Some invoices =>
      match invoiceIndex invoices with
      | Some idx => bolt.Get key idx
      | None => None
      end
  | None => None
  end.

(** The bytes recorded for the invoice of a payment hash: the value the
    [invoices] bucket holds under the number the hash index gives. *)
Definition recordOf (key : list byte) (d : DB) : option (list byte) :=
  match d, numberOf key d with
  | Some invoices, Some num => bolt.Get num (records invoices)
  | _, _ => None
  end.

(** The invoice number the add index holds under a sequence number. *)
Definition addedAt (n : Z) (d : DB) : option (list byte) :=
  match d with
  | Some invoices =>
      match addIndex invoices with
      | Some b => bolt.Get (be_bytes 8 n) b
      | None => None
      end
  | None => None
  end.

(** The sequence counter of the add index (0 before the bucket exists). *)
Definition addSequence (d : DB) : Z :=
  match d with
  | Some invoices =>
      match addIndex invoices with
      | Some b => bolt.sequence b
      | None => 0
      end
  | None => 0
  end.

(** The sequence counter of the settle index. *)
Definition settleSequence (d : DB) : Z :=
  match d with
  | Some invoices =>
      match settleIndex invoices with
      | Some b => bolt.sequence b
      | None => 0
      end
  | None => 0
  end.

(** Both dates of the invoice can be marshalled. *)
Definition marshalable (rt : runtime) (i : Invoice.t) : bool :=
  is_ok (time.MarshalBinary (localOffset rt) (Invoice.CreationDate i))
  && is_ok (time.MarshalBinary (localOffset rt) (Invoice.SettleDate i)).

(** Everything of an invoice but its htlcs and the amount paid. *)
Definition frame (i : Invoice.t) : Invoice.t :=
  Invoice.with_AmtPaid (Invoice.with_Htlcs i (∅ : gmap _ InvoiceHTLC.t)) 0.


(** What the loop that settles the accepted htlcs does to one record. *)
Definition settle (now : time.Time) (h : InvoiceHTLC.t) : InvoiceHTLC.t :=
  if InvoiceHTLC.State h =? HtlcStateAccepted
  then resolve h HtlcStateSettled now else h.



(** The sum of a list of amounts. *)
Definition sumZ (l : list Z) : Z := foldr Z.add 0 l.



(** *** Values of the Go types, and what a round through the store makes
    of them *)

(** A date whose fields hold values of their Go types. *)
Definition wf_date (t : time.Time) : Prop :=
  is_int64 (time.sec t) /\ - 2 ^ 31 <= time.nsec t < 2 ^ 31.

(** The date a marshalled date unmarshals to: the same instant; a location
    other than UTC becomes the local zone when its offset is the local one,
    and a fixed zone of the same offset otherwise. *)
Definition normDate (localOffset : Z -> Z) (t : time.Time) : time.Time :=
  {| time.sec := time.sec t;
     time.nsec := time.nsec t;
     time.loc :=
       match time.loc t with
       | time.UTC => time.UTC
       | _ =>
           if time.zoneOffset localOffset t
              =? localOffset (time.sec t - time.unixToInternal)
           then time.Local
           else time.FixedZone (time.zoneOffset localOffset t)
       end |}.

(** The time an htlc time comes back as: [time.Unix(0, t.UnixNano())]. *)
Definition normTime (t : time.Time) : time.Time :=
  time.Unix 0 (time.UnixNano t).

Definition normHtlc (h : InvoiceHTLC.t) : InvoiceHTLC.t :=
  {| InvoiceHTLC.Amt := InvoiceHTLC.Amt h;
     InvoiceHTLC.AcceptHeight := InvoiceHTLC.AcceptHeight h;
     InvoiceHTLC.AcceptTime := normTime (InvoiceHTLC.AcceptTime h);
     InvoiceHTLC.ResolveTime := normTime (InvoiceHTLC.ResolveTime h);
     InvoiceHTLC.Expiry := InvoiceHTLC.Expiry h;
     InvoiceHTLC.State := InvoiceHTLC.State h |}.

Definition normInvoice (rt : runtime) (i : Invoice.t) : Invoice.t :=
  {| Invoice.Memo := Invoice.Memo i;
     Invoice.Receipt := Invoice.Receipt i;
     Invoice.PaymentRequest := Invoice.PaymentRequest i;
     Invoice.FinalCltvDelta := Invoice.FinalCltvDelta i;
     Invoice.Expiry := Invoice.Expiry i;
     Invoice.CreationDate := normDate (localOffset rt) (Invoice.CreationDate i);
     Invoice.SettleDate := normDate (localOffset rt) (Invoice.SettleDate i);
     Invoice.Terms := Invoice.Terms i;
     Invoice.AddIndex := Invoice.AddIndex i;
     Invoice.SettleIndex := Invoice.SettleIndex i;
     Invoice.AmtPaid := Invoice.AmtPaid i;
     Invoice.Htlcs := normHtlc <$> Invoice.Htlcs i |}.

(** A date that unmarshals to itself: in UTC, in the local zone, or in a
    fixed zone of another offset than the local one. *)
Definition exact_date (localOffset : Z -> Z) (t : time.Time) : Prop :=
  match time.loc t with
  | time.FixedZone o => o <> localOffset (time.sec t - time.unixToInternal)
  | _ => True
  end.

(** An htlc time that comes back as itself: a local time with its
    nanoseconds below a second, within the range [UnixNano] can express
    (the years 1678 to 2262). *)
Definition exact_time (t : time.Time) : Prop :=
  time.loc t = time.Local /\
  (0 <= time.nsec t < 1000000000) /\
  (- 2 ^ 63 <= time.unixSec t * 1000000000 + time.nsec t < 2 ^ 63).

(** An invoice all of whose times come back as themselves. *)
Definition exact_times (rt : runtime) (i : Invoice.t) : Prop :=
  exact_date (localOffset rt) (Invoice.CreationDate i) /\
  exact_date (localOffset rt) (Invoice.SettleDate i) /\
  forall k h, Invoice.Htlcs i !! k = Some h ->
    exact_time (InvoiceHTLC.AcceptTime h) /\
    exact_time (InvoiceHTLC.ResolveTime h).

(** A stream the scan of [tlv.Decode] accepts record for record: types in
    strictly increasing order from [min] on, each known to the stream with
    the size of its value, types and sizes short enough for one byte. *)
Fixpoint stream_ok (known : list (tlv.Type_ * nat)) (min : Z)
    (rs : list tlv.Record_) : Prop :=
  match rs with
  | [] => True
  | (typ, value) :: rest =>
      (min <= typ < 253) /\
      (List.find (fun k => fst k =? typ) known = Some (typ, length value)) /\
      (Z.of_nat (length value) < 253) /\
      stream_ok known (typ + 1) rest
  end.

(** A circuit key whose short channel id fits its compact form. *)
Definition wf_key (k : CircuitKey) : Prop :=
  is_uint 24 (BlockHeight (ChanID k)) /\
  is_uint 24 (TxIndex (ChanID k)) /\
  is_uint 16 (TxPosition (ChanID k)) /\
  is_uint 64 (HtlcID k).

Definition wf_htlc (h : InvoiceHTLC.t) : Prop :=
  is_uint 64 (InvoiceHTLC.Amt h) /\
  is_uint 32 (InvoiceHTLC.AcceptHeight h) /\
  is_uint 32 (InvoiceHTLC.Expiry h) /\
  is_uint 8 (InvoiceHTLC.State h).

Definition wf_htlcs (m : gmap CircuitKey InvoiceHTLC.t) : Prop :=
  forall k h, m !! k = Some h -> wf_key k /\ wf_htlc h.

(** An invoice whose fields hold values of their Go types, within the size
    bounds of the store. *)
Record wf_invoice (i : Invoice.t) : Prop := {
  wf_Memo : Z.of_nat (length (Invoice.Memo i)) <= MaxMemoSize;
  wf_Receipt : Z.of_nat (length (Invoice.Receipt i)) <= MaxReceiptSize;
  wf_PaymentRequest :
    Z.of_nat (length (Invoice.PaymentRequest i)) <= MaxPaymentRequestSize;
  wf_FinalCltvDelta : - 2 ^ 31 <= Invoice.FinalCltvDelta i < 2 ^ 31;
  wf_Expiry : is_int64 (Invoice.Expiry i);
  wf_CreationDate : wf_date (Invoice.CreationDate i);
  wf_SettleDate : wf_date (Invoice.SettleDate i);
  wf_PaymentPreimage :
    length (ContractTerm.PaymentPreimage (Invoice.Terms i)) = 32%nat;
  wf_Value : is_uint 64 (ContractTerm.Value (Invoice.Terms i));
  wf_State : is_uint 8 (ContractTerm.State (Invoice.Terms i));
  wf_AddIndex : is_uint 64 (Invoice.AddIndex i);
  wf_SettleIndex : is_uint 64 (Invoice.SettleIndex i);
  wf_AmtPaid : is_uint 64 (Invoice.AmtPaid i);
  wf_Htlcs : wf_htlcs (Invoice.Htlcs i)
}.

(** *** The amount paid *)

(** The amount an htlc adds to a sum that counts the htlcs in one of the
    given states. *)
Definition amountIn (states : list HtlcState) (h : InvoiceHTLC.t) : Z :=
  if bool_decide (InvoiceHTLC.State h ∈ states) then InvoiceHTLC.Amt h else 0.

(** The amount of an htlc unless it is canceled. *)
Definition held (h : InvoiceHTLC.t) : Z :=
  if InvoiceHTLC.State h =? HtlcStateCanceled then 0 else InvoiceHTLC.Amt h.

(** The sum of [f] over the htlcs of a map. *)
Definition total (f : InvoiceHTLC.t -> Z)
    (m : gmap CircuitKey InvoiceHTLC.t) : Z :=
  sumZ (f <$> (map_to_list m).*2).

(** The amount paid is the sum of the amounts of the htlcs that are not
    canceled, as a [uint64]. *)
Definition paid_ok (i : Invoice.t) : Prop :=
  Invoice.AmtPaid i = wrap64 (total held (Invoice.Htlcs i)).

(** The descriptor of a new htlc, and an update descriptor, holding values
    of their Go types, the keys of the new htlcs fitting the compact
    form.  (The preimage is looked at when the descriptor settles the
    invoice.) *)
Definition wf_desc (a : HtlcAcceptDesc.t) : Prop :=
  is_uint 64 (HtlcAcceptDesc.Amt a) /\ is_uint 32 (HtlcAcceptDesc.Expiry a).

Definition wf_update (upd : InvoiceUpdateDesc.t) : Prop :=
  is_uint 8 (InvoiceUpdateDesc.State upd) /\
  (InvoiceUpdateDesc.State upd = ContractSettled ->
     length (InvoiceUpdateDesc.Preimage upd) = 32%nat) /\
  forall k a, InvoiceUpdateDesc.Htlcs upd !! k = Some (Some a) ->
    wf_key k /\ wf_desc a.

(** Every record of the bucket is the serialization of an invoice of
    well-formed fields whose amount paid is as [paid_ok] has it. *)
Definition stored_ok (rt : runtime) (d : DB) : Prop :=
  forall invoices num buf,
    d = Some invoices ->
    bolt.Get num (records invoices) = Some buf ->
    exists j, wf_invoice j /\ paid_ok j /\ serializeInvoice rt j = Ok buf.

End dbview.

(** ** Sample data: the invoice of the spec's round-trip scenario *)

Module samples.
Import channeldb.

Definition created : time.Time :=
  {| time.sec := 63700000000; time.nsec := 5; time.loc := time.UTC |}.

Definition later : time.Time :=
  {| time.sec := 63700000100; time.nsec := 7; time.loc := time.Local |}.

Definition preimage : list byte := repeat x11 32.

(** Under [sample_runtime] a preimage hashes to itself. *)
Definition hash : list byte := preimage.

Definition invoice : Invoice.t :=
  {| Invoice.Memo := [x78];
     Invoice.Receipt := [];
     Invoice.PaymentRequest := [];
     Invoice.FinalCltvDelta := 40;
     Invoice.Expiry := 3600;
     Invoice.CreationDate := created;
     Invoice.SettleDate := time.zero;
     Invoice.Terms :=
       {| ContractTerm.PaymentPreimage := repeat x00 32;
          ContractTerm.Value := 1000000;
          ContractTerm.State := ContractOpen |};
     Invoice.AddIndex := 0;
     Invoice.SettleIndex := 0;
     Invoice.AmtPaid := 0;
     Invoice.Htlcs := ∅ |}.

Definition with_Memo (i : Invoice.t) (memo : list byte) : Invoice.t :=
  {| Invoice.Memo := memo;
     Invoice.Receipt := Invoice.Receipt i;
     Invoice.PaymentRequest := Invoice.PaymentRequest i;
     Invoice.FinalCltvDelta := Invoice.FinalCltvDelta i;
     Invoice.Expiry := Invoice.Expiry i;
     Invoice.CreationDate := Invoice.CreationDate i;
     Invoice.SettleDate := Invoice.SettleDate i;
     Invoice.Terms := Invoice.Terms i;
     Invoice.AddIndex := Invoice.AddIndex i;
     Invoice.SettleIndex := Invoice.SettleIndex i;
     Invoice.AmtPaid := Invoice.AmtPaid i;
     Invoice.Htlcs := Invoice.Htlcs i |}.

(** The circuit key (chan=1, htlc=7) and the htlc of the scenario. *)
Definition key : CircuitKey :=
  {| ChanID := {| BlockHeight := 0; TxIndex := 0; TxPosition := 1 |};
     HtlcID := 7 |}.

Definition accept : HtlcAcceptDesc.t :=
  {| HtlcAcceptDesc.AcceptHeight := 50;
     HtlcAcceptDesc.Amt := 1000000;
     HtlcAcceptDesc.Expiry := 100 |}.

(** A callback that writes to no record and returns the descriptor. *)
Definition returning (upd : InvoiceUpdateDesc.t) : InvoiceUpdateCallback :=
  fun _ _ => {| writes := []; returned := Ok upd |}.

(** Accept the htlc, the invoice moving to the accepted state. *)
Definition acceptUpdate : InvoiceUpdateDesc.t :=
  {| InvoiceUpdateDesc.State := ContractAccepted;
     InvoiceUpdateDesc.Htlcs := {[ key := Some accept ]};
     InvoiceUpdateDesc.Preimage := [] |}.

(** Accept the htlc and settle the invoice in one update. *)
Definition settleUpdate : InvoiceUpdateDesc.t :=
  {| InvoiceUpdateDesc.State := ContractSettled;
     InvoiceUpdateDesc.Htlcs := {[ key := Some accept ]};
     InvoiceUpdateDesc.Preimage := preimage |}.

(** Cancel the htlc. *)
Definition cancelUpdate : InvoiceUpdateDesc.t :=
  {| InvoiceUpdateDesc.State := ContractCanceled;
     InvoiceUpdateDesc.Htlcs := {[ key := None ]};
     InvoiceUpdateDesc.Preimage := [] |}.

(** Settle with a preimage that does not hash to the payment hash. *)
Definition wrongPreimageUpdate : InvoiceUpdateDesc.t :=
  {| InvoiceUpdateDesc.State := ContractSettled;
     InvoiceUpdateDesc.Htlcs := ∅;
     InvoiceUpdateDesc.Preimage := repeat x22 32 |}.

(** Leave the invoice as it is. *)
Definition noUpdate (state : ContractState) : InvoiceUpdateDesc.t :=
  {| InvoiceUpdateDesc.State := state;
     InvoiceUpdateDesc.Htlcs := ∅;
     InvoiceUpdateDesc.Preimage := [] |}.

(** The store after the invoice was added, ... *)
Definition added : DB :=
  fst (AddInvoice sample_runtime invoice hash None).

(** ... after its htlc was accepted, ... *)
Definition accepted : DB :=
  fst (UpdateInvoice sample_runtime later hash (returning acceptUpdate) added).

(** ... after the htlc was accepted and the invoice settled at once, ... *)
Definition settled : DB :=
  fst (UpdateInvoice sample_runtime later hash (returning settleUpdate) added).

(** ... and after the accepted htlc was canceled again. *)
Definition canceled : DB :=
  fst (UpdateInvoice sample_runtime later hash (returning cancelUpdate)
         accepted).

(** The invoices a lookup reads from these stores, and the invoice the
    settling update returns. *)
Definition storedAdded : Invoice.t :=
  unwrap (LookupInvoice sample_runtime hash added) invoice.

Definition storedAccepted : Invoice.t :=
  unwrap (LookupInvoice sample_runtime hash accepted) invoice.

Definition resultAccepted : Invoice.t :=
  unwrap (snd (UpdateInvoice sample_runtime later hash
                 (returning acceptUpdate) added)) invoice.

Definition resultSettled : Invoice.t :=
  unwrap (snd (UpdateInvoice sample_runtime later hash
                 (returning settleUpdate) added)) invoice.

(** The invoice holding one settled htlc with the given times. *)
Definition holding (acceptTime resolveTime : time.Time) : Invoice.t :=
  Invoice.with_Htlcs invoice
    {[ key := {| InvoiceHTLC.Amt := 1000000;
                 InvoiceHTLC.AcceptHeight := 50;
                 InvoiceHTLC.AcceptTime := acceptTime;
                 InvoiceHTLC.ResolveTime := resolveTime;
                 InvoiceHTLC.Expiry := 100;
                 InvoiceHTLC.State := HtlcStateSettled |} ]}.

(** A callback that overwrites the amount of the htlc under [key] through
    the copy it is handed, and asks for no change of the invoice. *)
Definition tampering (state : ContractState) : InvoiceUpdateCallback :=
  fun copy s =>
    match Invoice.Htlcs copy !! key with
    | Some address =>
        match s !! address with
        | Some htlc =>
            {| writes :=
                 [(address,
                   {| InvoiceHTLC.Amt := 1;
                      InvoiceHTLC.AcceptHeight := InvoiceHTLC.AcceptHeight htlc;
                      InvoiceHTLC.AcceptTime := InvoiceHTLC.AcceptTime htlc;
                      InvoiceHTLC.ResolveTime := InvoiceHTLC.ResolveTime htlc;
                      InvoiceHTLC.Expiry := InvoiceHTLC.Expiry htlc;
                      InvoiceHTLC.State := InvoiceHTLC.State htlc |})];
               returned := Ok (noUpdate state) |}
        | None => {| writes := []; returned := Ok (noUpdate state) |}
        end
    | None => {| writes := []; returned := Ok (noUpdate state) |}
    end.

(** What the round through serializer and deserializer makes of an
    invoice. *)
Definition roundtrip (i : Invoice.t) : result Invoice.t :=
  let* bytes := serializeInvoice sample_runtime i in
  deserializeInvoice sample_runtime bytes.

End samples.

(** ** Histories of the invoice store *)

Module history.
Import channeldb dbview.

(** The two operations that write invoices. *)
Inductive op : Type :=
| Add (newInvoice : Invoice.t) (paymentHash : list byte)
| Upd (now : time.Time) (paymentHash : list byte)
      (callback : InvoiceUpdateCallback).

(** One operation that succeeds, and the database it leaves. *)
Definition step (rt : runtime) (o : op) (d : DB) : option DB :=
  match o with
  | Add newInvoice paymentHash =>
      match AddInvoice rt newInvoice paymentHash d with
      | (d', Ok _) => Some d'
      | (_, Err _) => None
      end
  | Upd now paymentHash callback =>
      match UpdateInvoice rt now paymentHash callback d with
      | (d', Ok _) => Some d'
      | (_, Err _) => None
      end
  end.

(** A sequence of operations each of which succeeds. *)
Fixpoint run (rt : runtime) (ops : list op) (d : DB) : option DB :=
  match ops with
  | [] => Some d
  | o :: rest =>
      match step rt o d with
      | Some d' => run rt rest d'
      | None => None
      end
  end.

(** The operations the invariant of the amount paid is stated for.  An
    invoice is added with well-formed fields and an amount paid that
    matches the htlcs it is added with (none, as a rule).  An update runs at
    a well-formed time, and its callback writes to no record of the invoice
    it is handed and returns well-formed descriptors. *)
Definition admissible (o : op) : Prop :=
  match o with
  | Add newInvoice _ => wf_invoice newInvoice /\ paid_ok newInvoice
  | Upd now _ callback =>
      wf_date now /\
      forall copy s,
        writes (callback copy s) = [] /\
        forall upd, returned (callback copy s) = Ok upd -> wf_update upd
  end.

(** The history of the sample invoice: added, its htlc accepted. *)
Definition sample_ops : list op :=
  [Add samples.invoice samples.hash;
   Upd samples.later samples.hash (samples.returning samples.acceptUpdate)].

End history.

(** ** The queries over the whole store *)

Module queries.
Import channeldb.

(** The body of [invoiceB.ForEach] in [FetchAllInvoices], over the pairs
    of the bucket in key order.  (The nested index buckets, which [ForEach]
    visits with a nil value and the body skips, are kept apart from the
    records here.) *)
Fixpoint forEachInvoice (rt : runtime) (pendingOnly : bool)
    (kv : bolt.pairs) : result (list Invoice.t) :=
  match kv with
  | [] => Ok []
  | (_, v) :: rest =>
      let* invoice := deserializeInvoice rt v in
      let* invoices := forEachInvoice rt pendingOnly rest in
      if pendingOnly
         && (ContractTerm.State (Invoice.Terms invoice) =? ContractSettled)
      then Ok invoices
      else Ok (invoice :: invoices)
  end.

(** [FetchAllInvoices] *)
Definition FetchAllInvoices (rt : runtime) (pendingOnly : bool) (d : DB)
    : result (list Invoice.t) :=
  View d (fun tx =>
    match tx with
    | None => Err ErrNoInvoicesCreated
    | Some invoiceB =>
        forEachInvoice rt pendingOnly (bolt.kv (records invoiceB))
    end).

Record InvoiceQuery : Type := {
  IndexOffset : Z;               (* uint64 *)
  NumMaxInvoices : Z;            (* uint64 *)
  PendingOnly : bool;
  Reversed : bool
}.

Record InvoiceSlice : Type := {
  Query : InvoiceQuery;
  Invoices : list Invoice.t;
  FirstIndexOffset : Z;
  LastIndexOffset : Z
}.

(** The pairs a cursor visits going backwards from the pair [c.Seek(seek)]
    lands on, that pair first; none when the seek runs off the end of the
    bucket. *)
Fixpoint seekBack (seek : list byte) (passed : bolt.pairs)
    (ps : bolt.pairs) : bolt.pairs :=
  match ps with
  | [] => []
  | (k, v) :: rest =>
      match bytes_compare k seek with
      | Lt => seekBack seek ((k, v) :: passed) rest
      | _ => (k, v) :: passed
      end
  end.

(** The loop of [QueryInvoices] over the pairs the cursor visits, in the
    order visited; [found] is [resp.Invoices] so far. *)
Fixpoint collect (rt : runtime) (q : InvoiceQuery) (invoices : bolt.Bucket)
    (visited : bolt.pairs) (found : list Invoice.t)
    : result (list Invoice.t) :=
  match visited with
  | [] => Ok found
  | (_, invoiceKey) :: rest =>
      if NumMaxInvoices q <=? Z.of_nat (length found) then Ok found
      else
        let* invoice := fetchInvoice rt invoiceKey invoices in
        if PendingOnly q
           && (ContractTerm.State (Invoice.Terms invoice) =? ContractSettled)
        then collect rt q invoices rest found
        else collect rt q invoices rest (found ++ [invoice])
  end.

(** The pairs of the add index the cursor of [QueryInvoices] visits. *)
Definition visits (q : InvoiceQuery) (invoiceAddIndex : bolt.Bucket)
    : bolt.pairs :=
  if Reversed q then
    if IndexOffset q =? 0 then rev (bolt.kv invoiceAddIndex)
    else if IndexOffset q =? 1 then []
    else seekBack (be_bytes 8 (wrap64 (IndexOffset q - 1))) []
           (bolt.kv invoiceAddIndex)
  else
    bolt.Seek (be_bytes 8 (wrap64 (IndexOffset q + 1)))
      (bolt.kv invoiceAddIndex).

(** [QueryInvoices] *)
Definition QueryInvoices (rt : runtime) (q : InvoiceQuery) (d : DB)
    : result InvoiceSlice :=
  let err := View d (fun tx =>
    match tx with
    | None => Err ErrNoInvoicesCreated
    | Some invoices =>
        match addIndex invoices with
        | None => Err ErrNoInvoicesCreated
        | Some invoiceAddIndex =>
            let* found :=
              collect rt q (records invoices) (visits q invoiceAddIndex) [] in
            Ok (if Reversed q then rev found else found)
        end
    end) in
  let respond (found : list Invoice.t) : result InvoiceSlice :=
    Ok {| Query := q;
          Invoices := found;
          FirstIndexOffset :=
            match found with
            | first :: _ => Invoice.AddIndex first
            | [] => 0
            end;
          LastIndexOffset :=
            match rev found with
            | last :: _ => Invoice.AddIndex last
            | [] => 0
            end |} in
  match err with
  | Err ErrNoInvoicesCreated => respond []
  | Err e => Err e
  | Ok found => respond found
  end.

End queries.

(** ** The layout of the store *)

Module layout.
Import channeldb dbview history.

(** The key of the record of the invoice with the number [n], and the
    entry the add index holds for it: invoice numbers count from 0, add
    indexes from 1. *)
Definition invoiceKey (n : nat) : list byte := be_bytes 4 (Z.of_nat n).







End layout.

(** ** A second sample: two invoices, the first of them settled *)

Module samples2.
Import channeldb history queries.

Definition hash2 : list byte := repeat x22 32.

Definition ops : list op :=
  [Add samples.invoice samples.hash;
   Add samples.invoice hash2;
   Upd samples.later samples.hash (samples.returning samples.settleUpdate)].

Definition db : DB := default None (run sample_runtime ops None).

(** A callback that gives up. *)
Definition failing : InvoiceUpdateCallback :=
  fun _ _ => {| writes := []; returned := Err ErrCallback |}.



Definition pendingQuery : InvoiceQuery :=
  {| IndexOffset := 0; NumMaxInvoices := 5; PendingOnly := true;
     Reversed := false |}.

(** The serialized sample invoice with a memo of 1025 bytes. *)
Definition longMemo : Invoice.t :=
  samples.with_Memo samples.invoice (repeat x61 1025).

Definition longMemoBytes : list byte :=
  unwrap (serializeInvoice sample_runtime longMemo) [].

(** What [FetchAllInvoices] returns on the sample store. *)
Definition allInvoices : list Invoice.t :=
  unwrap (FetchAllInvoices sample_runtime false db) [].

End samples2.

(** * contractcourt: the channel arbitrator as its tests drive it *)

Module contractcourt.

Inductive ArbitratorState : Type :=
| StateDefault
| StateBroadcastCommit
| StateCommitmentBroadcasted
| StateContractClosed
| StateWaitingFullResolution
| StateFullyResolved.

#[global] Instance ArbitratorState_eq_dec : EqDecision ArbitratorState.
Proof. solve_decision. Defined.

(** [mockArbitratorLog] of the tests: the persisted state, the states sent
    on the [newStates] channel in the order sent, and the switch that makes
    the commit of one state fail.  (The fields for the resolutions and
    resolvers of the log play no part in the commits.) *)
Record mockArbitratorLog : Type := {
  state : ArbitratorState;
  newStates : list ArbitratorState;
  failCommit : bool;
  failCommitState : ArbitratorState
}.

Definition CurrentState (b : mockArbitratorLog) : ArbitratorState := state b.

(** [CommitState]: [false] is the error. *)
Definition CommitState (s : ArbitratorState) (b : mockArbitratorLog)
    : mockArbitratorLog * bool :=
  if failCommit b && bool_decide (s = failCommitState b) then (b, false)
  else
    ({| state := s;
        newStates := newStates b ++ [s];
        failCommit := failCommit b;
        failCommitState := failCommitState b |}, true).

(** [channeldb.ClosureType], as far as the arbitrator tells the kinds
    apart. *)
Inductive ClosureType : Type :=
| CooperativeClose
| LocalForceClose
| RemoteForceClose
| BreachClose.

(** What sets the state machine going. *)
Inductive transitionTrigger : Type :=
| chainTrigger
| userTrigger
| closeTrigger (c : ClosureType).

(** What [cfg.PublishTx] returns. *)
Inductive publishResult : Type :=
| PublishOk
| ErrDoubleSpend
| PublishFailed.

(** What the surroundings of the arbitrator answer while it handles one
    event: the result of publishing, whether the closed commitment carries
    htlcs to resolve, whether it carries htlcs below dust, whether a
    resolver at work has a resolution message to deliver, whether the
    resolvers are done, and whether an htlc that exists on the
    counterparty's commitment only is about to expire. *)
Record surroundings : Type := {
  PublishTx : publishResult;
  liveHtlcs : bool;
  dustHtlcs : bool;
  resolverMessage : bool;
  resolversDone : bool;
  danglingHtlc : bool
}.

(** What the arbitrator does that others can see, with the commits of the
    log in between. *)
Inductive action : Type :=
| Committed (s : ArbitratorState)
| CommitFailed (s : ArbitratorState)
| Published
| ResolutionMessage
| MarkChannelClosed (c : ClosureType)
| MarkChannelResolved
| Replied (alreadyForceClosed : bool).

(** Modelled from the spec: one step of the state machine in the state
    [s], section 4.5: the state that follows, the actions of the step, and
    whether the step failed.  As the tests have it, a publication that fails
    with another error than a double spend halts the machine in
    [StateBroadcastCommit], and the channel is marked resolved by the step
    taken in [StateFullyResolved].  Resolution messages go out in two
    places: the step taken in [StateContractClosed] fails back the htlcs
    below dust at once, and while the machine is in
    [StateWaitingFullResolution] the resolvers deliver theirs, as in
    [TestChannelArbitratorLocalForceClosePendingHtlc], where the message
    for the htlc 99 arrives after the restart and before
    [StateFullyResolved]. *)
Definition stateStep (env : surroundings) (s : ArbitratorState)
    (trigger : transitionTrigger) : ArbitratorState * list action * bool :=
  match s, trigger with
  | StateFullyResolved, _ => (StateFullyResolved, [MarkChannelResolved], true)
  | _, closeTrigger BreachClose => (StateFullyResolved, [], true)
  | StateDefault, userTrigger => (StateBroadcastCommit, [], true)
  | StateDefault, chainTrigger =>
      if danglingHtlc env then (StateBroadcastCommit, [], true)
      else (StateDefault, [], true)
  | StateDefault, closeTrigger CooperativeClose =>
      (StateFullyResolved, [], true)
  | StateDefault, closeTrigger _ => (StateContractClosed, [], true)
  | StateBroadcastCommit, _ =>
      match PublishTx env with
      | PublishFailed => (StateBroadcastCommit, [Published], false)
      | _ => (StateCommitmentBroadcasted, [Published], true)
      end
  | StateCommitmentBroadcasted, closeTrigger LocalForceClose
  | StateCommitmentBroadcasted, closeTrigger RemoteForceClose =>
      (StateContractClosed, [], true)
  | StateCommitmentBroadcasted, _ => (StateCommitmentBroadcasted, [], true)
  | StateContractClosed, _ =>
      (if liveHtlcs env then StateWaitingFullResolution
       else StateFullyResolved,
       if dustHtlcs env then [ResolutionMessage] else [], true)
  | StateWaitingFullResolution, _ =>
      (if resolversDone env then StateFullyResolved
       else StateWaitingFullResolution,
       if resolverMessage env then [ResolutionMessage] else [], true)
  end.

(** The arbitrator: its log and what it has done so far. *)
Record ChannelArbitrator : Type := {
  log : mockArbitratorLog;
  done : list action
}.

Definition act (a : ChannelArbitrator) (acts : list action)
    : ChannelArbitrator :=
  {| log := log a; done := done a ++ acts |}.

(** Modelled from the spec: [advanceState], the persistence contract of
    section 4.5: step, commit the state that follows, and go on from it,
    until a step leaves the state as it is, fails, or the commit fails,
    which leaves the arbitrator in the prior state. *)
Fixpoint advanceState (fuel : nat) (env : surroundings)
    (trigger : transitionTrigger) (a : ChannelArbitrator)
    : ChannelArbitrator :=
  match fuel with
  | O => a
  | S fuel =>
      let prior := CurrentState (log a) in
      let '(next, acts, ok) := stateStep env prior trigger in
      let a := act a acts in
      if negb ok then a
      else if bool_decide (next = prior) then a
      else
        match CommitState next (log a) with
        | (_, false) => act a [CommitFailed next]
        | (log', true) =>
            advanceState fuel env trigger
              {| log := log'; done := done a ++ [Committed next] |}
        end
  end.

(** The machine has six states and never steps back: seven rounds see
    every run of [advanceState] to its end. *)
Definition rounds : nat := 7.

(** What reaches the arbitrator: the four chain events, a block epoch, a
    force close request, a restart (with the kind of close the database
    reports for a channel that is pending close), the report of a resolver
    that a spend of its output has reached, and the test switching the
    failure of the log. *)
Inductive event : Type :=
| CooperativeClosure
| LocalUnilateralClosure
| RemoteUnilateralClosure
| ContractBreach
| BlockEpoch
| ForceCloseReq
| Restart (pendingClose : option ClosureType)
| ResolverReport
| SetFailCommit (fail : bool) (s : ArbitratorState).

Definition closureOf (e : event) : option ClosureType :=
  match e with
  | CooperativeClosure => Some CooperativeClose
  | LocalUnilateralClosure => Some LocalForceClose
  | RemoteUnilateralClosure => Some RemoteForceClose
  | ContractBreach => Some BreachClose
  | _ => None
  end.

(** Modelled from the spec: the handling of one event.  A close seen on
    chain is marked in the database and then the machine advanced, as
    [TestChannelArbitratorCommitFailure] has it; a force close request is
    served in [StateDefault] only; the resolvers are at work while the
    arbitrator waits in [StateWaitingFullResolution], where their report
    advances the machine as a block does; an arbitrator that has resolved
    its channel has stopped. *)
Definition handle (env : surroundings) (e : event) (a : ChannelArbitrator)
    : ChannelArbitrator :=
  match e with
  | SetFailCommit fail s =>
      {| log := {| state := state (log a); newStates := newStates (log a);
                   failCommit := fail; failCommitState := s |};
         done := done a |}
  | Restart pendingClose =>
      advanceState rounds env
        (match pendingClose with
         | Some c => closeTrigger c
         | None => chainTrigger
         end) a
  | ForceCloseReq =>
      match CurrentState (log a) with
      | StateDefault =>
          let a := advanceState rounds env userTrigger a in
          act a [Replied false]
      | _ => act a [Replied true]
      end
  | BlockEpoch =>
      match CurrentState (log a) with
      | StateFullyResolved => a
      | _ => advanceState rounds env chainTrigger a
      end
  | ResolverReport =>
      match CurrentState (log a) with
      | StateWaitingFullResolution => advanceState rounds env chainTrigger a
      | _ => a
      end
  | _ =>
      match CurrentState (log a), closureOf e with
      | StateFullyResolved, _ => a
      | _, Some c =>
          advanceState rounds env (closeTrigger c)
            (act a [MarkChannelClosed c])
      | _, None => a
      end
  end.

Fixpoint run (es : list (surroundings * event)) (a : ChannelArbitrator)
    : ChannelArbitrator :=
  match es with
  | [] => a
  | (env, e) :: rest => run rest (handle env e a)
  end.

(** Modelled from the spec: the edges of the diagram of section 4.5.  The
    arrow that leaves [StateDefault] on a close seen on chain is read as
    leading to the state the kind of the close calls for:
    [StateContractClosed] for a unilateral close, [StateFullyResolved] for a
    cooperative one; a breach leads from every state before it to
    [StateFullyResolved]. *)
Definition diagram (s s' : ArbitratorState) : bool :=
  match s, s' with
  | StateDefault, StateBroadcastCommit
  | StateDefault, StateContractClosed
  | StateBroadcastCommit, StateCommitmentBroadcasted
  | StateCommitmentBroadcasted, StateContractClosed
  | StateContractClosed, StateWaitingFullResolution
  | StateWaitingFullResolution, StateFullyResolved => true
  | StateFullyResolved, _ => false
  | _, StateFullyResolved => true
  | _, _ => false
  end.

(** A sequence of states each of which follows its predecessor by an edge
    of the diagram, [s] being the first predecessor. *)
Fixpoint follows (s : ArbitratorState) (l : list ArbitratorState) : bool :=
  match l with
  | [] => true
  | s' :: rest => diagram s s' && follows s' rest
  end.

(** The persisted state after a sequence of actions. *)
Fixpoint persisted (s : ArbitratorState) (acts : list action)
    : ArbitratorState :=
  match acts with
  | [] => s
  | Committed s' :: rest => persisted s' rest
  | _ :: rest => persisted s rest
  end.

(** The order the arbitrator keeps between commits and actions: the
    commitment is published while [StateBroadcastCommit] is the persisted
    state, resolution messages are sent while [StateContractClosed] or
    [StateWaitingFullResolution] is, and the channel is marked resolved
    while [StateFullyResolved] is.  (Marking the channel closed is bound to
    no state.) *)
Fixpoint ordered (s : ArbitratorState) (acts : list action) : bool :=
  match acts with
  | [] => true
  | Committed s' :: rest => ordered s' rest
  | Published :: rest =>
      bool_decide (s = StateBroadcastCommit) && ordered s rest
  | ResolutionMessage :: rest =>
      (bool_decide (s = StateContractClosed)
       || bool_decide (s = StateWaitingFullResolution))
      && ordered s rest
  | MarkChannelResolved :: rest =>
      bool_decide (s = StateFullyResolved) && ordered s rest
  | _ :: rest => ordered s rest
  end.

(** The arbitrator [a'] is the arbitrator [a] some commits and actions
    later: the log has been sent the states [l] on top of what it had, each
    following its predecessor by an edge of the diagram, the last of them
    being the persisted state; and the actions done on top are in order
    with the commits among them. *)
Definition extends (a a' : ChannelArbitrator) : Prop :=
  exists l acts,
    newStates (log a') = newStates (log a) ++ l /\
    follows (state (log a)) l = true /\
    state (log a') = List.last l (state (log a)) /\
    done a' = done a ++ acts /\
    ordered (state (log a)) acts = true /\
    state (log a') = persisted (state (log a)) acts.

(** The arbitrator of the tests at its start. *)
Definition started (b : mockArbitratorLog) : ChannelArbitrator :=
  {| log := b; done := [] |}.

Definition quiet : surroundings :=
  {| PublishTx := PublishOk; liveHtlcs := false; dustHtlcs := false;
     resolverMessage := false; resolversDone := false;
     danglingHtlc := false |}.

(** The surroundings of [TestChannelArbitratorLocalForceClosePendingHtlc]:
    at the confirmation of the commitment, which carries the htlc 99 and
    htlcs below dust; when the spend of the htlc output reaches the
    resolver, which then delivers its message; and when the spend of the
    second-level transaction does, which ends the resolver's work. *)
Definition confirming : surroundings :=
  {| PublishTx := PublishOk; liveHtlcs := true; dustHtlcs := true;
     resolverMessage := false; resolversDone := false;
     danglingHtlc := false |}.

Definition spending : surroundings :=
  {| PublishTx := PublishOk; liveHtlcs := true; dustHtlcs := true;
     resolverMessage := true; resolversDone := false;
     danglingHtlc := false |}.

Definition swept : surroundings :=
  {| PublishTx := PublishOk; liveHtlcs := true; dustHtlcs := true;
     resolverMessage := false; resolversDone := true;
     danglingHtlc := false |}.

(** The events of that test: the force close request, the confirmation of
    the local commitment, the restart on the same log, the block of height
    10, and the two spends that reach the resolver. *)
Definition pendingHtlcEvents : list (surroundings * event) :=
  [(quiet, ForceCloseReq); (confirming, LocalUnilateralClosure);
   (confirming, Restart None); (confirming, BlockEpoch);
   (spending, ResolverReport); (swept, ResolverReport)].

(** The log of [TestChannelArbitratorCommitFailure] for a remote force
    close: the commit of [StateContractClosed] fails. *)
Definition failingLog : mockArbitratorLog :=
  {| state := StateDefault; newStates := []; failCommit := true;
     failCommitState := StateContractClosed |}.

Definition defaultLog : mockArbitratorLog :=
  {| state := StateDefault; newStates := []; failCommit := false;
     failCommitState := StateDefault |}.

End contractcourt.

(** * Properties *)

(** ** Integer codecs *)

Lemma Z_of_byte_range b : 0 <= Z_of_byte b < 256.
Proof.
  unfold Z_of_byte. pose proof (Byte.to_N_bounded b). lia.
Qed.

Lemma Z_of_byte_of_Z z : Z_of_byte (byte_of_Z z) = z mod 256.
Proof.
  unfold byte_of_Z, Z_of_byte.
  assert (Hr : 0 <= z mod 256 < 256) by (apply Z.mod_pos_bound; lia).
  destruct (Byte.of_N (Z.to_N (z mod 256))) as [b|] eqn:E.
  - apply Byte.to_of_N in E. rewrite E. lia.
  - apply Byte.of_N_None_iff in E. lia.
Qed.

Lemma byte_of_Z_of_byte b : byte_of_Z (Z_of_byte b) = b.
Proof.
  unfold byte_of_Z.
  rewrite Z.mod_small by apply Z_of_byte_range.
  unfold Z_of_byte. rewrite N2Z.id, Byte.of_to_N. reflexivity.
Qed.

Lemma length_be_bytes n v : length (be_bytes n v) = n.
Proof. induction n; simpl; congruence. Qed.

Lemma be_value_app bs cs :
  be_value (bs ++ cs) = be_value bs * 256 ^ Z.of_nat (length cs) + be_value cs.
Proof.
  unfold be_value. revert bs. induction cs as [|c cs IH] using rev_ind; intros bs.
  - rewrite app_nil_r. simpl. lia.
  - rewrite app_assoc, !fold_left_app. simpl.
    rewrite <- fold_left_app, IH.
    rewrite length_app. simpl length.
    replace (Z.of_nat (length cs + 1)) with (Z.of_nat (length cs) + 1) by lia.
    rewrite Z.pow_add_r by lia. lia.
Qed.

Lemma be_value_cons b bs :
  be_value (b :: bs) = Z_of_byte b * 256 ^ Z.of_nat (length bs) + be_value bs.
Proof.
  change (b :: bs) with ([b] ++ bs). rewrite be_value_app.
  unfold be_value at 1. simpl. lia.
Qed.

Lemma be_value_be_bytes n v : be_value (be_bytes n v) = v mod 256 ^ Z.of_nat n.
Proof.
  induction n as [|n IH].
  - simpl. unfold be_value. simpl. rewrite Z.mod_1_r. reflexivity.
  - cbn [be_bytes]. rewrite be_value_cons, IH, length_be_bytes, Z_of_byte_of_Z.
    replace (Z.of_nat (S n)) with (Z.of_nat n + 1) by lia.
    rewrite Z.pow_add_r by lia.
    set (p := 256 ^ Z.of_nat n).
    assert (Hp : 0 < p) by (apply Z.pow_pos_nonneg; lia).
    change (256 ^ 1) with 256.
    rewrite Z.rem_mul_r by lia.
    lia.
Qed.


(** ** Reading back what was written *)

Lemma ReadFull_app bs rest n :
  length bs = n -> ReadFull n (bs ++ rest) = Ok (bs, rest).
Proof.
  intros Hn. unfold ReadFull.
  destruct n as [|n].
  - destruct bs; [reflexivity | discriminate].
  - simpl Nat.eqb. rewrite length_app.
    destruct (Nat.eqb_spec (length bs + length rest) 0); [lia|].
    destruct (Nat.ltb_spec (length bs + length rest) (S n)); [lia|].
    rewrite <- Hn, firstn_app, skipn_app, Nat.sub_diag, firstn_all, skipn_all.
    simpl. rewrite app_nil_r. reflexivity.
Qed.

Lemma read_uint_be_bytes n v rest :
  read_uint n (be_bytes n v ++ rest) = Ok (v mod 256 ^ Z.of_nat n, rest).
Proof.
  unfold read_uint. rewrite ReadFull_app by apply length_be_bytes.
  simpl. rewrite be_value_be_bytes. reflexivity.
Qed.

Lemma read_uint_small n v rest :
  0 <= v < 256 ^ Z.of_nat n ->
  read_uint n (be_bytes n v ++ rest) = Ok (v, rest).
Proof.
  intros Hv. rewrite read_uint_be_bytes, Z.mod_small by assumption. reflexivity.
Qed.

Lemma to_int64_wrap64 a : is_int64 a -> to_int64 (wrap64 a) = a.
Proof.
  unfold is_int64, to_int64, wrap64, wrap. intros Ha.
  rewrite Z.mod_mod by lia.
  destruct (Z.ltb_spec (a mod 2 ^ 64) (2 ^ 63)) as [Hlt|Hge].
  - destruct (Z_lt_le_dec a 0) as [Hneg|Hpos].
    + rewrite <- (Z.mod_add a 1 (2 ^ 64)) in Hlt by lia.
      rewrite Z.mod_small in Hlt by lia. lia.
    + apply Z.mod_small. lia.
  - destruct (Z_lt_le_dec a 0) as [Hneg|Hpos].
    + rewrite <- (Z.mod_add a 1 (2 ^ 64)) by lia.
      rewrite Z.mod_small by lia. lia.
    + rewrite Z.mod_small in Hge by lia. lia.
Qed.

(** ** AcceptChannel *)

Section AcceptChannelFacts.

Variable PublicKey : Type.
Variable SerializeCompressed : PublicKey -> list byte.
Variable ParsePubKey : list byte -> option PublicKey.

(** What the message needs of the key library: a compressed key takes 33
    bytes and parses back to the key it came from. *)
Hypothesis SerializeCompressed_length :
  forall k, length (SerializeCompressed k) = 33%nat.
Hypothesis ParsePubKey_SerializeCompressed :
  forall k, ParsePubKey (SerializeCompressed k) = Some k.

Lemma readPubKey_SerializeCompressed k rest :
  lnwire.readPubKey PublicKey ParsePubKey (SerializeCompressed k ++ rest)
  = Ok (Some k, rest).
Proof using SerializeCompressed_length ParsePubKey_SerializeCompressed.
  unfold lnwire.readPubKey.
  rewrite ReadFull_app by apply SerializeCompressed_length.
  simpl. rewrite ParsePubKey_SerializeCompressed. reflexivity.
Qed.

Lemma readAmount_be_bytes a rest :
  is_int64 a ->
  lnwire.readAmount (be_bytes 8 (wrap64 a) ++ rest) = Ok (a, rest).
Proof.
  intros Ha. unfold lnwire.readAmount.
  rewrite read_uint_small.
  - simpl. rewrite to_int64_wrap64 by assumption. reflexivity.
  - unfold wrap64, wrap. change (256 ^ Z.of_nat 8) with (2 ^ 64).
    apply Z.mod_pos_bound. lia.
Qed.

(** C9.  Every AcceptChannel message whose fields hold values of their Go
    types and whose six keys are present encodes, [Decode] reads the
    encoding back to the same message and consumes all of it, and the
    encoding is no longer than [MaxPayloadLength], which is 270 (the
    encoding takes exactly 270 bytes). *)
Theorem AcceptChannel_roundtrip (m : lnwire.AcceptChannel PublicKey) :
  lnwire.wf_AcceptChannel m ->
  exists bs,
    lnwire.Encode SerializeCompressed m = Ok bs /\
    lnwire.Decode ParsePubKey bs = Ok (m, []) /\
    Z.of_nat (length bs) <= lnwire.MaxPayloadLength /\
    lnwire.MaxPayloadLength = 270 /\
    length bs = 270%nat.
Proof using SerializeCompressed_length ParsePubKey_SerializeCompressed.
  intros [Hpid Hdust Hinf Hres Hmin Hdepth Hcsv Hmax
            [k1 H1] [k2 H2] [k3 H3] [k4 H4] [k5 H5] [k6 H6]].
  destruct m as [pid dust inf res hmin depth csv maxh f1 f2 f3 f4 f5 f6].
  simpl in *. subst f1 f2 f3 f4 f5 f6.
  unfold lnwire.Encode.
  cbn [lnwire.PendingChannelID lnwire.DustLimit lnwire.MaxValueInFlight
       lnwire.ChannelReserve lnwire.HtlcMinimum lnwire.MinAcceptDepth
       lnwire.CsvDelay lnwire.MaxAcceptedHTLCs lnwire.FundingKey
       lnwire.RevocationPoint lnwire.PaymentPoint
       lnwire.DelayedPaymentPoint lnwire.HtlcPoint
       lnwire.FirstCommitmentPoint
       lnwire.WriteElements lnwire.WriteElement bind].
  eexists. split; [reflexivity|].
  split; [|split; [|split; [reflexivity|]]].
  - unfold lnwire.Decode, lnwire.readBytes, lnwire.readMilliAtom,
      lnwire.readUint32, lnwire.readUint16.
    rewrite ReadFull_app by assumption. cbn [bind].
    rewrite readAmount_be_bytes by assumption. cbn [bind].
    rewrite read_uint_small by exact Hinf. cbn [bind].
    rewrite readAmount_be_bytes by assumption. cbn [bind].
    rewrite read_uint_small by exact Hmin. cbn [bind].
    rewrite read_uint_small by exact Hdepth. cbn [bind].
    rewrite read_uint_small by exact Hcsv. cbn [bind].
    rewrite read_uint_small by exact Hmax. cbn [bind].
    repeat (rewrite readPubKey_SerializeCompressed; cbn [bind]).
    reflexivity.
  - rewrite !length_app, !SerializeCompressed_length, !length_be_bytes, Hpid.
    unfold lnwire.MaxPayloadLength. simpl. lia.
  - rewrite !length_app, !SerializeCompressed_length, !length_be_bytes, Hpid.
    reflexivity.
Qed.

End AcceptChannelFacts.

Lemma toy_serialize_length k : length (lnwire.toy_serialize k) = 33%nat.
Proof. destruct k; reflexivity. Qed.

Lemma toy_parse_serialize k :
  lnwire.toy_parse (lnwire.toy_serialize k) = Some k.
Proof. destruct k; reflexivity. Qed.

Lemma sample_wf : lnwire.wf_AcceptChannel lnwire.sample.
Proof.
  split; simpl; unfold is_int64, is_uint; try lia; try reflexivity; eauto.
Qed.

(** The round trip at the sample message. *)
Lemma AcceptChannel_roundtrip_witness :
  lnwire.wf_AcceptChannel lnwire.sample /\
  exists bs,
    lnwire.Encode lnwire.toy_serialize lnwire.sample = Ok bs /\
    lnwire.Decode lnwire.toy_parse bs = Ok (lnwire.sample, []) /\
    Z.of_nat (length bs) <= lnwire.MaxPayloadLength /\
    lnwire.MaxPayloadLength = 270 /\
    length bs = 270%nat.
Proof.
  split; [exact sample_wf|].
  exact (AcceptChannel_roundtrip bool lnwire.toy_serialize lnwire.toy_parse
           toy_serialize_length toy_parse_serialize lnwire.sample sample_wf).
Defined.

(** A message with a nil key does not encode at all. *)
Example Encode_nil_key :
  lnwire.Encode lnwire.toy_serialize
    {| lnwire.PendingChannelID := repeat x07 32;
       lnwire.DustLimit := 0; lnwire.MaxValueInFlight := 0;
       lnwire.ChannelReserve := 0; lnwire.HtlcMinimum := 0;
       lnwire.MinAcceptDepth := 0; lnwire.CsvDelay := 0;
       lnwire.MaxAcceptedHTLCs := 0;
       lnwire.FundingKey := None; lnwire.RevocationPoint := Some true;
       lnwire.PaymentPoint := Some true;
       lnwire.DelayedPaymentPoint := Some true;
       lnwire.HtlcPoint := Some true;
       lnwire.FirstCommitmentPoint := Some true |}
  = Err ErrNilPubKey.
Proof. reflexivity. Qed.

(** ** The edges of the AcceptChannel codec *)

Section AcceptChannelEdges.

Variable PublicKey : Type.
Variable SerializeCompressed : PublicKey -> list byte.
Variable ParsePubKey : list byte -> option PublicKey.

Lemma ReadFull_length n input bs rest :
  ReadFull n input = Ok (bs, rest) ->
  length input = (n + length rest)%nat.
Proof.
  unfold ReadFull. destruct (Nat.eqb_spec n 0) as [->|Hn].
  - intros [= _ <-]. reflexivity.
  - destruct (length input =? 0)%nat; [discriminate|].
    destruct (Nat.ltb_spec (length input) n); [discriminate|].
    intros [= _ <-]. rewrite length_skipn. lia.
Qed.

Lemma read_uint_length n input v rest :
  read_uint n input = Ok (v, rest) ->
  length input = (n + length rest)%nat.
Proof.
  unfold read_uint.
  destruct (ReadFull n input) as [[bs r]|] eqn:E; [|discriminate].
  cbn [bind]. intros [= _ <-]. apply (ReadFull_length _ _ _ _ E).
Qed.

Lemma readAmount_length input v rest :
  lnwire.readAmount input = Ok (v, rest) ->
  length input = (8 + length rest)%nat.
Proof.
  unfold lnwire.readAmount.
  destruct (read_uint 8 input) as [[u r]|] eqn:E; [|discriminate].
  cbn [bind]. intros [= _ <-]. apply (read_uint_length _ _ _ _ E).
Qed.

Lemma readPubKey_length input k rest :
  lnwire.readPubKey PublicKey ParsePubKey input = Ok (k, rest) ->
  length input = (33 + length rest)%nat /\ is_Some k.
Proof.
  unfold lnwire.readPubKey.
  destruct (ReadFull 33 input) as [[b r]|] eqn:E; [|discriminate].
  cbn [bind]. destruct (ParsePubKey b) as [key|]; [|discriminate].
  intros [= <- <-]. split; [apply (ReadFull_length _ _ _ _ E) | eauto].
Qed.

(** A message with a nil key does not encode, whichever of the six keys it
    is; and [Decode] succeeds only on a payload of at least 270 bytes, of
    which it consumes exactly 270, and the message it returns has its six
    keys. *)
Theorem AcceptChannel_nil_keys_and_short_payloads
    (m : lnwire.AcceptChannel PublicKey) (bs rest : list byte) :
  (lnwire.FundingKey m = None \/ lnwire.RevocationPoint m = None \/
   lnwire.PaymentPoint m = None \/ lnwire.DelayedPaymentPoint m = None \/
   lnwire.HtlcPoint m = None \/ lnwire.FirstCommitmentPoint m = None ->
   lnwire.Encode SerializeCompressed m = Err ErrNilPubKey) /\
  (lnwire.Decode ParsePubKey bs = Ok (m, rest) ->
   length bs = (270 + length rest)%nat /\
   is_Some (lnwire.FundingKey m) /\ is_Some (lnwire.RevocationPoint m) /\
   is_Some (lnwire.PaymentPoint m) /\
   is_Some (lnwire.DelayedPaymentPoint m) /\
   is_Some (lnwire.HtlcPoint m) /\
   is_Some (lnwire.FirstCommitmentPoint m)).
Proof.
  split.
  - intros Hnil. destruct m as [pid dust inf res hmin depth csv maxh
                                  [k1|] [k2|] [k3|] [k4|] [k5|] [k6|]];
      cbn in Hnil; try reflexivity.
    exfalso. intuition discriminate.
  - unfold lnwire.Decode, lnwire.readBytes, lnwire.readMilliAtom,
      lnwire.readUint32, lnwire.readUint16.
    destruct (ReadFull 32 bs) as [[pid r1]|] eqn:E1; [|discriminate].
    cbn [bind].
    destruct (lnwire.readAmount r1) as [[dust r2]|] eqn:E2; [|discriminate].
    cbn [bind].
    destruct (read_uint 8 r2) as [[inf r3]|] eqn:E3; [|discriminate].
    cbn [bind].
    destruct (lnwire.readAmount r3) as [[res r4]|] eqn:E4; [|discriminate].
    cbn [bind].
    destruct (read_uint 8 r4) as [[hmin r5]|] eqn:E5; [|discriminate].
    cbn [bind].
    destruct (read_uint 4 r5) as [[depth r6]|] eqn:E6; [|discriminate].
    cbn [bind].
    destruct (read_uint 2 r6) as [[csv r7]|] eqn:E7; [|discriminate].
    cbn [bind].
    destruct (read_uint 2 r7) as [[maxh r8]|] eqn:E8; [|discriminate].
    cbn [bind].
    destruct (lnwire.readPubKey PublicKey ParsePubKey r8) as [[k1 r9]|] eqn:E9;
      [|discriminate]. cbn [bind].
    destruct (lnwire.readPubKey PublicKey ParsePubKey r9) as [[k2 r10]|] eqn:E10;
      [|discriminate]. cbn [bind].
    destruct (lnwire.readPubKey PublicKey ParsePubKey r10) as [[k3 r11]|] eqn:E11;
      [|discriminate]. cbn [bind].
    destruct (lnwire.readPubKey PublicKey ParsePubKey r11) as [[k4 r12]|] eqn:E12;
      [|discriminate]. cbn [bind].
    destruct (lnwire.readPubKey PublicKey ParsePubKey r12) as [[k5 r13]|] eqn:E13;
      [|discriminate]. cbn [bind].
    destruct (lnwire.readPubKey PublicKey ParsePubKey r13) as [[k6 r14]|] eqn:E14;
      [|discriminate]. cbn [bind].
    intros [= <- <-]. cbn.
    apply ReadFull_length in E1. apply readAmount_length in E2, E4.
    apply read_uint_length in E3, E5, E6, E7, E8.
    apply readPubKey_length in E9 as [E9 S1], E10 as [E10 S2],
      E11 as [E11 S3], E12 as [E12 S4], E13 as [E13 S5], E14 as [E14 S6].
    repeat split; try assumption. lia.
Qed.

End AcceptChannelEdges.

(** ** AddInvoice *)

Section AddInvoiceFacts.
Import channeldb dbview.

Variable rt : runtime.

Lemma validateInvoice_ok i :
  validateInvoice i = Ok tt <->
  (Z.of_nat (length (Invoice.Memo i)) <= MaxMemoSize /\
   Z.of_nat (length (Invoice.Receipt i)) <= MaxReceiptSize /\
   Z.of_nat (length (Invoice.PaymentRequest i)) <= MaxPaymentRequestSize).
Proof.
  unfold validateInvoice.
  destruct (Z.ltb_spec MaxMemoSize (Z.of_nat (length (Invoice.Memo i))));
    [split; [discriminate | lia]|].
  destruct (Z.ltb_spec MaxReceiptSize (Z.of_nat (length (Invoice.Receipt i))));
    [split; [discriminate | lia]|].
  destruct (Z.ltb_spec MaxPaymentRequestSize
              (Z.of_nat (length (Invoice.PaymentRequest i))));
    [split; [discriminate | lia]|].
  split; [lia | reflexivity].
Qed.

Lemma serializeInvoice_with_AddIndex_ok i idx :
  marshalable rt i = true ->
  exists buf, serializeInvoice rt (Invoice.with_AddIndex i idx) = Ok buf.
Proof.
  unfold marshalable, serializeInvoice. intros Hm.
  apply andb_true_iff in Hm as [Hc Hs]. simpl.
  destruct (time.MarshalBinary _ (Invoice.CreationDate i)); [|discriminate].
  destruct (time.MarshalBinary _ (Invoice.SettleDate i)); [|discriminate].
  simpl. eauto.
Qed.

Lemma indexed_Get hash d :
  indexed hash d = true <->
  exists invoices idx v,
    d = Some invoices /\ invoiceIndex invoices = Some idx /\
    bolt.Get hash idx = Some v.
Proof.
  unfold indexed. split.
  - destruct d as [invoices|]; [|discriminate].
    destruct (invoiceIndex invoices) as [idx|] eqn:E; [|discriminate].
    intros H. apply bool_decide_eq_true in H as [v Hv]. eauto 6.
  - intros (invoices & idx & v & -> & -> & Hv).
    apply bool_decide_eq_true. eauto.
Qed.

Lemma indexed_false_Get hash d :
  indexed hash d = false ->
  bolt.Get hash
    (bolt.CreateBucketIfNotExists
       (invoiceIndex (default emptyInvoiceBucket d))) = None.
Proof.
  unfold indexed. destruct d as [invoices|]; [|reflexivity].
  simpl. destruct (invoiceIndex invoices) as [idx|]; [|reflexivity].
  simpl. intros H. apply bool_decide_eq_false in H.
  destruct (bolt.Get hash idx); [|reflexivity].
  exfalso. apply H. eauto.
Qed.

Lemma addSequence_default d :
  bolt.sequence
    (bolt.CreateBucketIfNotExists (addIndex (default emptyInvoiceBucket d)))
  = addSequence d.
Proof.
  unfold addSequence. destruct d as [invoices|]; [|reflexivity].
  simpl. destruct (addIndex invoices); reflexivity.
Qed.

(** A duplicate payment hash is refused, whatever else the invoice holds. *)
Lemma AddInvoice_duplicate i hash d :
  indexed hash d = true ->
  exists e, AddInvoice rt i hash d = (d, Err e) /\
    (validateInvoice i = Ok tt -> e = ErrDuplicateInvoice).
Proof.
  intros Hi. apply indexed_Get in Hi as (invoices & idx & v & -> & Hidx & Hv).
  unfold AddInvoice. destruct (validateInvoice i) as [[]|e] eqn:Ev.
  - unfold Update. simpl. rewrite Hidx. simpl. rewrite Hv. eauto.
  - exists e. split; [reflexivity | discriminate].
Qed.

End AddInvoiceFacts.

(** ** Byte strings *)

Lemma Z_of_byte_inj a b : Z_of_byte a = Z_of_byte b -> a = b.
Proof.
  intros H. rewrite <- (byte_of_Z_of_byte a), <- (byte_of_Z_of_byte b).
  congruence.
Qed.

Lemma bytes_compare_eq a b : bytes_compare a b = Eq <-> a = b.
Proof.
  revert b. induction a as [|x a IH]; intros [|y b]; simpl;
    try (split; [discriminate | discriminate]); [tauto|].
  destruct (Z.compare_spec (Z_of_byte x) (Z_of_byte y)) as [E|L|L].
  - apply Z_of_byte_inj in E. subst y. rewrite IH.
    split; [congruence | intros [= ->]; reflexivity].
  - split; [discriminate | intros [= -> _]; lia].
  - split; [discriminate | intros [= -> _]; lia].
Qed.

Lemma bytes_eqb_true a b : bytes_eqb a b = true <-> a = b.
Proof.
  unfold bytes_eqb. rewrite <- bytes_compare_eq.
  destruct (bytes_compare a b); split; congruence.
Qed.

Lemma bytes_eqb_refl a : bytes_eqb a a = true.
Proof. apply bytes_eqb_true. reflexivity. Qed.

Lemma bytes_eqb_false a b : bytes_eqb a b = false <-> a <> b.
Proof.
  rewrite <- bytes_eqb_true. destruct (bytes_eqb a b); split; congruence.
Qed.

(** ** Ranging over a map *)

Section RangeFacts.
Import channeldb.

Variable rt : runtime.
Hypothesis Hrange : range_sound rt.

Lemma range_elem {V} (m : gmap CircuitKey V) k v :
  (k, v) ∈ range rt m <-> m !! k = Some v.
Proof using Hrange.
  rewrite (Hrange V m). apply elem_of_map_to_list.
Qed.

Lemma range_NoDup {V} (m : gmap CircuitKey V) : NoDup (range rt m).*1.
Proof using Hrange.
  rewrite (Hrange V m). apply NoDup_fst_map_to_list.
Qed.

Lemma range_keys {V} (m : gmap CircuitKey V) k :
  k ∈ (range rt m).*1 <-> is_Some (m !! k).
Proof using Hrange.
  rewrite list_elem_of_fmap. split.
  - intros [[k' v] [-> Hin]]. apply range_elem in Hin. eauto.
  - intros [v Hv]. exists (k, v). split; [reflexivity|].
    apply range_elem. exact Hv.
Qed.

End RangeFacts.

(** ** The loop over the htlc updates *)

Section UpdateLoop.
Import channeldb dbview.

Variable pre : ContractState.
Variable now : time.Time.

Lemma applyHtlcUpdate_frame inv inv' k u :
  applyHtlcUpdate pre now inv k u = Ok inv' -> frame inv' = frame inv.
Proof.
  unfold applyHtlcUpdate. intros H.
  destruct u as [a|], (Invoice.Htlcs inv !! k) as [h|]; try discriminate.
  - injection H as <-. reflexivity.
  - destruct (negb _); [discriminate|]. injection H as <-. reflexivity.
Qed.


Lemma applyHtlcUpdate_other inv inv' k u k' :
  applyHtlcUpdate pre now inv k u = Ok inv' -> k' <> k ->
  Invoice.Htlcs inv' !! k' = Invoice.Htlcs inv !! k'.
Proof.
  unfold applyHtlcUpdate. intros H Hne.
  destruct u as [a|], (Invoice.Htlcs inv !! k) as [h|]; try discriminate.
  - injection H as <-. simpl. apply lookup_insert_ne. congruence.
  - destruct (negb _); [discriminate|]. injection H as <-. simpl.
    apply lookup_insert_ne. congruence.
Qed.


(** What a successful run of the loop leaves. *)
Lemma applyHtlcUpdates_ok inv inv' us :
  NoDup us.*1 ->
  applyHtlcUpdates pre now inv us = Ok inv' ->
  (forall k a, (k, Some a) ∈ us ->
     Invoice.Htlcs inv !! k = None /\
     Invoice.Htlcs inv' !! k = Some (newHtlc pre now a)) /\
  (forall k, (k, None) ∈ us ->
     exists h, Invoice.Htlcs inv !! k = Some h /\
       InvoiceHTLC.State h = HtlcStateAccepted /\
       Invoice.Htlcs inv' !! k = Some (resolve h HtlcStateCanceled now)) /\
  (forall k, k ∉ us.*1 ->
     Invoice.Htlcs inv' !! k = Invoice.Htlcs inv !! k) /\
  frame inv' = frame inv.
Proof.
  revert inv. induction us as [|[k0 u0] us IH]; intros inv Hnd Hrun.
  - simpl in Hrun. injection Hrun as <-.
    repeat split; try (intros; match goal with H : _ ∈ [] |- _ =>
                                   inversion H end); reflexivity.
  - simpl in Hnd. apply NoDup_cons in Hnd as [Hk0 Hnd].
    simpl in Hrun.
    destruct (applyHtlcUpdate pre now inv k0 u0) as [inv1|e] eqn:E;
      [|discriminate].
    simpl in Hrun.
    destruct (IH inv1 Hnd Hrun) as (Hadd & Hcan & Hoth & Hrest).
    assert (Hfresh : forall k u, (k, u) ∈ us -> k <> k0).
    { intros k u Hin ->. apply Hk0. apply list_elem_of_fmap.
      exists (k0, u). split; [reflexivity | assumption]. }
    assert (Hk0' : Invoice.Htlcs inv' !! k0 = Invoice.Htlcs inv1 !! k0)
      by (apply Hoth; assumption).
    split; [|split; [|split]].
    + intros k a Hin. apply elem_of_cons in Hin as [[= -> <-]|Hin].
      * rewrite Hk0'. unfold applyHtlcUpdate in E.
        destruct (Invoice.Htlcs inv !! k0) as [h|] eqn:El; [discriminate|].
        injection E as <-. simpl. rewrite lookup_insert_eq. auto.
      * destruct (Hadd k a Hin) as [H1 H2]. split; [|assumption].
        rewrite <- H1. symmetry.
        apply (applyHtlcUpdate_other _ _ _ _ _ E). eauto.
    + intros k Hin. apply elem_of_cons in Hin as [[= -> <-]|Hin].
      * rewrite Hk0'. unfold applyHtlcUpdate in E.
        destruct (Invoice.Htlcs inv !! k0) as [h|] eqn:El; [|discriminate].
        destruct (Z.eqb_spec (InvoiceHTLC.State h) HtlcStateAccepted);
          [|discriminate].
        injection E as <-. simpl. rewrite lookup_insert_eq. eauto.
      * destruct (Hcan k Hin) as (h & H1 & H2 & H3). exists h.
        split; [|auto].
        rewrite <- H1. symmetry.
        apply (applyHtlcUpdate_other _ _ _ _ _ E). eauto.
    + intros k Hk. simpl in Hk. apply not_elem_of_cons in Hk as [Hne Hk].
      rewrite (Hoth k Hk). apply (applyHtlcUpdate_other _ _ _ _ _ E Hne).
    + rewrite Hrest. apply (applyHtlcUpdate_frame _ _ _ _ E).
Qed.

End UpdateLoop.

(** ** The callback and the records it shares with the invoice *)

Section CallbackFacts.
Import channeldb dbview.

Variable rt : runtime.
Hypothesis Hrange : range_sound rt.

Lemma perform_length ws (s : store) : length (perform ws s) = length s.
Proof.
  unfold perform. revert s. induction ws as [|w ws IH]; intros s; simpl.
  - reflexivity.
  - rewrite IH. apply length_insert.
Qed.

Lemma perform_nil (s : store) : perform [] s = s.
Proof. reflexivity. Qed.

(** The address [allocate] gives the record of a key. *)
Lemma allocate_address (i : Invoice.t) k a :
  Invoice.Htlcs (snd (allocate rt i)) !! k = Some a <->
  (range rt (Invoice.Htlcs i)).*1 !! a = Some k.
Proof using Hrange.
  unfold allocate. cbn [snd Invoice.with_Htlcs Invoice.Htlcs].
  set (entries := range rt (Invoice.Htlcs i)).
  assert (Hfst : (zip (map fst entries) (seq 0 (length entries))).*1
                 = entries.*1).
  { apply fst_zip. rewrite length_seq, length_map. reflexivity. }
  rewrite <- elem_of_list_to_map
    by (rewrite Hfst; apply range_NoDup; assumption).
  rewrite list_elem_of_lookup. split.
  - intros [j Hj]. apply lookup_zip_with_Some in Hj
      as (x & y & [= -> ->] & Hx & Hy).
    apply lookup_seq in Hy as [-> _]. exact Hx.
  - intros Hk. exists a. apply lookup_zip_with_Some.
    exists k, a. split; [reflexivity|]. split; [exact Hk|].
    apply lookup_seq. split; [reflexivity|].
    apply lookup_lt_Some in Hk. rewrite length_fmap in Hk. exact Hk.
Qed.

Lemma allocate_None (i : Invoice.t) k :
  Invoice.Htlcs (snd (allocate rt i)) !! k = None <->
  Invoice.Htlcs i !! k = None.
Proof using Hrange.
  split; intros H.
  - destruct (Invoice.Htlcs i !! k) as [v|] eqn:E; [|reflexivity].
    apply (range_elem rt Hrange) in E.
    apply list_elem_of_lookup in E as [a Ha].
    assert (Hk : (range rt (Invoice.Htlcs i)).*1 !! a = Some k)
      by (rewrite list_lookup_fmap, Ha; reflexivity).
    apply allocate_address in Hk. congruence.
  - destruct (Invoice.Htlcs (snd (allocate rt i)) !! k) as [a|] eqn:E;
      [|reflexivity].
    apply allocate_address in E.
    assert (Hin : k ∈ (range rt (Invoice.Htlcs i)).*1)
      by (apply list_elem_of_lookup; eauto).
    apply (range_keys rt Hrange) in Hin as [v Hv]. congruence.
Qed.

Lemma allocate_store (i : Invoice.t) a :
  fst (allocate rt i) !! a = (range rt (Invoice.Htlcs i)).*2 !! a.
Proof. reflexivity. Qed.

(** Loading what was allocated gives the invoice back. *)
Lemma load_allocate (i : Invoice.t) :
  load (fst (allocate rt i)) (snd (allocate rt i)) = i.
Proof using Hrange.
  unfold load.
  assert (Hm : omap (fun a => fst (allocate rt i) !! a)
                 (Invoice.Htlcs (snd (allocate rt i))) = Invoice.Htlcs i).
  { apply map_eq. intros k. rewrite lookup_omap.
    destruct (Invoice.Htlcs (snd (allocate rt i)) !! k) as [a|] eqn:E.
    - apply allocate_address in E. cbn [mbind option_bind].
      rewrite allocate_store.
      rewrite list_lookup_fmap in E. rewrite list_lookup_fmap.
      destruct (range rt (Invoice.Htlcs i) !! a) as [[k' v]|] eqn:El;
        [|discriminate].
      simpl in E. injection E as ->. simpl. symmetry.
      apply (range_elem rt Hrange). apply list_elem_of_lookup. eauto.
    - apply allocate_None in E. rewrite E. reflexivity. }
  rewrite Hm. destruct i; reflexivity.
Qed.

(** The callback cannot change which keys the invoice holds, nor any of its
    other fields. *)
Lemma runCallback_frame (i : Invoice.t) cb inv ret :
  runCallback rt i cb = (inv, ret) ->
  Invoice.with_Htlcs inv (Invoice.Htlcs i) = i /\
  forall k, is_Some (Invoice.Htlcs inv !! k) <-> is_Some (Invoice.Htlcs i !! k).
Proof using Hrange.
  unfold runCallback.
  destruct (allocate rt i) as [s r] eqn:Ea.
  intros [= <- <-].
  assert (Hs : s = fst (allocate rt i)) by (rewrite Ea; reflexivity).
  assert (Hr : r = snd (allocate rt i)) by (rewrite Ea; reflexivity).
  split.
  - subst r. unfold allocate, load. destruct i; reflexivity.
  - intros k. unfold load. cbn [Invoice.Htlcs Invoice.with_Htlcs].
    rewrite lookup_omap.
    destruct (Invoice.Htlcs r !! k) as [a|] eqn:E.
    + simpl. rewrite Hr in E. pose proof E as E'.
      apply allocate_address in E.
      assert (Hlt : (a < length s)%nat).
      { apply lookup_lt_Some in E. rewrite length_fmap in E.
        rewrite Hs. unfold allocate. simpl. rewrite length_map. exact E. }
      rewrite <- (perform_length (writes (cb (copyInvoice rt r) s))) in Hlt.
      apply lookup_lt_is_Some_2 in Hlt.
      split; intros _; [|exact Hlt].
      rewrite <- not_eq_None_Some. rewrite <- allocate_None.
      rewrite E'. discriminate.
    + simpl. rewrite Hr in E. apply allocate_None in E. rewrite E.
      split; intros [? ?]; discriminate.
Qed.

(** A callback that writes to no record leaves the invoice as fetched. *)
Lemma runCallback_no_writes (i : Invoice.t) cb :
  (forall copy s, writes (cb copy s) = []) ->
  fst (runCallback rt i cb) = i.
Proof using Hrange.
  intros Hw. unfold runCallback.
  pose proof (load_allocate i) as Hl.
  destruct (allocate rt i) as [s r]. simpl in *. rewrite Hw. exact Hl.
Qed.

(** The loop that settles the accepted htlcs settles each of them and leaves
    the others. *)
Lemma settleAccepted_fmap now (m : gmap CircuitKey InvoiceHTLC.t) :
  settleAccepted rt now m = settle now <$> m.
Proof using Hrange.
  unfold settleAccepted.
  assert (Hgen : forall (l : list (CircuitKey * InvoiceHTLC.t))
                          (acc : gmap CircuitKey InvoiceHTLC.t),
    NoDup l.*1 ->
    (forall k v, (k, v) ∈ l -> acc !! k = Some v) ->
    forall k,
      foldl (fun acc kv =>
               if negb (InvoiceHTLC.State (snd kv) =? HtlcStateAccepted)
               then acc
               else <[fst kv := resolve (snd kv) HtlcStateSettled now]> acc)
            acc l !! k
      = if decide (k ∈ l.*1) then settle now <$> acc !! k else acc !! k).
  { induction l as [|[k0 v0] l IH]; intros acc Hnd Hacc k.
    - cbn [foldl]. case_decide as Hin; [|reflexivity].
      simpl in Hin. inversion Hin.
    - simpl in Hnd. apply NoDup_cons in Hnd as [Hk0 Hnd].
      cbn [foldl fst snd]. rewrite IH; [| assumption |].
      + destruct (decide (k = k0)) as [->|Hne].
        * destruct (decide (k0 ∈ l.*1)); [contradiction|].
          destruct (decide (k0 ∈ ((k0, v0) :: l).*1)) as [_|Hn];
            [|exfalso; apply Hn; simpl; left].
          rewrite (Hacc k0 v0) by left. unfold settle. simpl.
          destruct (InvoiceHTLC.State v0 =? HtlcStateAccepted); simpl.
          -- apply lookup_insert_eq.
          -- apply Hacc. left.
        * assert (Hl : (if negb (InvoiceHTLC.State v0 =? HtlcStateAccepted)
                        then acc
                        else <[k0 := resolve v0 HtlcStateSettled now]> acc)
                       !! k = acc !! k).
          { destruct (negb _); [reflexivity|].
            apply lookup_insert_ne. congruence. }
          rewrite Hl.
          destruct (decide (k ∈ l.*1)) as [Hin|Hnin];
            destruct (decide (k ∈ ((k0, v0) :: l).*1)) as [Hin'|Hnin'];
            try reflexivity.
          -- exfalso. apply Hnin'. simpl. right. exact Hin.
          -- exfalso. simpl in Hin'. apply elem_of_cons in Hin' as [?|?];
               [congruence | contradiction].
      + intros k' v' Hin.
        assert (Hne : k' <> k0).
        { intros ->. apply Hk0. apply list_elem_of_fmap.
          exists (k0, v'). split; [reflexivity | assumption]. }
        destruct (negb _).
        * apply Hacc. right. exact Hin.
        * rewrite lookup_insert_ne by congruence. apply Hacc. right. exact Hin. }
  apply map_eq. intros k.
  rewrite Hgen.
  - rewrite lookup_fmap. case_decide as Hnin; [reflexivity|].
    rewrite (range_keys rt Hrange) in Hnin.
    apply eq_None_not_Some in Hnin. rewrite Hnin. reflexivity.
  - apply range_NoDup. assumption.
  - intros k' v'. apply range_elem. assumption.
Qed.

End CallbackFacts.

(** ** UpdateInvoice *)

Lemma sample_runtime_sound : channeldb.range_sound channeldb.sample_runtime.
Proof. intros V m. reflexivity. Qed.

Section UpdateInvoiceFacts.
Import channeldb dbview.

Variable rt : runtime.
Hypothesis Hrange : range_sound rt.

(** A successful lookup names the bucket, the index and the record read. *)
Lemma LookupInvoice_Ok hash d stored :
  LookupInvoice rt hash d = Ok stored ->
  exists invoices idx num,
    d = Some invoices /\ invoiceIndex invoices = Some idx /\
    bolt.Get hash idx = Some num /\
    fetchInvoice rt num (records invoices) = Ok stored.
Proof.
  unfold LookupInvoice, View.
  destruct d as [invoices|]; [|discriminate].
  destruct (invoiceIndex invoices) as [idx|] eqn:Ei; [|discriminate].
  destruct (bolt.Get hash idx) as [num|] eqn:Eg; [|discriminate].
  intros Hf. eauto 8.
Qed.

(** [UpdateInvoice] on a stored invoice is [updateInvoice] inside a
    transaction. *)
Lemma UpdateInvoice_unfold now hash cb invoices idx num :
  invoiceIndex invoices = Some idx ->
  bolt.Get hash idx = Some num ->
  UpdateInvoice rt now hash cb (Some invoices) =
  match updateInvoice rt now hash (records invoices)
          (bolt.CreateBucketIfNotExists (settleIndex invoices)) num cb with
  | Ok (recs, si, updated) =>
      (Some {| records := recs; invoiceIndex := Some idx;
               addIndex := addIndex invoices; settleIndex := Some si |},
       Ok updated)
  | Err e => (Some invoices, Err e)
  end.
Proof.
  intros Hi Hg. unfold UpdateInvoice, Update. simpl. rewrite Hi. simpl.
  rewrite Hg.
  destruct (updateInvoice _ _ _ _ _ _ _) as [[[recs si] updated]|e];
    reflexivity.
Qed.


Lemma frame_Terms i j : frame i = frame j -> Invoice.Terms i = Invoice.Terms j.
Proof. intros H. apply (f_equal Invoice.Terms) in H. exact H. Qed.


End UpdateInvoiceFacts.

(** ** Amounts *)

Section PaidFacts.
Import channeldb dbview.

Lemma sumZ_app l1 l2 : sumZ (l1 ++ l2) = sumZ l1 + sumZ l2.
Proof. unfold sumZ. induction l1 as [|x l1 IH]; simpl; lia. Qed.

Lemma sumZ_Permutation l1 l2 : l1 ≡ₚ l2 -> sumZ l1 = sumZ l2.
Proof.
  unfold sumZ. induction 1; simpl; lia.
Qed.

Lemma wrap64_add_l a b : wrap64 (wrap64 a + b) = wrap64 (a + b).
Proof. unfold wrap64, wrap. apply Z.add_mod_idemp_l. lia. Qed.

Lemma wrap64_range a : 0 <= wrap64 a < 2 ^ 64.
Proof. unfold wrap64, wrap. apply Z.mod_pos_bound. lia. Qed.

Lemma wrap64_small a : 0 <= a < 2 ^ 64 -> wrap64 a = a.
Proof. unfold wrap64, wrap. apply Z.mod_small. Qed.

Variable pre : ContractState.
Variable now : time.Time.




End PaidFacts.

(** ** What a successful update leaves *)

Section UpdateOk.
Import channeldb dbview.

Variable rt : runtime.
Hypothesis Hrange : range_sound rt.







End UpdateOk.

(** ** Codecs of the libraries: reading back what was written *)

Lemma to_int32_wrap32 a : - 2 ^ 31 <= a < 2 ^ 31 -> to_int32 (wrap32 a) = a.
Proof.
  unfold to_int32, wrap32, wrap. intros Ha.
  rewrite Z.mod_mod by lia.
  destruct (Z_lt_le_dec a 0) as [Hneg|Hpos].
  - rewrite <- (Z.mod_add a 1 (2 ^ 32)) by lia.
    rewrite Z.mod_small by lia.
    destruct (Z.ltb_spec (a + 1 * 2 ^ 32) (2 ^ 31)); lia.
  - rewrite Z.mod_small by lia.
    destruct (Z.ltb_spec a (2 ^ 31)); lia.
Qed.

Lemma to_int16_wrap16 a : - 2 ^ 15 <= a < 2 ^ 15 -> to_int16 (wrap16 a) = a.
Proof.
  unfold to_int16, wrap16, wrap. intros Ha.
  rewrite Z.mod_mod by lia.
  destruct (Z_lt_le_dec a 0) as [Hneg|Hpos].
  - rewrite <- (Z.mod_add a 1 (2 ^ 16)) by lia.
    rewrite Z.mod_small by lia.
    destruct (Z.ltb_spec (a + 1 * 2 ^ 16) (2 ^ 15)); lia.
  - rewrite Z.mod_small by lia.
    destruct (Z.ltb_spec a (2 ^ 15)); lia.
Qed.

Lemma to_int64_range u : is_int64 (to_int64 u).
Proof.
  unfold to_int64, is_int64. pose proof (wrap64_range u).
  destruct (Z.ltb_spec (wrap64 u) (2 ^ 63)); lia.
Qed.

Lemma to_int64_idem u : to_int64 (wrap64 (to_int64 u)) = to_int64 u.
Proof. apply to_int64_wrap64, to_int64_range. Qed.

Lemma le_value_le_bytes n v : le_value (le_bytes n v) = v mod 256 ^ Z.of_nat n.
Proof.
  unfold le_value, le_bytes. rewrite rev_involutive. apply be_value_be_bytes.
Qed.

Lemma length_le_bytes n v : length (le_bytes n v) = n.
Proof. unfold le_bytes. rewrite length_rev. apply length_be_bytes. Qed.

Lemma read_le_le_bytes n v rest :
  0 <= v < 256 ^ Z.of_nat n ->
  wire.read_le n (le_bytes n v ++ rest) = Ok (v, rest).
Proof.
  intros Hv. unfold wire.read_le.
  rewrite ReadFull_app by apply length_le_bytes. cbn [bind].
  rewrite le_value_le_bytes, Z.mod_small by assumption. reflexivity.
Qed.

Lemma read_le_byte v rest :
  0 <= v < 256 -> wire.read_le 1 ([byte_of_Z v] ++ rest) = Ok (v, rest).
Proof.
  intros Hv. unfold wire.read_le, ReadFull. simpl.
  unfold le_value, be_value. simpl. rewrite Z_of_byte_of_Z, Z.mod_small by lia.
  reflexivity.
Qed.

(** A variable-length integer of [wire] reads back. *)
Lemma wire_ReadVarInt_WriteVarInt v rest :
  0 <= v < 2 ^ 64 ->
  wire.ReadVarInt (wire.WriteVarInt v ++ rest) = Ok (v, rest).
Proof.
  intros Hv. unfold wire.WriteVarInt, wire.ReadVarInt.
  destruct (Z.ltb_spec v 253) as [H1|H1].
  - rewrite read_le_byte by lia. cbn [bind].
    destruct (Z.eqb_spec v 255); [lia|].
    destruct (Z.eqb_spec v 254); [lia|].
    destruct (Z.eqb_spec v 253); [lia|]. reflexivity.
  - destruct (Z.leb_spec v 65535) as [H2|H2].
    + change (xfd :: le_bytes 2 v) with ([byte_of_Z 253] ++ le_bytes 2 v).
      rewrite <- app_assoc.
      rewrite read_le_byte by lia. cbn [bind]. simpl Z.eqb. cbv iota.
      rewrite read_le_le_bytes by (change (256 ^ Z.of_nat 2) with 65536; lia).
      cbn [bind]. destruct (Z.ltb_spec v 253); [lia | reflexivity].
    + destruct (Z.leb_spec v 4294967295) as [H3|H3].
      * change (xfe :: le_bytes 4 v) with ([byte_of_Z 254] ++ le_bytes 4 v).
        rewrite <- app_assoc.
        rewrite read_le_byte by lia. cbn [bind]. simpl Z.eqb. cbv iota.
        rewrite read_le_le_bytes
          by (change (256 ^ Z.of_nat 4) with 4294967296; lia).
        cbn [bind]. destruct (Z.ltb_spec v 65536); [lia | reflexivity].
      * change (xff :: le_bytes 8 v) with ([byte_of_Z 255] ++ le_bytes 8 v).
        rewrite <- app_assoc.
        rewrite read_le_byte by lia. cbn [bind]. simpl Z.eqb. cbv iota.
        rewrite read_le_le_bytes
          by (change (256 ^ Z.of_nat 8) with (2 ^ 64); lia).
        cbn [bind]. destruct (Z.ltb_spec v 4294967296); [lia | reflexivity].
Qed.

(** A byte string written by [WriteVarBytes] reads back when it is within
    the limit of the reader, and is refused when it is not. *)
Lemma ReadVarBytes_WriteVarBytes maxAllowed bs rest :
  Z.of_nat (length bs) < 2 ^ 64 ->
  wire.ReadVarBytes maxAllowed (wire.WriteVarBytes bs ++ rest) =
  if maxAllowed <? Z.of_nat (length bs) then Err ErrVarBytesTooBig
  else Ok (bs, rest).
Proof.
  intros Hl. unfold wire.ReadVarBytes, wire.WriteVarBytes.
  rewrite <- app_assoc, wire_ReadVarInt_WriteVarInt by lia. cbn [bind].
  destruct (maxAllowed <? Z.of_nat (length bs)); [reflexivity|].
  rewrite Nat2Z.id. apply ReadFull_app. reflexivity.
Qed.

(** ** Dates *)

Section DateFacts.
Import channeldb dbview.

Variable localOffset : Z -> Z.

Lemma MarshalBinary_length t bs :
  time.MarshalBinary localOffset t = Ok bs -> length bs = 15%nat.
Proof.
  unfold time.MarshalBinary. intros H.
  destruct (match time.loc t with time.UTC => _ | _ => _ end) as [o|];
    [|discriminate].
  cbn [bind] in H. injection H as <-.
  simpl. rewrite ?length_app, ?length_be_bytes. reflexivity.
Qed.

Lemma be_value_be_bytes_8 v : be_value (be_bytes 8 v) = wrap64 v.
Proof. rewrite be_value_be_bytes. reflexivity. Qed.

Lemma be_value_be_bytes_4 v : be_value (be_bytes 4 v) = wrap32 v.
Proof. rewrite be_value_be_bytes. reflexivity. Qed.

Lemma be_value_be_bytes_2 v : be_value (be_bytes 2 v) = wrap16 v.
Proof. rewrite be_value_be_bytes. reflexivity. Qed.

Lemma be_value_be_bytes_1 v : be_value (be_bytes 1 v) = wrap8 v.
Proof. rewrite be_value_be_bytes. reflexivity. Qed.

Lemma offsetMin_Ok off o :
  (if negb (Z.rem off 60 =? 0) then Err ErrTimeMarshal
   else
     let offset := Z.quot off 60 in
     if (offset <? -32768) || (offset =? -1) || (32767 <? offset)
     then Err ErrTimeMarshal
     else Ok offset) = Ok o ->
  o * 60 = off /\ - 2 ^ 15 <= o < 2 ^ 15 /\ o <> -1.
Proof.
  destruct (Z.eqb_spec (Z.rem off 60) 0) as [Hr|]; [|discriminate].
  cbn [negb]. cbv zeta.
  destruct (Z.ltb_spec (Z.quot off 60) (-32768)); [discriminate|].
  destruct (Z.eqb_spec (Z.quot off 60) (-1)); [discriminate|].
  destruct (Z.ltb_spec 32767 (Z.quot off 60)); [discriminate|].
  cbn [orb]. intros [= <-].
  pose proof (Z.quot_rem' off 60). lia.
Qed.

(** A date that can be marshalled unmarshals to the same instant, in the
    location [normDate] gives. *)
Lemma UnmarshalBinary_MarshalBinary t bs :
  wf_date t ->
  time.MarshalBinary localOffset t = Ok bs ->
  time.UnmarshalBinary localOffset bs = Ok (normDate localOffset t).
Proof.
  intros [Hs Hn] Hm. unfold time.MarshalBinary in Hm.
  assert (Hoff : exists o,
    Hm = Hm /\
    bs = x01 :: be_bytes 8 (time.sec t) ++ be_bytes 4 (time.nsec t)
             ++ be_bytes 2 o /\
    - 2 ^ 15 <= o < 2 ^ 15 /\
    (if o * 60 =? -1 * 60 then time.UTC
     else if o * 60 =? localOffset (time.sec t - time.unixToInternal)
          then time.Local else time.FixedZone (o * 60))
    = time.loc (normDate localOffset t)).
  { unfold normDate. cbn [time.loc].
    destruct (time.loc t) as [| |fo] eqn:El.
    - cbn [bind] in Hm. injection Hm as <-. exists (-1).
      repeat split; try reflexivity; lia.
    - match type of Hm with bind ?c _ = _ => destruct c as [o|] eqn:Eo end;
        [|discriminate].
      cbn [bind] in Hm. injection Hm as <-.
      apply offsetMin_Ok in Eo as (Hq & Ho & Hne).
      exists o. repeat split; try reflexivity; try lia.
      rewrite Hq. destruct (Z.eqb_spec (time.zoneOffset localOffset t)
                              (-1 * 60)); [lia|].
      reflexivity.
    - match type of Hm with bind ?c _ = _ => destruct c as [o|] eqn:Eo end;
        [|discriminate].
      cbn [bind] in Hm. injection Hm as <-.
      apply offsetMin_Ok in Eo as (Hq & Ho & Hne).
      exists o. repeat split; try reflexivity; try lia.
      rewrite Hq. destruct (Z.eqb_spec (time.zoneOffset localOffset t)
                              (-1 * 60)); [lia|].
      reflexivity. }
  destruct Hoff as (o & _ & -> & Ho & Hloc).
  unfold time.UnmarshalBinary.
  change (Byte.eqb x01 x01) with true. cbn [negb].
  assert (Hlen : length (x01 :: be_bytes 8 (time.sec t)
                           ++ be_bytes 4 (time.nsec t) ++ be_bytes 2 o)
                 = 15%nat)
    by (simpl; rewrite ?length_app, ?length_be_bytes; reflexivity).
  rewrite Hlen. cbn [Nat.eqb negb].
  rewrite (take_app_length' (be_bytes 8 (time.sec t)))
    by (rewrite length_be_bytes; reflexivity).
  replace (skipn 12 (be_bytes 8 (time.sec t) ++ be_bytes 4 (time.nsec t)
                       ++ be_bytes 2 o)) with (be_bytes 2 o).
  2:{ rewrite app_assoc. symmetry. apply drop_app_length'.
      rewrite length_app, !length_be_bytes. reflexivity. }
  rewrite (drop_app_length' (be_bytes 8 (time.sec t)))
    by (rewrite length_be_bytes; reflexivity).
  rewrite (take_app_length' (be_bytes 4 (time.nsec t)))
    by (rewrite length_be_bytes; reflexivity).
  rewrite be_value_be_bytes_8, be_value_be_bytes_4, be_value_be_bytes_2.
  rewrite to_int64_wrap64, to_int32_wrap32, to_int16_wrap16 by assumption.
  rewrite Hloc. unfold normDate. reflexivity.
Qed.

End DateFacts.

(** ** tlv streams *)

Section TlvFacts.
Import channeldb dbview.

Lemma read_uint_byte v rest :
  0 <= v < 256 -> read_uint 1 ([byte_of_Z v] ++ rest) = Ok (v, rest).
Proof.
  intros Hv. unfold read_uint. rewrite ReadFull_app by reflexivity.
  cbn [bind]. unfold be_value. simpl.
  rewrite Z_of_byte_of_Z, Z.mod_small by lia. reflexivity.
Qed.

Lemma tlv_ReadVarInt_small v rest :
  0 <= v < 253 ->
  tlv.ReadVarInt (tlv.WriteVarInt v ++ rest) = Ok (v, rest).
Proof.
  intros Hv. unfold tlv.WriteVarInt, tlv.ReadVarInt.
  destruct (Z.ltb_spec v 253); [|lia].
  rewrite read_uint_byte by lia. cbn [bind].
  destruct (Z.eqb_spec v 255); [lia|].
  destruct (Z.eqb_spec v 254); [lia|].
  destruct (Z.eqb_spec v 253); [lia|]. reflexivity.
Qed.

Lemma tlv_WriteVarInt_length v : 0 <= v < 253 -> length (tlv.WriteVarInt v) = 1%nat.
Proof.
  intros Hv. unfold tlv.WriteVarInt. destruct (Z.ltb_spec v 253); [reflexivity|lia].
Qed.

(** The scan reads an accepted stream back record for record. *)
Lemma scan_Encode known rs : forall fuel min,
  0 <= min ->
  stream_ok known min rs ->
  (length rs <= fuel)%nat ->
  tlv.scan fuel known min (tlv.Encode rs) = Ok rs.
Proof.
  induction rs as [|[typ value] rs IH]; intros fuel min Hmin Hok Hfuel.
  - destruct fuel; reflexivity.
  - destruct fuel as [|fuel]; [simpl in Hfuel; lia|].
    destruct Hok as (Ht & Hfind & Hlen & Hrest).
    cbn [tlv.Encode tlv.scan].
    rewrite tlv_ReadVarInt_small by lia.
    destruct (Z.ltb_spec typ min); [lia|].
    rewrite tlv_ReadVarInt_small by lia.
    unfold tlv.MaxRecordSize.
    destruct (Z.ltb_spec 65535 (Z.of_nat (length value))); [lia|].
    rewrite Hfind. rewrite Z.eqb_refl. cbn [negb].
    rewrite ReadFull_app by reflexivity.
    rewrite (IH fuel (typ + 1)) by (try assumption; simpl in Hfuel; lia).
    reflexivity.
Qed.

Lemma length_Encode_ge rs min known :
  0 <= min ->
  stream_ok known min rs -> (length rs <= length (tlv.Encode rs))%nat.
Proof.
  revert min. induction rs as [|[typ value] rs IH]; intros min Hmin Hok.
  - simpl. lia.
  - destruct Hok as (Ht & _ & _ & Hrest). cbn [tlv.Encode length].
    rewrite !length_app, tlv_WriteVarInt_length by lia.
    specialize (IH (typ + 1) ltac:(lia) Hrest). lia.
Qed.

Lemma Decode_Encode known rs :
  stream_ok known 0 rs -> tlv.Decode known (tlv.Encode rs) = Ok rs.
Proof.
  intros Hok. unfold tlv.Decode. apply (scan_Encode known rs _ 0).
  - lia.
  - exact Hok.
  - apply (length_Encode_ge rs 0 known); [lia | exact Hok].
Qed.

Lemma htlcRecords_ok k h : stream_ok htlcFields 0 (htlcRecords k h).
Proof.
  unfold htlcRecords, tlv.MakePrimitiveRecord.
  cbn [stream_ok]. rewrite !length_be_bytes.
  unfold chanIDType, htlcIDType, amtType, acceptHeightType, acceptTimeType,
    resolveTimeType, expiryHeightType, stateType.
  repeat split; try lia; reflexivity.
Qed.

(** ** Short channel ids *)

Lemma lor_disjoint hi lo n :
  0 <= n -> 0 <= lo < 2 ^ n -> Z.lor (hi * 2 ^ n) lo = hi * 2 ^ n + lo.
Proof.
  intros Hn Hlo.
  assert (Hland : Z.land (hi * 2 ^ n) lo = 0).
  { apply Z.bits_inj'. intros m Hm. rewrite Z.land_spec, Z.bits_0.
    destruct (Z_lt_le_dec m n) as [Hlt|Hge].
    - rewrite Z.mul_pow2_bits_low by lia. reflexivity.
    - destruct (Z.eq_dec lo 0) as [->|Hne].
      + rewrite Z.bits_0. apply andb_false_r.
      + assert (Hlog : Z.log2 lo < n) by (apply Z.log2_lt_pow2; lia).
        rewrite (Z.bits_above_log2 lo m) by lia.
        apply andb_false_r. }
  rewrite <- Z.lxor_lor by exact Hland.
  symmetry. apply Z.add_nocarry_lxor. exact Hland.
Qed.

Lemma ToUint64_value c :
  is_uint 24 (BlockHeight c) -> is_uint 24 (TxIndex c) ->
  is_uint 16 (TxPosition c) ->
  ToUint64 c = BlockHeight c * 2 ^ 40 + TxIndex c * 2 ^ 16 + TxPosition c.
Proof.
  unfold is_uint, ToUint64. intros Hb Ht Hp.
  rewrite !Z.shiftl_mul_pow2 by lia.
  rewrite wrap64_small by lia.
  assert (H1 : Z.lor (BlockHeight c * 2 ^ 40) (TxIndex c * 2 ^ 16)
               = BlockHeight c * 2 ^ 40 + TxIndex c * 2 ^ 16)
    by (apply lor_disjoint; lia).
  rewrite H1.
  replace (BlockHeight c * 2 ^ 40 + TxIndex c * 2 ^ 16)
    with ((BlockHeight c * 2 ^ 24 + TxIndex c) * 2 ^ 16) by lia.
  apply lor_disjoint; lia.
Qed.

(** A short channel id that fits its compact form comes back from it. *)
Lemma NewShortChanIDFromInt_ToUint64 c :
  is_uint 24 (BlockHeight c) -> is_uint 24 (TxIndex c) ->
  is_uint 16 (TxPosition c) ->
  NewShortChanIDFromInt (ToUint64 c) = c /\ is_uint 64 (ToUint64 c).
Proof.
  intros Hb Ht Hp. rewrite ToUint64_value by assumption.
  unfold is_uint in *.
  set (b := BlockHeight c) in *. set (t := TxIndex c) in *.
  set (p := TxPosition c) in *.
  split; [|lia].
  unfold NewShortChanIDFromInt.
  rewrite !Z.shiftr_div_pow2 by lia.
  change 16777215 with (Z.ones 24). rewrite Z.land_ones by lia.
  unfold wrap32, wrap16, wrap.
  assert (E1 : (b * 2 ^ 40 + t * 2 ^ 16 + p) / 2 ^ 40 = b).
  { replace (b * 2 ^ 40 + t * 2 ^ 16 + p)
      with ((t * 2 ^ 16 + p) + b * 2 ^ 40) by lia.
    rewrite Z.div_add by lia. rewrite Z.div_small by lia. lia. }
  assert (E2 : (b * 2 ^ 40 + t * 2 ^ 16 + p) / 2 ^ 16 = b * 2 ^ 24 + t).
  { replace (b * 2 ^ 40 + t * 2 ^ 16 + p)
      with (p + (b * 2 ^ 24 + t) * 2 ^ 16) by lia.
    rewrite Z.div_add by lia. rewrite Z.div_small by lia. lia. }
  assert (E3 : (b * 2 ^ 40 + t * 2 ^ 16 + p) mod 2 ^ 16 = p).
  { replace (b * 2 ^ 40 + t * 2 ^ 16 + p)
      with (p + (b * 2 ^ 24 + t) * 2 ^ 16) by lia.
    rewrite Z.mod_add by lia. apply Z.mod_small. lia. }
  assert (E4 : ((b * 2 ^ 24 + t) mod 2 ^ 32) mod 2 ^ 24 = t).
  { rewrite (Z.mod_eq (b * 2 ^ 24 + t) (2 ^ 32)) by lia.
    set (q := (b * 2 ^ 24 + t) / 2 ^ 32).
    replace (b * 2 ^ 24 + t - 2 ^ 32 * q)
      with (t + (b - 2 ^ 8 * q) * 2 ^ 24) by lia.
    rewrite Z.mod_add by lia. apply Z.mod_small. lia. }
  rewrite E1, E2, E3, E4.
  rewrite (Z.mod_small b) by lia.
  subst b t p. destruct c; reflexivity.
Qed.

End TlvFacts.

(** ** Htlcs through the store *)

Section HtlcRoundTrip.
Import channeldb dbview.

Lemma wrap_idem bits z : 0 <= bits -> wrap bits (wrap bits z) = wrap bits z.
Proof.
  intros Hb. unfold wrap. apply Z.mod_mod.
  apply Z.pow_nonzero; lia.
Qed.

Lemma wrap_small bits z : is_uint bits z -> wrap bits z = z.
Proof. unfold is_uint, wrap. apply Z.mod_small. Qed.

Lemma tlv_field_here typ value rest :
  tlv.field typ ((typ, value) :: rest) = be_value value.
Proof. unfold tlv.field. simpl. rewrite Z.eqb_refl. reflexivity. Qed.

Lemma tlv_field_next typ typ' value rest :
  typ' <> typ -> tlv.field typ ((typ', value) :: rest) = tlv.field typ rest.
Proof.
  intros Hne. unfold tlv.field. simpl.
  destruct (Z.eqb_spec typ' typ); [contradiction | reflexivity].
Qed.

(** The htlc a stream of htlc records decodes to. *)
Lemma decodeHtlc_htlcRecords k h :
  wf_key k -> wf_htlc h ->
  decodeHtlc (htlcRecords k h) = (k, normHtlc h).
Proof.
  intros (Hb & Ht & Hp & Hid) (Ha & Hh & He & Hs).
  destruct (NewShortChanIDFromInt_ToUint64 (ChanID k) Hb Ht Hp) as [Hc Hcu].
  unfold decodeHtlc, htlcRecords, tlv.MakePrimitiveRecord.
  unfold chanIDType, htlcIDType, amtType, acceptHeightType, acceptTimeType,
    resolveTimeType, expiryHeightType, stateType.
  repeat (rewrite ?tlv_field_here; rewrite ?tlv_field_next by lia).
  rewrite !be_value_be_bytes_8, !be_value_be_bytes_4, be_value_be_bytes_1.
  unfold wrap64, wrap32, wrap8.
  rewrite !wrap_idem by lia.
  rewrite (wrap_small 64 (ToUint64 (ChanID k))) by assumption.
  rewrite (wrap_small 64 (HtlcID k)) by assumption.
  rewrite (wrap_small 64 (InvoiceHTLC.Amt h)) by assumption.
  rewrite (wrap_small 32 (InvoiceHTLC.AcceptHeight h)) by assumption.
  rewrite (wrap_small 32 (InvoiceHTLC.Expiry h)) by assumption.
  rewrite (wrap_small 8 (InvoiceHTLC.State h)) by assumption.
  rewrite Hc.
  fold wrap64. unfold time.UnixNano. rewrite !to_int64_idem.
  unfold normHtlc, normTime, time.UnixNano.
  destruct k; reflexivity.
Qed.

Lemma Read_app bs rest :
  bs <> [] -> Read (length bs) (bs ++ rest) = Ok (bs, rest).
Proof.
  intros Hne. unfold Read.
  destruct (bs ++ rest) as [|x l] eqn:E.
  - apply app_eq_nil in E as [-> _]. contradiction.
  - rewrite <- E. rewrite take_app_length, drop_app_length.
    rewrite length_app.
    replace (length bs - (length bs + length rest))%nat with 0%nat by lia.
    simpl. rewrite app_nil_r. reflexivity.
Qed.

Lemma length_htlc_stream k h :
  length (tlv.Encode (htlcRecords k h)) = 65%nat.
Proof.
  unfold htlcRecords, tlv.MakePrimitiveRecord. cbv zeta. cbn [tlv.Encode].
  rewrite !length_app, !length_be_bytes.
  unfold chanIDType, htlcIDType, amtType, acceptHeightType, acceptTimeType,
    resolveTimeType, expiryHeightType, stateType.
  reflexivity.
Qed.

(** The map the loop of [deserializeHtlcs] builds from serialized entries. *)
Lemma deserializeHtlcsFrom_serializeHtlcs l : forall fuel acc,
  Forall (fun kh => wf_key (fst kh) /\ wf_htlc (snd kh)) l ->
  (length l <= fuel)%nat ->
  deserializeHtlcsFrom fuel acc (serializeHtlcs l)
  = Ok (foldl (fun m kh => <[fst kh := normHtlc (snd kh)]> m) acc l).
Proof.
  induction l as [|[k h] l IH]; intros fuel acc Hwf Hfuel.
  - destruct fuel; reflexivity.
  - destruct fuel as [|fuel]; [simpl in Hfuel; lia|].
    apply Forall_cons in Hwf as [[Hk Hh] Hwf]. simpl in Hk, Hh.
    cbn [serializeHtlcs deserializeHtlcsFrom].
    rewrite read_uint_small
      by (rewrite length_htlc_stream; change (256 ^ Z.of_nat 8) with (2 ^ 64);
          lia).
    rewrite Nat2Z.id.
    rewrite Read_app
      by (intros E; apply (f_equal length) in E;
          rewrite length_htlc_stream in E; discriminate).
    cbn [bind].
    rewrite Decode_Encode by apply htlcRecords_ok.
    cbn [bind]. rewrite decodeHtlc_htlcRecords by assumption.
    rewrite IH by (try assumption; simpl in Hfuel; lia).
    reflexivity.
Qed.

Lemma length_serializeHtlcs l : (length l <= length (serializeHtlcs l))%nat.
Proof.
  induction l as [|[k h] l IH]; cbn [serializeHtlcs length]; [lia|].
  rewrite !length_app, length_htlc_stream. lia.
Qed.

Lemma foldl_insert_lookup {A B} (f : A -> B)
    (l : list (CircuitKey * A)) : forall (acc : gmap CircuitKey B) k,
  NoDup l.*1 ->
  foldl (fun m kh => <[fst kh := f (snd kh)]> m) acc l !! k
  = match list_to_map (M := gmap CircuitKey A) l !! k with
    | Some v => Some (f v)
    | None => acc !! k
    end.
Proof.
  induction l as [|[k0 v0] l IH]; intros acc k Hnd.
  - simpl. rewrite lookup_empty. reflexivity.
  - simpl in Hnd. apply NoDup_cons in Hnd as [Hk0 Hnd].
    cbn [foldl fst snd list_to_map foldr]. rewrite IH by assumption.
    destruct (decide (k = k0)) as [->|Hne].
    + rewrite (not_elem_of_list_to_map_1 l k0) by assumption.
      rewrite !lookup_insert_eq. reflexivity.
    + rewrite (lookup_insert_ne (list_to_map l) k0 k) by congruence.
      destruct (list_to_map l !! k); [reflexivity|].
      apply lookup_insert_ne. congruence.
Qed.

Variable rt : runtime.
Hypothesis Hrange : range_sound rt.

(** The htlcs of an invoice come back from the store with their times in
    the form [time.Unix] gives them. *)
Lemma deserializeHtlcs_serializeHtlcs (m : gmap CircuitKey InvoiceHTLC.t) :
  wf_htlcs m ->
  deserializeHtlcs (serializeHtlcs (range rt m)) = Ok (normHtlc <$> m).
Proof using Hrange.
  intros Hwf. unfold deserializeHtlcs.
  rewrite deserializeHtlcsFrom_serializeHtlcs.
  - f_equal. apply map_eq. intros k.
    rewrite foldl_insert_lookup by (apply range_NoDup; assumption).
    rewrite lookup_fmap, lookup_empty.
    destruct (m !! k) as [v|] eqn:E.
    + apply (range_elem rt Hrange) in E.
      apply elem_of_list_to_map in E; [|apply range_NoDup; assumption].
      rewrite E. reflexivity.
    + rewrite (not_elem_of_list_to_map_1 (range rt m) k); [reflexivity|].
      rewrite (range_keys rt Hrange). rewrite E. intros [? ?]; discriminate.
  - apply Forall_forall. intros [k h] Hin.
    apply (range_elem rt Hrange) in Hin. apply (Hwf _ _ Hin).
  - apply length_serializeHtlcs.
Qed.

End HtlcRoundTrip.

(** ** Invoices through the store *)

Section InvoiceRoundTrip.
Import channeldb dbview.

Variable rt : runtime.
Hypothesis Hrange : range_sound rt.

#[local] Opaque be_bytes.

Lemma ReadVarBytes_within maxAllowed bs rest :
  Z.of_nat (length bs) <= maxAllowed -> maxAllowed < 2 ^ 64 ->
  wire.ReadVarBytes maxAllowed (wire.WriteVarBytes bs ++ rest) = Ok (bs, rest).
Proof.
  intros Hl Hm. rewrite ReadVarBytes_WriteVarBytes by lia.
  destruct (Z.ltb_spec maxAllowed (Z.of_nat (length bs))); [lia|reflexivity].
Qed.

(** The round trip of an invoice: serialized and deserialized, an invoice
    of well-formed fields comes back with every field as it was, but for the
    times: the locations of the two dates and the htlc times are the ones
    [normInvoice] gives. *)
Theorem deserializeInvoice_serializeInvoice (i : Invoice.t) bytes :
  wf_invoice i ->
  serializeInvoice rt i = Ok bytes ->
  deserializeInvoice rt bytes = Ok (normInvoice rt i).
Proof using Hrange.
  intros Hwf Hser. destruct Hwf.
  unfold serializeInvoice in Hser.
  destruct (time.MarshalBinary (localOffset rt) (Invoice.CreationDate i))
    as [birth|] eqn:Eb; [|discriminate].
  destruct (time.MarshalBinary (localOffset rt) (Invoice.SettleDate i))
    as [settled|] eqn:Es; [|discriminate].
  cbn [bind] in Hser. injection Hser as <-.
  pose proof (MarshalBinary_length _ _ _ Eb) as Hlb.
  pose proof (MarshalBinary_length _ _ _ Es) as Hls.
  unfold deserializeInvoice.
  unfold MaxMemoSize, MaxReceiptSize, MaxPaymentRequestSize in *.
  rewrite <- ?app_assoc.
  rewrite ReadVarBytes_within by lia. cbn [bind].
  rewrite ReadVarBytes_within by lia. cbn [bind].
  rewrite ReadVarBytes_within by lia. cbn [bind].
  rewrite read_uint_be_bytes. cbn [bind].
  rewrite read_uint_be_bytes. cbn [bind].
  rewrite ReadVarBytes_within by lia. cbn [bind].
  rewrite (UnmarshalBinary_MarshalBinary _ _ _ wf_CreationDate0 Eb).
  cbn [bind].
  rewrite ReadVarBytes_within by lia. cbn [bind].
  rewrite (UnmarshalBinary_MarshalBinary _ _ _ wf_SettleDate0 Es).
  cbn [bind].
  rewrite ReadFull_app by assumption. cbn [bind].
  rewrite read_uint_small by exact wf_Value0. cbn [bind].
  rewrite read_uint_small by exact wf_State0. cbn [bind].
  rewrite read_uint_small by exact wf_AddIndex0. cbn [bind].
  rewrite read_uint_small by exact wf_SettleIndex0. cbn [bind].
  rewrite read_uint_small by exact wf_AmtPaid0. cbn [bind].
  rewrite (deserializeHtlcs_serializeHtlcs rt Hrange) by assumption.
  cbn [bind].
  change (256 ^ Z.of_nat 4) with (2 ^ 32).
  change (256 ^ Z.of_nat 8) with (2 ^ 64).
  fold (wrap 32 (Invoice.FinalCltvDelta i)). fold (wrap32 (Invoice.FinalCltvDelta i)).
  fold (wrap 64 (Invoice.Expiry i)). fold (wrap64 (Invoice.Expiry i)).
  rewrite to_int32_wrap32 by assumption.
  rewrite to_int64_wrap64 by assumption.
  unfold normInvoice. destruct i as [? ? ? ? ? ? ? [? ? ?] ? ? ? ?].
  reflexivity.
Qed.

Lemma normDate_exact t :
  exact_date (localOffset rt) t -> normDate (localOffset rt) t = t.
Proof.
  unfold exact_date, normDate, time.zoneOffset, time.unixSec.
  destruct t as [s n [| |o]]; simpl; intros H.
  - reflexivity.
  - rewrite Z.eqb_refl. reflexivity.
  - destruct (Z.eqb_spec o (localOffset rt (s - time.unixToInternal)));
      [contradiction | reflexivity].
Qed.

Lemma to_int64_small a : is_int64 a -> to_int64 a = a.
Proof.
  intros Ha. rewrite <- (to_int64_wrap64 a Ha) at 2.
  unfold to_int64. rewrite (wrap_idem 64) by lia. reflexivity.
Qed.

Lemma normTime_exact t : exact_time t -> normTime t = t.
Proof.
  unfold exact_time, normTime, time.UnixNano, time.Unix.
  destruct t as [s n l]. simpl. unfold time.unixSec. simpl.
  intros (-> & Hn & Hr).
  set (u := s - time.unixToInternal) in *.
  rewrite to_int64_small by (unfold is_int64; lia).
  set (ns := u * 1000000000 + n).
  assert (Hcase :
    (if (ns <? 0) || (1000000000 <=? ns)
     then
       if ns - Z.quot ns 1000000000 * 1000000000 <? 0
       then (0 + Z.quot ns 1000000000 - 1,
             ns - Z.quot ns 1000000000 * 1000000000 + 1000000000)
       else (0 + Z.quot ns 1000000000,
             ns - Z.quot ns 1000000000 * 1000000000)
     else (0, ns)) = (u, n)).
  { destruct (Z.ltb_spec ns 0) as [Hneg|Hpos].
    - cbn [orb].
      assert (Hu : u < 0) by (subst ns; lia).
      pose proof (Z.quot_rem' ns 1000000000) as Hqr.
      pose proof (Z.rem_bound_pos_neg ns 1000000000 ltac:(lia) ltac:(lia))
        as Hrem.
      set (q := Z.quot ns 1000000000) in *.
      set (r := Z.rem ns 1000000000) in *.
      destruct (Z.ltb_spec (ns - q * 1000000000) 0) as [Hlt|Hge].
      + f_equal; subst ns; nia.
      + f_equal; subst ns; nia.
    - cbn [orb].
      destruct (Z.leb_spec 1000000000 ns) as [Hbig|Hsmall].
      + pose proof (Z.quot_rem' ns 1000000000) as Hqr.
        pose proof (Z.rem_bound_pos ns 1000000000 ltac:(lia) ltac:(lia))
          as Hrem.
        set (q := Z.quot ns 1000000000) in *.
        set (r := Z.rem ns 1000000000) in *.
        destruct (Z.ltb_spec (ns - q * 1000000000) 0) as [Hlt|Hge].
        * lia.
        * f_equal; subst ns; nia.
      + assert (u = 0) by (subst ns; nia). f_equal; subst ns; lia. }
  cbv zeta. rewrite Hcase. f_equal. subst u. lia.
Qed.

Lemma normInvoice_exact (i : Invoice.t) :
  exact_times rt i -> normInvoice rt i = i.
Proof.
  intros (Hc & Hs & Hh). unfold normInvoice.
  rewrite (normDate_exact _ Hc), (normDate_exact _ Hs).
  assert (Hm : normHtlc <$> Invoice.Htlcs i = Invoice.Htlcs i).
  { apply map_eq. intros k. rewrite lookup_fmap.
    destruct (Invoice.Htlcs i !! k) as [h|] eqn:E; [|reflexivity].
    destruct (Hh k h E) as [Ha Hr]. simpl. f_equal.
    unfold normHtlc. rewrite (normTime_exact _ Ha), (normTime_exact _ Hr).
    destruct h; reflexivity. }
  rewrite Hm. destruct i; reflexivity.
Qed.

(** C8, as the code has it.  An invoice whose fields hold values of their Go
    types within the size bounds of the store, whose circuit keys fit the
    compact form of a short channel id, whose two dates can be marshalled,
    and whose times come back as themselves (dates in UTC, the local zone or
    a fixed zone of another offset; htlc times local and within the range
    of [UnixNano]) serializes, and deserializing the bytes gives the invoice
    itself. *)
Theorem serializeInvoice_roundtrip (i : Invoice.t) :
  wf_invoice i ->
  marshalable rt i = true ->
  exact_times rt i ->
  exists bytes,
    serializeInvoice rt i = Ok bytes /\
    deserializeInvoice rt bytes = Ok i.
Proof using Hrange.
  intros Hwf Hm Hex.
  assert (Hs : exists bytes, serializeInvoice rt i = Ok bytes).
  { unfold marshalable in Hm. apply andb_true_iff in Hm as [Hc Hs].
    unfold serializeInvoice.
    destruct (time.MarshalBinary _ (Invoice.CreationDate i)); [|discriminate].
    destruct (time.MarshalBinary _ (Invoice.SettleDate i)); [|discriminate].
    cbn [bind]. eauto. }
  destruct Hs as [bytes Hs]. exists bytes. split; [exact Hs|].
  rewrite (deserializeInvoice_serializeInvoice i bytes Hwf Hs).
  rewrite (normInvoice_exact i Hex). reflexivity.
Qed.

End InvoiceRoundTrip.

(** ** The amount paid over a history of the store *)

Section BoltFacts.

Lemma bolt_get_put key value k ps :
  bolt.get k (bolt.put key value ps) =
  if bytes_eqb k key then Some value else bolt.get k ps.
Proof.
  induction ps as [|[k0 v0] ps IH]; simpl.
  - reflexivity.
  - destruct (bytes_compare key k0) eqn:Ec; simpl.
    + apply bytes_compare_eq in Ec. subst k0.
      destruct (bytes_eqb k key); reflexivity.
    + reflexivity.
    + rewrite IH. destruct (bytes_eqb k k0) eqn:E0; [|reflexivity].
      apply bytes_eqb_true in E0. subst k0.
      destruct (bytes_eqb k key) eqn:E1; [|reflexivity].
      apply bytes_eqb_true in E1. subst key.
      assert (He : bytes_compare k k = Eq) by (apply bytes_compare_eq; reflexivity).
      rewrite He in Ec. discriminate.
Qed.

Lemma bolt_Get_Put key value k b :
  bolt.Get k (bolt.Put key value b) =
  if bytes_eqb k key then Some value else bolt.Get k b.
Proof. unfold bolt.Get, bolt.Put. simpl. apply bolt_get_put. Qed.

End BoltFacts.

Section TotalFacts.
Import channeldb dbview.

Variable f : InvoiceHTLC.t -> Z.

Lemma total_insert_None (m : gmap CircuitKey InvoiceHTLC.t) k h :
  m !! k = None -> total f (<[k := h]> m) = f h + total f m.
Proof using Type.
  intros Hk. unfold total.
  rewrite (sumZ_Permutation _ (f <$> ((k, h) :: map_to_list m).*2)).
  - reflexivity.
  - apply fmap_Permutation, fmap_Permutation, map_to_list_insert, Hk.
Qed.

Lemma total_delete (m : gmap CircuitKey InvoiceHTLC.t) k h :
  m !! k = Some h -> total f m = f h + total f (delete k m).
Proof using Type.
  intros Hk. unfold total.
  rewrite (sumZ_Permutation _ (f <$> ((k, h) :: map_to_list (delete k m)).*2)).
  - reflexivity.
  - apply fmap_Permutation, fmap_Permutation. symmetry.
    apply map_to_list_delete, Hk.
Qed.

Lemma total_insert_Some (m : gmap CircuitKey InvoiceHTLC.t) k h0 h :
  m !! k = Some h0 -> total f (<[k := h]> m) = f h + (total f m - f h0).
Proof using Type.
  intros Hk. rewrite <- insert_delete_eq.
  rewrite total_insert_None by apply lookup_delete_eq.
  rewrite (total_delete m k h0 Hk). lia.
Qed.

Lemma total_fmap (g : InvoiceHTLC.t -> InvoiceHTLC.t)
    (m : gmap CircuitKey InvoiceHTLC.t) :
  (forall h, f (g h) = f h) -> total f (g <$> m) = total f m.
Proof using Type.
  intros H. unfold total. rewrite map_to_list_fmap. f_equal.
  rewrite <- !list_fmap_compose. apply list_fmap_ext.
  intros ? [k h] _. simpl. apply H.
Qed.

End TotalFacts.

Section PaidSteps.
Import channeldb dbview.

Variable pre : ContractState.
Variable now : time.Time.

Lemma wrap64_sub_l a b : wrap64 (wrap64 a - b) = wrap64 (a - b).
Proof. unfold wrap64, wrap. apply Zminus_mod_idemp_l. Qed.

Lemma held_newHtlc a : held (newHtlc pre now a) = HtlcAcceptDesc.Amt a.
Proof. unfold held, newHtlc. destruct (pre =? ContractSettled); reflexivity. Qed.

Lemma held_settle h : held (settle now h) = held h.
Proof.
  unfold held, settle.
  destruct (Z.eqb_spec (InvoiceHTLC.State h) HtlcStateAccepted) as [E|E];
    [|reflexivity].
  simpl. rewrite E. reflexivity.
Qed.

Lemma held_normHtlc h : held (normHtlc h) = held h.
Proof. reflexivity. Qed.

(** One round of the loop keeps the amount paid in step with the htlcs. *)
Lemma applyHtlcUpdate_paid_ok inv inv' k u :
  paid_ok inv -> applyHtlcUpdate pre now inv k u = Ok inv' -> paid_ok inv'.
Proof.
  unfold paid_ok, applyHtlcUpdate. intros Hp H.
  destruct u as [a|], (Invoice.Htlcs inv !! k) as [h|] eqn:Ek;
    try discriminate.
  - injection H as <-. simpl.
    rewrite total_insert_None by exact Ek.
    rewrite held_newHtlc, Hp, wrap64_add_l.
    assert (E : InvoiceHTLC.Amt (newHtlc pre now a) = HtlcAcceptDesc.Amt a)
      by (unfold newHtlc; destruct (pre =? ContractSettled); reflexivity).
    rewrite E. f_equal. lia.
  - destruct (Z.eqb_spec (InvoiceHTLC.State h) HtlcStateAccepted) as [E|E];
      [|discriminate].
    simpl in H. injection H as <-. simpl.
    rewrite (total_insert_Some held _ k h) by exact Ek.
    assert (H0 : held (resolve h HtlcStateCanceled now) = 0) by reflexivity.
    assert (H1 : held h = InvoiceHTLC.Amt h)
      by (unfold held; rewrite E; reflexivity).
    rewrite Hp, wrap64_sub_l, H0, H1. reflexivity.
Qed.

Lemma applyHtlcUpdates_paid_ok inv inv' us :
  paid_ok inv -> applyHtlcUpdates pre now inv us = Ok inv' -> paid_ok inv'.
Proof.
  revert inv. induction us as [|[k u] us IH]; intros inv Hp H; simpl in H.
  - injection H as <-. exact Hp.
  - destruct (applyHtlcUpdate pre now inv k u) as [inv1|] eqn:E;
      [|discriminate].
    simpl in H. apply (IH inv1); [|exact H].
    apply (applyHtlcUpdate_paid_ok _ _ _ _ Hp E).
Qed.

End PaidSteps.

Section StoreInvariant.
Import channeldb dbview history.

Variable rt : runtime.
Hypothesis Hrange : range_sound rt.

Lemma wf_normInvoice j : wf_invoice j -> wf_invoice (normInvoice rt j).
Proof using Type.
  intros Hwf. pose proof (wf_Htlcs _ Hwf) as Hh. destruct Hwf.
  split; simpl; try assumption.
  intros k h Hk. rewrite lookup_fmap in Hk.
  destruct (Invoice.Htlcs j !! k) as [h0|] eqn:E; [|discriminate].
  injection Hk as <-. exact (Hh k h0 E).
Qed.

Lemma paid_ok_normInvoice j : paid_ok j -> paid_ok (normInvoice rt j).
Proof using Type.
  unfold paid_ok. simpl. intros ->.
  rewrite total_fmap by (intros; reflexivity). reflexivity.
Qed.

(** What is read from a store in order is in order. *)
Lemma fetchInvoice_stored_ok invoices num i :
  stored_ok rt (Some invoices) ->
  fetchInvoice rt num (records invoices) = Ok i ->
  wf_invoice i /\ paid_ok i.
Proof using Hrange.
  intros Hs. unfold fetchInvoice.
  destruct (bolt.Get num (records invoices)) as [buf|] eqn:Eg; [|discriminate].
  destruct (Hs invoices num buf eq_refl Eg) as (j & Hwf & Hp & Hser).
  rewrite (deserializeInvoice_serializeInvoice rt Hrange j buf Hwf Hser).
  intros [= <-]. split; [apply wf_normInvoice | apply paid_ok_normInvoice];
    assumption.
Qed.

(** Writing one more record that is in order keeps the store in order. *)
Lemma stored_ok_Put invoices num buf j idx ai si :
  stored_ok rt (Some invoices) ->
  wf_invoice j -> paid_ok j -> serializeInvoice rt j = Ok buf ->
  stored_ok rt
    (Some {| records := bolt.Put num buf (records invoices);
             invoiceIndex := idx; addIndex := ai; settleIndex := si |}).
Proof using Type.
  intros Hs Hwf Hp Hser invoices' num' buf' [= <-]. simpl.
  rewrite bolt_Get_Put. destruct (bytes_eqb num' num).
  - intros [= <-]. eauto.
  - intros Hg. apply (Hs invoices num' buf' eq_refl Hg).
Qed.

Lemma stored_ok_empty : stored_ok rt (Some emptyInvoiceBucket).
Proof using Type.
  intros invoices num buf [= <-]. discriminate.
Qed.

Lemma stored_ok_default d :
  stored_ok rt d -> stored_ok rt (Some (default emptyInvoiceBucket d)).
Proof using Type.
  destruct d as [invoices|]; [trivial|]. intros _. apply stored_ok_empty.
Qed.

Lemma wf_invoice_with_AddIndex i n :
  wf_invoice i -> wf_invoice (Invoice.with_AddIndex i (wrap64 n)).
Proof using Type.
  intros []. split; simpl; try assumption. apply wrap64_range.
Qed.

(** [AddInvoice] keeps the store in order. *)
Lemma AddInvoice_stored_ok i hash d d' n :
  stored_ok rt d -> wf_invoice i -> paid_ok i ->
  AddInvoice rt i hash d = (d', Ok n) -> stored_ok rt d'.
Proof using Type.
  intros Hs Hwf Hp. apply stored_ok_default in Hs.
  unfold AddInvoice. destruct (validateInvoice i); [|discriminate].
  unfold Update.
  set (invoices := default emptyInvoiceBucket d) in *.
  destruct (bolt.Get hash _); [discriminate|].
  destruct (bolt.Get numInvoicesKey _) as [counter|];
    unfold putInvoice; cbn [bolt.NextSequence];
    (destruct (serializeInvoice rt _) as [buf|] eqn:Eser; [|discriminate]);
    cbn [bind]; intros [= <- _];
    (eapply stored_ok_Put;
     [exact Hs | apply wf_invoice_with_AddIndex, Hwf | exact Hp | exact Eser]).
Qed.

Variable now : time.Time.
Hypothesis Hnow : wf_date now.

Lemma wf_htlc_newHtlc pre a : wf_desc a -> wf_htlc (newHtlc pre now a).
Proof using Type.
  intros [Ha He]. unfold newHtlc.
  assert (Hh : is_uint 32 (wrap32 (HtlcAcceptDesc.AcceptHeight a))).
  { unfold is_uint, wrap32, wrap. apply Z.mod_pos_bound. lia. }
  unfold wf_htlc, is_uint in *.
  destruct (pre =? ContractSettled); simpl;
    unfold HtlcStateAccepted, HtlcStateSettled; lia.
Qed.

Lemma applyHtlcUpdate_wf pre inv inv' k u :
  (forall a, u = Some a -> wf_key k /\ wf_desc a) ->
  wf_htlcs (Invoice.Htlcs inv) ->
  applyHtlcUpdate pre now inv k u = Ok inv' ->
  wf_htlcs (Invoice.Htlcs inv').
Proof using Type.
  intros Hu Hwf. unfold applyHtlcUpdate.
  destruct u as [a|], (Invoice.Htlcs inv !! k) as [h|] eqn:Ek;
    try discriminate.
  - intros [= <-]. simpl. destruct (Hu a eq_refl) as [Hk Ha].
    intros k' h' Hl. destruct (decide (k' = k)) as [->|Hne].
    + rewrite lookup_insert_eq in Hl. injection Hl as <-.
      split; [exact Hk | apply wf_htlc_newHtlc, Ha].
    + rewrite lookup_insert_ne in Hl by congruence. apply (Hwf k' h' Hl).
  - destruct (negb _); [discriminate|]. intros [= <-]. simpl.
    intros k' h' Hl. destruct (decide (k' = k)) as [->|Hne].
    + rewrite lookup_insert_eq in Hl. injection Hl as <-.
      destruct (Hwf k h Ek) as [Hk (H1 & H2 & H3 & H4)].
      split; [exact Hk|]. unfold wf_htlc, is_uint in *. simpl.
      unfold HtlcStateCanceled. lia.
    + rewrite lookup_insert_ne in Hl by congruence. apply (Hwf k' h' Hl).
Qed.

Lemma applyHtlcUpdates_wf pre inv inv' us :
  (forall k a, (k, Some a) ∈ us -> wf_key k /\ wf_desc a) ->
  wf_htlcs (Invoice.Htlcs inv) ->
  applyHtlcUpdates pre now inv us = Ok inv' ->
  wf_htlcs (Invoice.Htlcs inv').
Proof using Type.
  revert inv. induction us as [|[k u] us IH]; intros inv Hu Hwf H;
    simpl in H.
  - injection H as <-. exact Hwf.
  - destruct (applyHtlcUpdate pre now inv k u) as [inv1|] eqn:E;
      [|discriminate].
    simpl in H. apply (IH inv1); [| |exact H].
    + intros k' a' Hin. apply Hu. right. exact Hin.
    + apply (applyHtlcUpdate_wf pre inv inv1 k u); [|exact Hwf|exact E].
      intros a ->. apply Hu. left.
Qed.

Lemma wf_htlcs_settle (m : gmap CircuitKey InvoiceHTLC.t) :
  wf_htlcs m -> wf_htlcs (settle now <$> m).
Proof using Type.
  intros Hwf k h Hl. rewrite lookup_fmap in Hl.
  destruct (m !! k) as [h0|] eqn:E; [|discriminate]. injection Hl as <-.
  destruct (Hwf k h0 E) as [Hk (H1 & H2 & H3 & H4)]. split; [exact Hk|].
  unfold settle, wf_htlc, is_uint in *.
  destruct (InvoiceHTLC.State h0 =? HtlcStateAccepted); simpl;
    unfold HtlcStateSettled; lia.
Qed.

(** An invoice that differs from a well-formed one in its htlcs and its
    amount paid only. *)
Lemma wf_invoice_frame i j :
  frame i = frame j -> wf_invoice j ->
  is_uint 64 (Invoice.AmtPaid i) -> wf_htlcs (Invoice.Htlcs i) ->
  wf_invoice i.
Proof using Type.
  intros Hf [] Ha Hh. destruct i, j. unfold frame in Hf. simpl in *.
  injection Hf as -> -> -> -> -> -> -> -> -> ->.
  split; simpl; assumption.
Qed.

Lemma wf_invoice_with_State i st :
  wf_invoice i -> is_uint 8 st ->
  wf_invoice (Invoice.with_Terms i (with_State (Invoice.Terms i) st)).
Proof using Type.
  intros [] Hst. split; simpl; assumption.
Qed.

Lemma runCallback_returned (i : Invoice.t) cb inv ret :
  runCallback rt i cb = (inv, ret) ->
  exists copy s, ret = returned (cb copy s).
Proof using Type.
  unfold runCallback. destruct (allocate rt i) as [s r].
  intros [= _ <-]. eauto.
Qed.

(** [updateInvoice] writes a record that is in order. *)
Lemma updateInvoice_stored_ok hash invoices si num cb recs' si' result :
  (forall copy s,
     writes (cb copy s) = [] /\
     forall upd, returned (cb copy s) = Ok upd -> wf_update upd) ->
  stored_ok rt (Some invoices) ->
  updateInvoice rt now hash (records invoices) si num cb
  = Ok (recs', si', result) ->
  wf_invoice result /\ paid_ok result /\
  exists buf, serializeInvoice rt result = Ok buf /\
              recs' = bolt.Put num buf (records invoices).
Proof using Hrange Hnow.
  intros Hcb Hs Hu. unfold updateInvoice in Hu.
  destruct (fetchInvoice rt num (records invoices)) as [stored|] eqn:Hf;
    [|discriminate].
  cbn [bind] in Hu.
  destruct (fetchInvoice_stored_ok _ _ _ Hs Hf) as [Hwf Hp].
  destruct (runCallback rt stored cb) as [inv ret] eqn:Hc.
  assert (Hinv : inv = stored).
  { rewrite <- (runCallback_no_writes rt Hrange stored cb);
      [rewrite Hc; reflexivity | intros copy s; apply Hcb]. }
  destruct (runCallback_returned _ _ _ _ Hc) as (copy & s & Hret).
  subst inv. destruct ret as [upd|]; [|discriminate].
  cbn [bind] in Hu.
  assert (Hupd : wf_update upd) by (apply (Hcb copy s); congruence).
  destruct Hupd as (Hst & Hpre & Hdesc).
  set (pre := ContractTerm.State (Invoice.Terms stored)) in *.
  destruct (applyHtlcUpdates pre now _ _) as [inv1|] eqn:Eloop;
    [|discriminate].
  cbn [bind] in Hu.
  pose proof (range_NoDup rt Hrange (InvoiceUpdateDesc.Htlcs upd)) as Hnd.
  assert (Hp1 : paid_ok inv1).
  { apply (applyHtlcUpdates_paid_ok pre now _ _ _) with (2 := Eloop).
    exact Hp. }
  assert (Hh1 : wf_htlcs (Invoice.Htlcs inv1)).
  { apply (applyHtlcUpdates_wf pre _ _ _) with (3 := Eloop).
    - intros k a Hin. apply Hdesc. apply (range_elem rt Hrange). exact Hin.
    - apply (wf_Htlcs _ Hwf). }
  assert (Hwf1 : wf_invoice inv1).
  { pose proof Eloop as Hok.
    apply applyHtlcUpdates_ok in Hok as (_ & _ & _ & Hframe);
      [|exact Hnd].
    apply (wf_invoice_frame _ _ Hframe).
    - apply wf_invoice_with_State; assumption.
    - rewrite Hp1. apply wrap64_range.
    - exact Hh1. }
  assert (Hst1 : ContractTerm.State (Invoice.Terms inv1)
                 = InvoiceUpdateDesc.State upd).
  { pose proof Eloop as Hok.
    apply applyHtlcUpdates_ok in Hok as (_ & _ & _ & Hframe);
      [|exact Hnd].
    apply frame_Terms in Hframe. rewrite Hframe. reflexivity. }
  destruct (negb _ && _) eqn:Es.
  - apply andb_true_iff in Es as [_ Es]. apply Z.eqb_eq in Es.
    rewrite Hst1 in Es. specialize (Hpre Es).
    destruct (negb (bytes_eqb _ hash)); [discriminate|].
    cbn [bind setSettleFields bolt.NextSequence] in Hu.
    destruct (serializeInvoice rt _) as [buf|] eqn:Eser; [|discriminate].
    cbn [bind] in Hu. injection Hu as <- <- <-.
    rewrite (settleAccepted_fmap rt Hrange) in Eser |- *.
    split; [|split; [|eauto]].
    + destruct Hwf1. split; simpl; try assumption.
      * unfold is_uint, ContractSettled. lia.
      * apply wrap64_range.
      * apply wf_htlcs_settle. assumption.
    + unfold paid_ok in *. simpl.
      rewrite total_fmap by apply held_settle. exact Hp1.
  - cbn [bind] in Hu.
    destruct (serializeInvoice rt inv1) as [buf|] eqn:Eser; [|discriminate].
    cbn [bind] in Hu. injection Hu as <- <- <-. eauto.
Qed.

End StoreInvariant.

Section History.
Import channeldb dbview history.

Variable rt : runtime.
Hypothesis Hrange : range_sound rt.

Lemma step_stored_ok o d d' :
  admissible o -> stored_ok rt d -> step rt o d = Some d' -> stored_ok rt d'.
Proof using Hrange.
  destruct o as [i hash|now hash cb]; simpl.
  - intros [Hwf Hp] Hs.
    destruct (AddInvoice rt i hash d) as [d1 [n|]] eqn:Ea; [|discriminate].
    intros [= <-]. apply (AddInvoice_stored_ok rt i hash d d1 n Hs Hwf Hp Ea).
  - intros [Hnow Hcb] Hs. apply stored_ok_default in Hs.
    unfold UpdateInvoice, Update.
    set (invoices := default emptyInvoiceBucket d) in *.
    destruct (bolt.Get hash _) as [num|]; [|discriminate].
    destruct (updateInvoice rt now hash (records invoices) _ num cb)
      as [[[recs si] updated]|] eqn:Eu; cbn [bind]; [|discriminate].
    intros [= <-].
    destruct (updateInvoice_stored_ok rt Hrange now Hnow _ _ _ _ _ _ _ _
                Hcb Hs Eu) as (Hwf & Hp & buf & Hser & ->).
    apply (stored_ok_Put rt invoices num buf updated); assumption.
Qed.

Lemma run_stored_ok ops d d' :
  Forall admissible ops -> stored_ok rt d -> run rt ops d = Some d' ->
  stored_ok rt d'.
Proof using Hrange.
  revert d. induction ops as [|o ops IH]; intros d Hadm Hs; simpl.
  - intros [= <-]. exact Hs.
  - apply Forall_cons in Hadm as [Ho Hadm].
    destruct (step rt o d) as [d1|] eqn:E; [|discriminate].
    apply IH; [exact Hadm|]. apply (step_stored_ok o d d1 Ho Hs E).
Qed.

(** C5, as the code has it.  After any sequence of successful [AddInvoice]
    and [UpdateInvoice] operations on an empty store -- the invoices added
    with an amount paid that matches their htlcs, the callbacks writing to
    no record of the invoice they are handed, all values those of their Go
    types -- the amount paid of every invoice the store holds is the sum, as
    a [uint64], of the amounts of its htlcs that are not canceled: the
    accepted ones count as the settled ones do. *)
Theorem AmtPaid_counts_htlcs_not_canceled ops d hash i :
  Forall admissible ops ->
  run rt ops None = Some d ->
  LookupInvoice rt hash d = Ok i ->
  Invoice.AmtPaid i = wrap64 (total held (Invoice.Htlcs i)).
Proof using Hrange.
  intros Hadm Hrun Hl.
  assert (Hs : stored_ok rt d).
  { apply (run_stored_ok ops None d Hadm); [|exact Hrun].
    intros invoices num buf [=]. }
  destruct (LookupInvoice_Ok rt _ _ _ Hl)
    as (invoices & idx & num & -> & _ & _ & Hf).
  apply (fetchInvoice_stored_ok rt Hrange invoices num i Hs Hf).
Qed.

End History.

Section HistorySamples.
Import channeldb dbview history.

Lemma sample_ops_admissible : Forall admissible sample_ops.
Proof.
  unfold sample_ops.
  constructor; [|constructor; [|constructor]].
  - split.
    + split;
        [vm_compute; intuition discriminate ..
        |intros k h Hk; simpl in Hk; rewrite lookup_empty in Hk;
         discriminate].
    + reflexivity.
  - split; [vm_compute; intuition discriminate|].
    intros copy s. split; [reflexivity|].
    intros upd [= <-]. split; [vm_compute; intuition discriminate|].
    split; [discriminate|].
    intros k a Hk. simpl in Hk.
    apply lookup_singleton_Some in Hk as [<- [= <-]].
    vm_compute. intuition discriminate.
Qed.

(** The invariant at the history of the sample invoice: added, then its
    htlc of 1000000 accepted. *)
Lemma AmtPaid_counts_htlcs_not_canceled_witness :
  Invoice.AmtPaid samples.storedAccepted
  = wrap64 (total held (Invoice.Htlcs samples.storedAccepted)).
Proof.
  apply (AmtPaid_counts_htlcs_not_canceled sample_runtime
           sample_runtime_sound sample_ops samples.accepted samples.hash
           samples.storedAccepted).
  - exact sample_ops_admissible.
  - vm_compute. reflexivity.
  - vm_compute. reflexivity.
Defined.

(** C5 as the spec states it fails: after the invoice was added and its
    htlc accepted, both operations succeeding, the invoice holds no settled
    htlc and its amount paid is 1000000, the amount of the accepted one. *)
Lemma AmtPaid_counts_accepted_htlc :
  run sample_runtime sample_ops None = Some samples.accepted /\
  LookupInvoice sample_runtime samples.hash samples.accepted
  = Ok samples.storedAccepted /\
  Invoice.AmtPaid samples.storedAccepted = 1000000 /\
  total (amountIn [HtlcStateSettled]) (Invoice.Htlcs samples.storedAccepted)
  = 0 /\
  (InvoiceHTLC.State <$> Invoice.Htlcs samples.storedAccepted !! samples.key)
  = Some HtlcStateAccepted.
Proof.
  split; [vm_compute; reflexivity|].
  split; [vm_compute; reflexivity|].
  split; [vm_compute; reflexivity|].
  split; vm_compute; reflexivity.
Qed.

End HistorySamples.

(** ** What AddInvoice leaves in the store *)

Section AddInvoiceContract.
Import channeldb dbview.

Variable rt : runtime.

(** An invoice within the bounds, with a new payment hash and dates that
    can be marshalled, is accepted: the sequence of the add index moves one
    on, the invoice is serialized with that add index, and the three
    buckets are written. *)
Lemma AddInvoice_stores i hash d :
  validateInvoice i = Ok tt ->
  indexed hash d = false ->
  marshalable rt i = true ->
  exists d' buf num,
    AddInvoice rt i hash d
    = (d', Ok (wrap64 (addSequence d + 1),
               Invoice.with_AddIndex i (wrap64 (addSequence d + 1)))) /\
    addSequence d' = wrap64 (addSequence d + 1) /\
    serializeInvoice rt (Invoice.with_AddIndex i (wrap64 (addSequence d + 1)))
    = Ok buf /\
    numberOf hash d' = Some num /\
    recordOf hash d' = Some buf /\
    addedAt (wrap64 (addSequence d + 1)) d' = Some num.
Proof using Type.
  intros Hv Hi Hm. unfold AddInvoice. rewrite Hv. unfold Update.
  rewrite (indexed_false_Get _ _ Hi).
  destruct (serializeInvoice_with_AddIndex_ok rt i
              (wrap64 (addSequence d + 1)) Hm) as [buf Hbuf].
  destruct (bolt.Get numInvoicesKey _) as [counter|];
    unfold putInvoice, bolt.NextSequence;
    rewrite addSequence_default, Hbuf; cbn [bind].
  all: eexists _, buf, _; split; [reflexivity|].
  all: unfold addSequence, numberOf, recordOf, addedAt, numberOf;
    cbn [addIndex invoiceIndex records].
  all: rewrite ?bolt_Get_Put, ?bytes_eqb_refl.
  all: repeat split; try reflexivity.
  all: rewrite ?bolt_Get_Put, ?bytes_eqb_refl; reflexivity.
Qed.

(** What [LookupInvoice] reads under the payment hash right after: the
    invoice with the add index it was given, its times in the form the
    store gives them. *)
Lemma AddInvoice_lookup i hash d d' n i' :
  range_sound rt ->
  wf_invoice i ->
  AddInvoice rt i hash d = (d', Ok (n, i')) ->
  LookupInvoice rt hash d' = Ok (normInvoice rt i').
Proof using Type.
  intros Hrange Hwf. unfold AddInvoice.
  destruct (validateInvoice i); [|discriminate].
  unfold Update.
  destruct (bolt.Get hash _); [discriminate|].
  assert (Hgo : forall counter0 idx0,
    (let* '(recs, invoiceIndex, addIndex, newInvoice, newIndex) :=
       putInvoice rt (records (default emptyInvoiceBucket d)) idx0
         (bolt.CreateBucketIfNotExists
            (addIndex (default emptyInvoiceBucket d)))
         i counter0 hash in
     Ok (Some {| records := recs; invoiceIndex := Some invoiceIndex;
                 addIndex := Some addIndex;
                 settleIndex := settleIndex (default emptyInvoiceBucket d) |},
         (newIndex, newInvoice))) = Ok (d', (n, i')) ->
    LookupInvoice rt hash d' = Ok (normInvoice rt i')).
  { intros counter0 idx0. unfold putInvoice. cbn [bolt.NextSequence].
    destruct (serializeInvoice rt _) as [buf|] eqn:Eser; [|discriminate].
    cbn [bind]. intros [= <- <- <-].
    unfold LookupInvoice, View. cbn [invoiceIndex records].
    rewrite bolt_Get_Put, bytes_eqb_refl.
    unfold fetchInvoice. rewrite bolt_Get_Put, bytes_eqb_refl.
    apply (deserializeInvoice_serializeInvoice rt Hrange); [|exact Eser].
    apply wf_invoice_with_AddIndex, Hwf. }
  destruct (bolt.Get numInvoicesKey _) as [counter|].
  - destruct (putInvoice rt _ _ _ i _ hash)
      as [[[[[recs idx1] ai1] i1] n1]|] eqn:Ep; cbn [bind];
      [|discriminate].
    intros [= <- <- <-]. eapply Hgo. rewrite Ep. reflexivity.
  - destruct (putInvoice rt _ _ _ i _ hash)
      as [[[[[recs idx1] ai1] i1] n1]|] eqn:Ep; cbn [bind];
      [|discriminate].
    intros [= <- <- <-]. eapply Hgo. rewrite Ep. reflexivity.
Qed.

(** C7.  [AddInvoice] refuses a payment hash the store already holds, with
    [ErrDuplicateInvoice] when the invoice is within the size bounds (which
    are checked first), and leaves the store as it was; it refuses a memo
    of more than [MaxMemoSize] = 1024 bytes, a receipt of more than 1024
    and a payment request of more than 4096.  An invoice within the bounds
    (a memo of exactly 1024 bytes included) with a new payment hash and
    dates that can be marshalled is accepted and assigned the next add
    index, the successor of the add sequence, which is at least 1 as long
    as the 64-bit sequence has not run out: the call returns that index
    and leaves it in the [AddIndex] of the caller's invoice; the store
    then holds, under the number the payment hash is indexed with, the
    serialization of the invoice carrying that add index, and the add
    index bucket maps the new sequence number to the same invoice number;
    and [LookupInvoice] of the payment hash gives the invoice with the
    assigned add index (its times as the store reads them back) when the
    invoice's fields are values of their Go types. *)
Theorem AddInvoice_contract (i : Invoice.t) (hash : list byte) (d : DB) :
  (indexed hash d = true ->
     is_ok (snd (AddInvoice rt i hash d)) = false /\
     fst (AddInvoice rt i hash d) = d /\
     (validateInvoice i = Ok tt ->
        AddInvoice rt i hash d = (d, Err ErrDuplicateInvoice))) /\
  (MaxMemoSize = 1024 /\ MaxReceiptSize = 1024 /\
   MaxPaymentRequestSize = 4096) /\
  (MaxMemoSize + 1 <= Z.of_nat (length (Invoice.Memo i)) ->
     AddInvoice rt i hash d = (d, Err ErrMemoTooLong)) /\
  (Z.of_nat (length (Invoice.Memo i)) <= MaxMemoSize ->
   MaxReceiptSize + 1 <= Z.of_nat (length (Invoice.Receipt i)) ->
     AddInvoice rt i hash d = (d, Err ErrReceiptTooLong)) /\
  (Z.of_nat (length (Invoice.Memo i)) <= MaxMemoSize ->
   Z.of_nat (length (Invoice.Receipt i)) <= MaxReceiptSize ->
   MaxPaymentRequestSize + 1
     <= Z.of_nat (length (Invoice.PaymentRequest i)) ->
     AddInvoice rt i hash d = (d, Err ErrPaymentRequestTooLong)) /\
  (Z.of_nat (length (Invoice.Memo i)) <= MaxMemoSize ->
   Z.of_nat (length (Invoice.Receipt i)) <= MaxReceiptSize ->
   Z.of_nat (length (Invoice.PaymentRequest i)) <= MaxPaymentRequestSize ->
   indexed hash d = false ->
   marshalable rt i = true ->
   0 <= addSequence d < 2 ^ 64 - 1 ->
     exists d' buf num,
       AddInvoice rt i hash d
       = (d', Ok (addSequence d + 1,
                  Invoice.with_AddIndex i (addSequence d + 1))) /\
       addSequence d' = addSequence d + 1 /\
       1 <= addSequence d + 1 /\
       serializeInvoice rt (Invoice.with_AddIndex i (addSequence d + 1))
       = Ok buf /\
       numberOf hash d' = Some num /\
       recordOf hash d' = Some buf /\
       addedAt (addSequence d + 1) d' = Some num /\
       indexed hash d' = true /\
       (range_sound rt -> wf_invoice i ->
          LookupInvoice rt hash d'
          = Ok (normInvoice rt
                  (Invoice.with_AddIndex i (addSequence d + 1))))).
Proof using Type.
  split; [|split; [|split; [|split; [|split]]]].
  - intros Hi.
    destruct (AddInvoice_duplicate rt i hash d Hi) as (e & -> & He).
    split; [reflexivity|]. split; [reflexivity|].
    intros Hv. rewrite (He Hv). reflexivity.
  - repeat split.
  - intros Hm. unfold AddInvoice, validateInvoice.
    destruct (Z.ltb_spec MaxMemoSize (Z.of_nat (length (Invoice.Memo i))));
      [reflexivity | lia].
  - intros Hm Hr. unfold AddInvoice, validateInvoice.
    destruct (Z.ltb_spec MaxMemoSize (Z.of_nat (length (Invoice.Memo i))));
      [lia|].
    destruct (Z.ltb_spec MaxReceiptSize
                (Z.of_nat (length (Invoice.Receipt i))));
      [reflexivity | lia].
  - intros Hm Hr Hp. unfold AddInvoice, validateInvoice.
    destruct (Z.ltb_spec MaxMemoSize (Z.of_nat (length (Invoice.Memo i))));
      [lia|].
    destruct (Z.ltb_spec MaxReceiptSize
                (Z.of_nat (length (Invoice.Receipt i))));
      [lia|].
    destruct (Z.ltb_spec MaxPaymentRequestSize
                (Z.of_nat (length (Invoice.PaymentRequest i))));
      [reflexivity | lia].
  - intros Hm Hr Hp Hi Hma Hseq.
    assert (Hv : validateInvoice i = Ok tt)
      by (apply validateInvoice_ok; auto).
    destruct (AddInvoice_stores i hash d Hv Hi Hma)
      as (d' & buf & num & Hadd & Hs & Hser & Hnum & Hrec & Hat).
    assert (Hw : wrap64 (addSequence d + 1) = addSequence d + 1)
      by (unfold wrap64, wrap; apply Z.mod_small; lia).
    rewrite Hw in *. exists d', buf, num.
    split; [exact Hadd|]. split; [exact Hs|]. split; [lia|].
    split; [exact Hser|]. split; [exact Hnum|]. split; [exact Hrec|].
    split; [exact Hat|]. split.
    + apply indexed_Get. unfold numberOf in Hnum.
      destruct d' as [invoices|]; [|discriminate].
      destruct (invoiceIndex invoices) as [idx|] eqn:Eidx; [|discriminate].
      eauto 6.
    + intros Hrange Hwf.
      apply (AddInvoice_lookup i hash d d' _ _ Hrange Hwf Hadd).
Qed.

End AddInvoiceContract.

(** ** What UpdateInvoice leaves in the store *)

Section UpdateContract.
Import channeldb dbview history.

Variable rt : runtime.
Hypothesis Hrange : range_sound rt.



End UpdateContract.

(** * More of the invoice store *)

Section StoreReads.
Import channeldb dbview history.

Variable rt : runtime.
Hypothesis Hrange : range_sound rt.

(** ** What an update changes and what it leaves *)

(** The invoice [updateInvoice] returns, field by field. *)
Lemma updateInvoice_fields now hash recs si num cb stored inv upd
    recs' si' result :
  fetchInvoice rt num recs = Ok stored ->
  runCallback rt stored cb = (inv, Ok upd) ->
  updateInvoice rt now hash recs si num cb = Ok (recs', si', result) ->
  let settling :=
    negb (ContractTerm.State (Invoice.Terms stored)
          =? InvoiceUpdateDesc.State upd)
    && (InvoiceUpdateDesc.State upd =? ContractSettled) in
  (Invoice.Memo result = Invoice.Memo stored /\
   Invoice.Receipt result = Invoice.Receipt stored /\
   Invoice.PaymentRequest result = Invoice.PaymentRequest stored /\
   Invoice.FinalCltvDelta result = Invoice.FinalCltvDelta stored /\
   Invoice.Expiry result = Invoice.Expiry stored /\
   Invoice.CreationDate result = Invoice.CreationDate stored /\
   Invoice.AddIndex result = Invoice.AddIndex stored /\
   ContractTerm.Value (Invoice.Terms result)
   = ContractTerm.Value (Invoice.Terms stored)) /\
  ContractTerm.State (Invoice.Terms result) = InvoiceUpdateDesc.State upd /\
  (settling = true ->
     preimageHash rt (InvoiceUpdateDesc.Preimage upd) = hash /\
     ContractTerm.PaymentPreimage (Invoice.Terms result)
     = InvoiceUpdateDesc.Preimage upd /\
     Invoice.SettleDate result = now /\
     Invoice.SettleIndex result = wrap64 (bolt.sequence si + 1) /\
     bolt.sequence si' = wrap64 (bolt.sequence si + 1) /\
     bolt.Get (be_bytes 8 (wrap64 (bolt.sequence si + 1))) si' = Some num /\
     forall k h, Invoice.Htlcs result !! k = Some h ->
       InvoiceHTLC.State h <> HtlcStateAccepted) /\
  (settling = false ->
     si' = si /\
     ContractTerm.PaymentPreimage (Invoice.Terms result)
     = ContractTerm.PaymentPreimage (Invoice.Terms stored) /\
     Invoice.SettleDate result = Invoice.SettleDate stored /\
     Invoice.SettleIndex result = Invoice.SettleIndex stored).
Proof using Hrange.
  intros Hf Hc Hu settling.
  destruct (runCallback_frame rt Hrange _ _ _ _ Hc) as [Hfr _].
  unfold updateInvoice in Hu. rewrite Hf in Hu. cbn [bind] in Hu.
  rewrite Hc in Hu. cbn [bind] in Hu.
  destruct (applyHtlcUpdates _ now _ _) as [inv1|e] eqn:Eloop;
    [|discriminate].
  cbn [bind] in Hu.
  apply applyHtlcUpdates_ok in Eloop as (_ & _ & _ & Hframe);
    [|apply range_NoDup; assumption].
  assert (Hst : ContractTerm.State (Invoice.Terms inv1)
                = InvoiceUpdateDesc.State upd).
  { apply frame_Terms in Hframe. rewrite Hframe. reflexivity. }
  rewrite Hst in Hu. fold settling in Hu.
  assert (Hsame :
    Invoice.Memo inv1 = Invoice.Memo stored /\
    Invoice.Receipt inv1 = Invoice.Receipt stored /\
    Invoice.PaymentRequest inv1 = Invoice.PaymentRequest stored /\
    Invoice.FinalCltvDelta inv1 = Invoice.FinalCltvDelta stored /\
    Invoice.Expiry inv1 = Invoice.Expiry stored /\
    Invoice.CreationDate inv1 = Invoice.CreationDate stored /\
    Invoice.AddIndex inv1 = Invoice.AddIndex stored /\
    ContractTerm.Value (Invoice.Terms inv1)
    = ContractTerm.Value (Invoice.Terms stored) /\
    ContractTerm.PaymentPreimage (Invoice.Terms inv1)
    = ContractTerm.PaymentPreimage (Invoice.Terms stored) /\
    Invoice.SettleDate inv1 = Invoice.SettleDate stored /\
    Invoice.SettleIndex inv1 = Invoice.SettleIndex stored).
  { rewrite <- Hfr. clear -Hframe. destruct inv1, inv.
    unfold frame in Hframe. simpl in *.
    injection Hframe as -> -> -> -> -> -> -> -> -> ->.
    repeat split. }
  destruct Hsame as (S1 & S2 & S3 & S4 & S5 & S6 & S7 & S8 & S9 & S10 & S11).
  destruct settling eqn:Es.
  - destruct (negb (bytes_eqb _ hash)) eqn:Eh; [discriminate|].
    apply negb_false_iff, bytes_eqb_true in Eh.
    cbn [bind setSettleFields bolt.NextSequence] in Hu.
    destruct (serializeInvoice rt _) as [buf|] eqn:Eser; [|discriminate].
    cbn [bind] in Hu. injection Hu as <- <- <-.
    rewrite (settleAccepted_fmap rt Hrange).
    split; [repeat split; assumption|].
    split.
    { apply andb_true_iff in Es as [_ Es]. apply Z.eqb_eq in Es.
      simpl. rewrite Es. reflexivity. }
    split; [|discriminate].
    intros _. repeat split; try assumption.
    + rewrite bolt_Get_Put, bytes_eqb_refl. reflexivity.
    + intros k h. simpl. rewrite lookup_fmap.
      destruct (Invoice.Htlcs inv1 !! k) as [h0|]; [|discriminate].
      intros [= <-]. unfold settle.
      destruct (Z.eqb_spec (InvoiceHTLC.State h0) HtlcStateAccepted);
        [discriminate | assumption].
  - cbn [bind] in Hu.
    destruct (serializeInvoice rt inv1) as [buf|] eqn:Eser; [|discriminate].
    cbn [bind] in Hu. injection Hu as <- <- <-.
    split; [repeat split; assumption|].
    split; [assumption|]. split; [discriminate|].
    intros _. repeat split; assumption.
Qed.

Lemma settleSequence_default invoices :
  bolt.sequence (bolt.CreateBucketIfNotExists (settleIndex invoices))
  = settleSequence (Some invoices).
Proof. simpl. destruct (settleIndex invoices); reflexivity. Qed.

(** Whatever the callback does and returns, a successful update leaves the
    memo, the receipt, the payment request, the cltv delta, the expiry, the
    creation date, the add index and the value of the invoice as they were,
    and gives it the state the descriptor names. *)
Theorem UpdateInvoice_keeps_terms now hash cb d d' stored result :
  LookupInvoice rt hash d = Ok stored ->
  UpdateInvoice rt now hash cb d = (d', Ok result) ->
  Invoice.Memo result = Invoice.Memo stored /\
  Invoice.Receipt result = Invoice.Receipt stored /\
  Invoice.PaymentRequest result = Invoice.PaymentRequest stored /\
  Invoice.FinalCltvDelta result = Invoice.FinalCltvDelta stored /\
  Invoice.Expiry result = Invoice.Expiry stored /\
  Invoice.CreationDate result = Invoice.CreationDate stored /\
  Invoice.AddIndex result = Invoice.AddIndex stored /\
  ContractTerm.Value (Invoice.Terms result)
  = ContractTerm.Value (Invoice.Terms stored) /\
  exists upd,
    snd (runCallback rt stored cb) = Ok upd /\
    ContractTerm.State (Invoice.Terms result) = InvoiceUpdateDesc.State upd.
Proof using Hrange.
  intros Hl Hu.
  destruct (LookupInvoice_Ok rt _ _ _ Hl)
    as (invoices & idx & num & -> & Hi & Hg & Hf).
  rewrite (UpdateInvoice_unfold rt now hash cb invoices idx num Hi Hg) in Hu.
  destruct (updateInvoice _ _ _ _ _ _ _) as [[[recs' si'] updated]|e] eqn:Eu;
    [|discriminate].
  injection Hu as <- <-.
  destruct (runCallback rt stored cb) as [inv [upd|e]] eqn:Hc.
  2:{ unfold updateInvoice in Eu. rewrite Hf in Eu. cbn [bind] in Eu.
      rewrite Hc in Eu. discriminate. }
  destruct (updateInvoice_fields _ _ _ _ _ _ _ _ _ _ _ _ Hf Hc Eu)
    as ((F1 & F2 & F3 & F4 & F5 & F6 & F7 & F8) & Hst & _).
  repeat split; try assumption. exists upd. split; [reflexivity|exact Hst].
Qed.

(** The update that moves an invoice to the settled state, from another
    state: the preimage of the descriptor hashes to the payment hash and is
    stored, the settle date is the time of the update, the settle index is
    the next of the settle sequence, and no htlc is left in accepted
    state. *)
Theorem UpdateInvoice_settles now hash cb d d' stored upd result :
  LookupInvoice rt hash d = Ok stored ->
  snd (runCallback rt stored cb) = Ok upd ->
  ContractTerm.State (Invoice.Terms stored) <> ContractSettled ->
  InvoiceUpdateDesc.State upd = ContractSettled ->
  UpdateInvoice rt now hash cb d = (d', Ok result) ->
  ContractTerm.State (Invoice.Terms result) = ContractSettled /\
  preimageHash rt (InvoiceUpdateDesc.Preimage upd) = hash /\
  ContractTerm.PaymentPreimage (Invoice.Terms result)
  = InvoiceUpdateDesc.Preimage upd /\
  Invoice.SettleDate result = now /\
  Invoice.SettleIndex result = wrap64 (settleSequence d + 1) /\
  settleSequence d' = wrap64 (settleSequence d + 1) /\
  forall k h, Invoice.Htlcs result !! k = Some h ->
    InvoiceHTLC.State h <> HtlcStateAccepted.
Proof using Hrange.
  intros Hl Hr Hpre Hset Hu.
  destruct (LookupInvoice_Ok rt _ _ _ Hl)
    as (invoices & idx & num & -> & Hi & Hg & Hf).
  rewrite (UpdateInvoice_unfold rt now hash cb invoices idx num Hi Hg) in Hu.
  destruct (updateInvoice _ _ _ _ _ _ _) as [[[recs' si'] updated]|e] eqn:Eu;
    [|discriminate].
  injection Hu as <- <-.
  destruct (runCallback rt stored cb) as [inv ret] eqn:Hc.
  simpl in Hr. subst ret.
  destruct (updateInvoice_fields _ _ _ _ _ _ _ _ _ _ _ _ Hf Hc Eu)
    as (_ & Hst & Hyes & _).
  destruct Hyes as (H1 & H2 & H3 & H4 & H5 & _ & H7).
  { rewrite Hset.
    destruct (Z.eqb_spec (ContractTerm.State (Invoice.Terms stored))
                ContractSettled); [contradiction | reflexivity]. }
  rewrite settleSequence_default in H4, H5.
  rewrite Hst, Hset. repeat split; assumption.
Qed.

(** An update that does not move the invoice into the settled state -- the
    descriptor names another state, or the invoice is settled already --
    takes no settle index and leaves the settle date, the settle index and
    the stored preimage as they were. *)
Theorem UpdateInvoice_without_settling now hash cb d d' stored upd result :
  LookupInvoice rt hash d = Ok stored ->
  snd (runCallback rt stored cb) = Ok upd ->
  (InvoiceUpdateDesc.State upd <> ContractSettled \/
   ContractTerm.State (Invoice.Terms stored) = ContractSettled) ->
  UpdateInvoice rt now hash cb d = (d', Ok result) ->
  settleSequence d' = settleSequence d /\
  Invoice.SettleIndex result = Invoice.SettleIndex stored /\
  Invoice.SettleDate result = Invoice.SettleDate stored /\
  ContractTerm.PaymentPreimage (Invoice.Terms result)
  = ContractTerm.PaymentPreimage (Invoice.Terms stored).
Proof using Hrange.
  intros Hl Hr Hno Hu.
  destruct (LookupInvoice_Ok rt _ _ _ Hl)
    as (invoices & idx & num & -> & Hi & Hg & Hf).
  rewrite (UpdateInvoice_unfold rt now hash cb invoices idx num Hi Hg) in Hu.
  destruct (updateInvoice _ _ _ _ _ _ _) as [[[recs' si'] updated]|e] eqn:Eu;
    [|discriminate].
  injection Hu as <- <-.
  destruct (runCallback rt stored cb) as [inv ret] eqn:Hc.
  simpl in Hr. subst ret.
  destruct (updateInvoice_fields _ _ _ _ _ _ _ _ _ _ _ _ Hf Hc Eu)
    as (_ & _ & _ & Hno').
  destruct Hno' as (-> & H2 & H3 & H4).
  { destruct Hno as [Hno|Hno].
    - destruct (Z.eqb_spec (InvoiceUpdateDesc.State upd) ContractSettled);
        [contradiction|]. apply andb_false_r.
    - destruct (Z.eqb_spec (InvoiceUpdateDesc.State upd) ContractSettled)
        as [E|E]; [|apply andb_false_r].
      rewrite Hno, E. reflexivity. }
  cbn [settleSequence settleIndex].
  rewrite settleSequence_default. repeat split; assumption.
Qed.

(** ** Updates that fail *)

(** An update of a payment hash the store does not hold fails with
    [ErrInvoiceNotFound]; an update whose callback returns an error fails
    with that error, whatever the callback wrote to the invoice it was
    handed.  Either way the database is the one given. *)
Theorem UpdateInvoice_fails now hash cb d :
  (indexed hash d = false ->
     UpdateInvoice rt now hash cb d = (d, Err ErrInvoiceNotFound)) /\
  (forall stored e,
     LookupInvoice rt hash d = Ok stored ->
     snd (runCallback rt stored cb) = Err e ->
     UpdateInvoice rt now hash cb d = (d, Err e)).
Proof using Type.
  split.
  - intros Hi. unfold UpdateInvoice, Update.
    rewrite (indexed_false_Get _ _ Hi). reflexivity.
  - intros stored e Hl Hr.
    destruct (LookupInvoice_Ok rt _ _ _ Hl)
      as (invoices & idx & num & -> & Hi & Hg & Hf).
    rewrite (UpdateInvoice_unfold rt now hash cb invoices idx num Hi Hg).
    unfold updateInvoice. rewrite Hf. cbn [bind].
    destruct (runCallback rt stored cb) as [inv ret]. simpl in Hr. subst ret.
    reflexivity.
Qed.

(** ** Reading back an update *)


(** ** The bounds of the serialized form *)

(** [serializeInvoice] writes a memo, a receipt and a payment request of
    any length; [deserializeInvoice] refuses the bytes when one of them is
    above its bound, with the error of [wire.ReadVarBytes]. *)
Theorem deserializeInvoice_refuses_long_fields i bytes :
  Z.of_nat (length (Invoice.Memo i)) < 2 ^ 64 ->
  Z.of_nat (length (Invoice.Receipt i)) < 2 ^ 64 ->
  Z.of_nat (length (Invoice.PaymentRequest i)) < 2 ^ 64 ->
  MaxMemoSize < Z.of_nat (length (Invoice.Memo i)) \/
  MaxReceiptSize < Z.of_nat (length (Invoice.Receipt i)) \/
  MaxPaymentRequestSize < Z.of_nat (length (Invoice.PaymentRequest i)) ->
  serializeInvoice rt i = Ok bytes ->
  deserializeInvoice rt bytes = Err ErrVarBytesTooBig.
Proof using Type.
  intros H1 H2 H3 Hlong. unfold serializeInvoice.
  destruct (time.MarshalBinary _ (Invoice.CreationDate i)); [|discriminate].
  destruct (time.MarshalBinary _ (Invoice.SettleDate i)); [|discriminate].
  cbn [bind]. intros [= <-]. unfold deserializeInvoice.
  rewrite ReadVarBytes_WriteVarBytes by exact H1.
  destruct (Z.ltb_spec MaxMemoSize (Z.of_nat (length (Invoice.Memo i))));
    [reflexivity|].
  cbn [bind]. rewrite ReadVarBytes_WriteVarBytes by exact H2.
  destruct (Z.ltb_spec MaxReceiptSize
              (Z.of_nat (length (Invoice.Receipt i)))); [reflexivity|].
  cbn [bind]. rewrite ReadVarBytes_WriteVarBytes by exact H3.
  destruct (Z.ltb_spec MaxPaymentRequestSize
              (Z.of_nat (length (Invoice.PaymentRequest i))));
    [reflexivity | lia].
Qed.

(** The htlcs of an invoice through [serializeHtlcs] and
    [deserializeHtlcs]: every htlc comes back under its circuit key with its
    amount, heights, expiry and state, and with its two times as the
    instants [time.Unix(0, t.UnixNano())] gives. *)
Theorem htlcs_roundtrip (m : gmap CircuitKey InvoiceHTLC.t) :
  wf_htlcs m ->
  deserializeHtlcs (serializeHtlcs (range rt m)) = Ok (normHtlc <$> m).
Proof using Hrange.
  apply (deserializeHtlcs_serializeHtlcs rt Hrange).
Qed.

End StoreReads.

(** * The layout of the store over a history *)

Section KeyOrder.





Lemma bolt_get_app_last key value ps :
  key ∉ ps.*1 -> bolt.get key (ps ++ [(key, value)]) = Some value.
Proof.
  induction ps as [|[k0 v0] ps IH]; intros Hn; cbn [app bolt.get].
  - rewrite bytes_eqb_refl. reflexivity.
  - simpl in Hn. apply not_elem_of_cons in Hn as [Hne Hn].
    apply bytes_eqb_false in Hne. rewrite Hne. apply IH, Hn.
Qed.

End KeyOrder.

Section Layout.
Import channeldb dbview history layout.




Variable rt : runtime.
Hypothesis Hrange : range_sound rt.








End Layout.

(** * The time series and the queries over a history *)

Section Queries.
Import channeldb dbview history layout queries.

Variable rt : runtime.
Hypothesis Hrange : range_sound rt.

Lemma rev_reverse {A} (l : list A) : rev l = reverse l.
Proof using Type. rewrite rev_alt. reflexivity. Qed.




(** *** The cursor over the add index *)







(** *** InvoicesAddedSince *)


(** *** QueryInvoices *)

Lemma collect_cons q recs k invoiceKey rest found :
  collect rt q recs ((k, invoiceKey) :: rest) found =
  if NumMaxInvoices q <=? Z.of_nat (length found) then Ok found
  else
    let* invoice := fetchInvoice rt invoiceKey recs in
    if PendingOnly q
       && (ContractTerm.State (Invoice.Terms invoice) =? ContractSettled)
    then collect rt q recs rest found
    else collect rt q recs rest (found ++ [invoice]).
Proof using Type. reflexivity. Qed.









Lemma collect_bounds q recs visited found l :
  0 <= NumMaxInvoices q ->
  collect rt q recs visited found = Ok l ->
  (Z.of_nat (length found) <= NumMaxInvoices q ->
   Z.of_nat (length l) <= NumMaxInvoices q) /\
  (PendingOnly q = true ->
   Forall (fun inv => ContractTerm.State (Invoice.Terms inv)
                      <> ContractSettled) found ->
   Forall (fun inv => ContractTerm.State (Invoice.Terms inv)
                      <> ContractSettled) l).
Proof using Type.
  intros Hm. revert found.
  induction visited as [|[k key] rest IH]; intros found Hc.
  - injection Hc as <-. auto.
  - rewrite collect_cons in Hc.
    destruct (Z.leb_spec (NumMaxInvoices q) (Z.of_nat (length found))).
    + injection Hc as <-. auto.
    + destruct (fetchInvoice rt key recs) as [inv|]; [|discriminate].
      cbn [bind] in Hc.
      destruct (PendingOnly q) eqn:Ep; cbn [andb] in Hc.
      * destruct (Z.eqb_spec (ContractTerm.State (Invoice.Terms inv))
                    ContractSettled) as [Es|Es].
        -- apply (IH found Hc).
        -- destruct (IH _ Hc) as [H1 H2]. split.
           ++ intros _. apply H1. rewrite length_app. cbn [length]. lia.
           ++ intros _ Hf. apply H2; [reflexivity|].
              apply Forall_app. split; [exact Hf|].
              constructor; [exact Es | constructor].
      * destruct (IH _ Hc) as [H1 _]. split; [|discriminate].
        intros _. apply H1. rewrite length_app. cbn [length]. lia.
Qed.

(** What [QueryInvoices] returns on any database: never more invoices than
    asked for, no settled invoice when only the pending ones are asked for,
    and the empty response, not an error, when the add index does not exist
    because no invoice was ever added. *)
Theorem QueryInvoices_bounds q d :
  0 <= NumMaxInvoices q ->
  (forall resp,
     QueryInvoices rt q d = Ok resp ->
     Z.of_nat (length (Invoices resp)) <= NumMaxInvoices q /\
     (PendingOnly q = true ->
      Forall (fun inv => ContractTerm.State (Invoice.Terms inv)
                         <> ContractSettled) (Invoices resp))) /\
  ((forall invoices, d = Some invoices -> addIndex invoices = None) ->
   QueryInvoices rt q d
   = Ok {| Query := q; Invoices := []; FirstIndexOffset := 0;
           LastIndexOffset := 0 |}).
Proof using Type.
  intros Hm. split.
  - intros resp. unfold QueryInvoices, View.
    assert (Hnone : forall resp0,
      Ok {| Query := q; Invoices := []; FirstIndexOffset := 0;
            LastIndexOffset := 0 |} = Ok resp0 ->
      Z.of_nat (length (Invoices resp0)) <= NumMaxInvoices q /\
      (PendingOnly q = true ->
       Forall (fun inv => ContractTerm.State (Invoice.Terms inv)
                          <> ContractSettled) (Invoices resp0))).
    { intros resp0 [= <-]. cbn [Invoices length]. split; [lia|].
      intros _. constructor. }
    destruct d as [invoices|]; [|apply Hnone].
    destruct (addIndex invoices) as [ai|]; [|apply Hnone].
    destruct (collect rt q (records invoices) (visits q ai) [])
      as [found|e] eqn:Ec; cbn [bind].
    + destruct (collect_bounds _ _ _ _ _ Hm Ec) as [H1 H2].
      intros [= <-]. cbn [Invoices]. split.
      * destruct (Reversed q);
          [rewrite length_rev|]; apply H1; cbn [length]; lia.
      * intros Hp. specialize (H2 Hp (Forall_nil_2 _)).
        destruct (Reversed q); [|exact H2].
        rewrite rev_reverse. apply Forall_reverse. exact H2.
    + destruct e; try discriminate. apply Hnone.
  - intros Hno. unfold QueryInvoices, View.
    destruct d as [invoices|]; [|reflexivity].
    rewrite (Hno invoices eq_refl). reflexivity.
Qed.

(** *** FetchAllInvoices *)

Lemma forEachInvoice_cons pendingOnly k v rest :
  forEachInvoice rt pendingOnly ((k, v) :: rest) =
  let* invoice := deserializeInvoice rt v in
  let* invoices := forEachInvoice rt pendingOnly rest in
  if pendingOnly
     && (ContractTerm.State (Invoice.Terms invoice) =? ContractSettled)
  then Ok invoices
  else Ok (invoice :: invoices).
Proof using Type. reflexivity. Qed.




(** With [pendingOnly], [FetchAllInvoices] returns what it returns
    without, less the settled invoices (invoices in any other state,
    canceled ones included, are returned). *)
Theorem FetchAllInvoices_pendingOnly d l :
  FetchAllInvoices rt false d = Ok l ->
  FetchAllInvoices rt true d
  = Ok (List.filter
          (fun inv => negb (ContractTerm.State (Invoice.Terms inv)
                            =? ContractSettled)) l).
Proof using Type.
  unfold FetchAllInvoices, View. destruct d as [invoices|]; [|discriminate].
  generalize (bolt.kv (records invoices)). intros kv. revert l.
  induction kv as [|[k v] kv IH]; intros l.
  - intros [= <-]. reflexivity.
  - rewrite !forEachInvoice_cons.
    destruct (deserializeInvoice rt v) as [inv|]; [|discriminate].
    cbn [bind].
    destruct (forEachInvoice rt false kv) as [l0|]; [|discriminate].
    cbn [bind andb]. intros [= <-]. rewrite (IH l0 eq_refl). cbn [bind].
    cbn [List.filter].
    destruct (ContractTerm.State (Invoice.Terms inv) =? ContractSettled);
      reflexivity.
Qed.

End Queries.

(** ** The properties at the sample data *)

Section Samples.
Import channeldb dbview history.







Lemma wf_invoice_long_memo :
  wf_invoice (samples.with_Memo samples.invoice (repeat x61 1024)).
Proof.
  split;
    [vm_compute; intuition discriminate ..
    |intros k h Hk; simpl in Hk; rewrite lookup_empty in Hk;
     discriminate].
Qed.

(** The add contract at a memo of exactly 1024 bytes, at one of 1025, and at
    a payment hash the store holds. *)
Lemma AddInvoice_contract_witness :
  (exists d' buf num,
     AddInvoice sample_runtime
       (samples.with_Memo samples.invoice (repeat x61 1024)) samples.hash None
     = (d', Ok (addSequence None + 1,
                Invoice.with_AddIndex
                  (samples.with_Memo samples.invoice (repeat x61 1024))
                  (addSequence None + 1))) /\
     serializeInvoice sample_runtime
       (Invoice.with_AddIndex
          (samples.with_Memo samples.invoice (repeat x61 1024))
          (addSequence None + 1)) = Ok buf /\
     numberOf samples.hash d' = Some num /\
     recordOf samples.hash d' = Some buf /\
     addedAt (addSequence None + 1) d' = Some num /\
     LookupInvoice sample_runtime samples.hash d'
     = Ok (normInvoice sample_runtime
             (Invoice.with_AddIndex
                (samples.with_Memo samples.invoice (repeat x61 1024))
                (addSequence None + 1)))) /\
  AddInvoice sample_runtime
    (samples.with_Memo samples.invoice (repeat x61 1025)) samples.hash None
  = (None, Err ErrMemoTooLong) /\
  AddInvoice sample_runtime samples.invoice samples.hash samples.added
  = (samples.added, Err ErrDuplicateInvoice).
Proof.
  split; [|split].
  - destruct (AddInvoice_contract sample_runtime
                (samples.with_Memo samples.invoice (repeat x61 1024))
                samples.hash None) as (_ & _ & _ & _ & _ & Hok).
    destruct Hok
      as (d' & buf & num & Hadd & _ & _ & Hser & Hnum & Hrec & Hat & _ & Hread).
    + vm_compute. discriminate.
    + vm_compute. discriminate.
    + vm_compute. discriminate.
    + reflexivity.
    + reflexivity.
    + vm_compute. split; [discriminate | reflexivity].
    + exists d', buf, num.
      split; [exact Hadd|]. split; [exact Hser|]. split; [exact Hnum|].
      split; [exact Hrec|]. split; [exact Hat|].
      apply Hread; [exact sample_runtime_sound | exact wf_invoice_long_memo].
  - destruct (AddInvoice_contract sample_runtime
                (samples.with_Memo samples.invoice (repeat x61 1025))
                samples.hash None) as (_ & _ & Hlong & _).
    apply Hlong. vm_compute. discriminate.
  - destruct (AddInvoice_contract sample_runtime samples.invoice
                samples.hash samples.added) as (Hdup & _).
    destruct Hdup as (_ & _ & Hdup); [reflexivity|].
    apply Hdup. reflexivity.
Defined.





End Samples.

Section RoundTripSamples.
Import channeldb dbview.

Lemma wf_invoice_holding a r : wf_invoice (samples.holding a r).
Proof.
  split;
    [vm_compute; intuition discriminate ..
    |intros k h Hk; simpl in Hk;
     apply lookup_singleton_Some in Hk as [<- <-];
     vm_compute; intuition discriminate].
Qed.

(** The round trip at an invoice holding an htlc accepted and resolved at a
    local time. *)
Lemma serializeInvoice_roundtrip_witness :
  exists bytes,
    serializeInvoice sample_runtime
      (samples.holding samples.later samples.later) = Ok bytes /\
    deserializeInvoice sample_runtime bytes
    = Ok (samples.holding samples.later samples.later).
Proof.
  apply (serializeInvoice_roundtrip sample_runtime sample_runtime_sound).
  - apply wf_invoice_holding.
  - reflexivity.
  - split; [exact I|]. split; [exact I|].
    intros k h Hk. simpl in Hk. apply lookup_singleton_Some in Hk as [<- <-].
    unfold exact_time. cbn [InvoiceHTLC.AcceptTime InvoiceHTLC.ResolveTime].
    split; (split; [reflexivity|]); vm_compute; intuition discriminate.
Defined.

(** C8 as the spec states it fails: an htlc accepted at a time in UTC comes
    back accepted at that instant in the local zone, so the invoice read is
    not the invoice written. *)
Lemma roundtrip_moves_htlc_time_to_local_zone :
  exists i',
    samples.roundtrip (samples.holding samples.created samples.later) = Ok i' /\
    i' <> samples.holding samples.created samples.later /\
    (InvoiceHTLC.AcceptTime <$>
       Invoice.Htlcs (samples.holding samples.created samples.later)
         !! samples.key)
    = Some {| time.sec := 63700000000; time.nsec := 5;
              time.loc := time.UTC |} /\
    (InvoiceHTLC.AcceptTime <$> Invoice.Htlcs i' !! samples.key)
    = Some {| time.sec := 63700000000; time.nsec := 5;
              time.loc := time.Local |}.
Proof.
  eexists. split; [vm_compute; reflexivity|].
  split; [|split; vm_compute; reflexivity].
  intros E. apply (f_equal (fun i => InvoiceHTLC.AcceptTime <$>
                              Invoice.Htlcs i !! samples.key)) in E.
  vm_compute in E. discriminate E.
Qed.

(** An htlc that was never resolved carries the zero time as its resolve
    time; it comes back resolved in the year 1754, the instant the wrapped
    [UnixNano] of the zero time denotes. *)
Lemma roundtrip_of_zero_resolve_time :
  (InvoiceHTLC.ResolveTime <$>
     Invoice.Htlcs samples.resultAccepted !! samples.key) = Some time.zero /\
  exists i',
    samples.roundtrip samples.resultAccepted = Ok i' /\
    LookupInvoice sample_runtime samples.hash samples.accepted = Ok i' /\
    (InvoiceHTLC.ResolveTime <$> Invoice.Htlcs i' !! samples.key)
    = Some {| time.sec := 55340232221; time.nsec := 128654848;
              time.loc := time.Local |}.
Proof.
  split; [vm_compute; reflexivity|].
  eexists. split; [vm_compute; reflexivity|].
  split; vm_compute; reflexivity.
Qed.

(** An invoice with a memo above the bound of the store serializes, and the
    bytes do not deserialize. *)
Lemma roundtrip_of_long_memo :
  is_ok (serializeInvoice sample_runtime
           (samples.with_Memo samples.invoice (repeat x61 1025))) = true /\
  samples.roundtrip (samples.with_Memo samples.invoice (repeat x61 1025))
  = Err ErrVarBytesTooBig.
Proof. split; vm_compute; reflexivity. Qed.

(** ** The copy handed to the callback *)

Variable rt : runtime.
Hypothesis Hrange : range_sound rt.

(** The htlc map of the copy holds, key for key, the addresses the map of
    the invoice holds: the records are shared.  The expiry is not copied. *)
Lemma copyInvoice_shares (src : Invoice.ref) :
  Invoice.Htlcs (copyInvoice rt src) = Invoice.Htlcs src /\
  Invoice.Expiry (copyInvoice rt src) = 0.
Proof using Hrange.
  split; [|reflexivity]. unfold copyInvoice. simpl.
  apply map_eq. intros k.
  rewrite (foldl_insert_lookup (fun a => a)) by (apply range_NoDup; assumption).
  rewrite lookup_empty.
  destruct (Invoice.Htlcs src !! k) as [a|] eqn:E.
  - apply (range_elem rt Hrange) in E.
    apply elem_of_list_to_map in E; [|apply range_NoDup; assumption].
    rewrite E. reflexivity.
  - rewrite (not_elem_of_list_to_map_1 _ k); [reflexivity|].
    rewrite (range_keys rt Hrange). rewrite E. intros [? ?]; discriminate.
Qed.

End RoundTripSamples.

Section CopySamples.
Import channeldb dbview.

(** C6 at the failing input.  The stored invoice holds an accepted htlc of
    1000000.  Two callbacks return the same descriptor, which keeps the
    state and names no htlc; the second one first sets the amount of the
    htlc it finds in its copy to 1.  After the first the store holds the
    htlc as before; after the second it holds it with amount 1. *)
Lemma callback_write_reaches_the_store :
  let quiet := samples.returning (samples.noUpdate ContractAccepted) in
  let loud := samples.tampering ContractAccepted in
  let after cb :=
    LookupInvoice sample_runtime samples.hash
      (fst (UpdateInvoice sample_runtime samples.later samples.hash cb
              samples.accepted)) in
  let amount r :=
    match r with
    | Ok i => InvoiceHTLC.Amt <$> Invoice.Htlcs i !! samples.key
    | Err _ => None
    end in
  snd (runCallback sample_runtime samples.storedAccepted quiet)
  = Ok (samples.noUpdate ContractAccepted) /\
  snd (runCallback sample_runtime samples.storedAccepted loud)
  = Ok (samples.noUpdate ContractAccepted) /\
  amount (LookupInvoice sample_runtime samples.hash samples.accepted)
  = Some 1000000 /\
  amount (after quiet) = Some 1000000 /\
  amount (after loud) = Some 1.
Proof.
  cbv zeta.
  split; [vm_compute; reflexivity|].
  split; [vm_compute; reflexivity|].
  split; [vm_compute; reflexivity|].
  split; vm_compute; reflexivity.
Qed.

(** C3 at the failing input.  In a store that holds an invoice none of which
    is settled yet, the settle index does not exist: [InvoicesSettledSince]
    returns [ErrNoInvoicesCreated], where [InvoicesAddedSince] turns the
    same error into the empty list. *)
Lemma InvoicesSettledSince_without_settle_index :
  InvoicesSettledSince sample_runtime 1 samples.added
  = Err ErrNoInvoicesCreated /\
  InvoicesSettledSince sample_runtime 1 None = Err ErrNoInvoicesCreated /\
  InvoicesAddedSince sample_runtime 1 None = Ok [] /\
  InvoicesAddedSince sample_runtime 1 samples.added = Ok [] /\
  InvoicesSettledSince sample_runtime 0 samples.added = Ok [] /\
  InvoicesSettledSince sample_runtime 1 samples.settled = Ok [].
Proof.
  split; [vm_compute; reflexivity|].
  split; [vm_compute; reflexivity|].
  split; [vm_compute; reflexivity|].
  split; [vm_compute; reflexivity|].
  split; vm_compute; reflexivity.
Qed.

End CopySamples.

(** ** The further properties at sample data *)

Section MoreSamples.
Import channeldb dbview history layout queries.





(** The settling update of the sample invoice keeps its terms. *)
Lemma UpdateInvoice_keeps_terms_witness :
  Invoice.Memo samples.resultSettled = Invoice.Memo samples.storedAdded /\
  Invoice.Receipt samples.resultSettled
  = Invoice.Receipt samples.storedAdded /\
  Invoice.PaymentRequest samples.resultSettled
  = Invoice.PaymentRequest samples.storedAdded /\
  Invoice.FinalCltvDelta samples.resultSettled
  = Invoice.FinalCltvDelta samples.storedAdded /\
  Invoice.Expiry samples.resultSettled = Invoice.Expiry samples.storedAdded /\
  Invoice.CreationDate samples.resultSettled
  = Invoice.CreationDate samples.storedAdded /\
  Invoice.AddIndex samples.resultSettled
  = Invoice.AddIndex samples.storedAdded /\
  ContractTerm.Value (Invoice.Terms samples.resultSettled)
  = ContractTerm.Value (Invoice.Terms samples.storedAdded) /\
  exists upd,
    snd (runCallback sample_runtime samples.storedAdded
           (samples.returning samples.settleUpdate)) = Ok upd /\
    ContractTerm.State (Invoice.Terms samples.resultSettled)
    = InvoiceUpdateDesc.State upd.
Proof.
  apply (UpdateInvoice_keeps_terms sample_runtime sample_runtime_sound
           samples.later samples.hash
           (samples.returning samples.settleUpdate)
           samples.added samples.settled).
  - vm_compute. reflexivity.
  - vm_compute. reflexivity.
Defined.

(** The settling update of the sample invoice. *)
Lemma UpdateInvoice_settles_witness :
  ContractTerm.State (Invoice.Terms samples.resultSettled)
  = ContractSettled /\
  preimageHash sample_runtime
    (InvoiceUpdateDesc.Preimage samples.settleUpdate) = samples.hash /\
  ContractTerm.PaymentPreimage (Invoice.Terms samples.resultSettled)
  = InvoiceUpdateDesc.Preimage samples.settleUpdate /\
  Invoice.SettleDate samples.resultSettled = samples.later /\
  Invoice.SettleIndex samples.resultSettled
  = wrap64 (settleSequence samples.added + 1) /\
  settleSequence samples.settled
  = wrap64 (settleSequence samples.added + 1) /\
  forall k h, Invoice.Htlcs samples.resultSettled !! k = Some h ->
    InvoiceHTLC.State h <> HtlcStateAccepted.
Proof.
  apply (UpdateInvoice_settles sample_runtime sample_runtime_sound
           samples.later samples.hash
           (samples.returning samples.settleUpdate)
           samples.added samples.settled samples.storedAdded
           samples.settleUpdate samples.resultSettled).
  - vm_compute. reflexivity.
  - reflexivity.
  - vm_compute. discriminate.
  - reflexivity.
  - vm_compute. reflexivity.
Defined.

(** The accepting update of the sample invoice takes no settle index. *)
Lemma UpdateInvoice_without_settling_witness :
  settleSequence samples.accepted = settleSequence samples.added /\
  Invoice.SettleIndex samples.resultAccepted
  = Invoice.SettleIndex samples.storedAdded /\
  Invoice.SettleDate samples.resultAccepted
  = Invoice.SettleDate samples.storedAdded /\
  ContractTerm.PaymentPreimage (Invoice.Terms samples.resultAccepted)
  = ContractTerm.PaymentPreimage (Invoice.Terms samples.storedAdded).
Proof.
  apply (UpdateInvoice_without_settling sample_runtime sample_runtime_sound
           samples.later samples.hash
           (samples.returning samples.acceptUpdate)
           samples.added samples.accepted samples.storedAdded
           samples.acceptUpdate samples.resultAccepted).
  - vm_compute. reflexivity.
  - reflexivity.
  - left. vm_compute. discriminate.
  - vm_compute. reflexivity.
Defined.

(** An unknown payment hash, and a callback that gives up. *)
Lemma UpdateInvoice_fails_witness :
  UpdateInvoice sample_runtime samples.later samples2.hash2
    samples2.failing samples.added
  = (samples.added, Err ErrInvoiceNotFound) /\
  UpdateInvoice sample_runtime samples.later samples.hash
    samples2.failing samples.added
  = (samples.added, Err ErrCallback).
Proof.
  split.
  - apply (UpdateInvoice_fails sample_runtime samples.later samples2.hash2
             samples2.failing samples.added).
    vm_compute. reflexivity.
  - apply (UpdateInvoice_fails sample_runtime samples.later samples.hash
             samples2.failing samples.added) with (stored := samples.storedAdded).
    + vm_compute. reflexivity.
    + reflexivity.
Defined.

(** A memo of 1025 bytes. *)
Lemma deserializeInvoice_refuses_long_fields_witness :
  deserializeInvoice sample_runtime samples2.longMemoBytes
  = Err ErrVarBytesTooBig.
Proof.
  apply (deserializeInvoice_refuses_long_fields sample_runtime
           samples2.longMemo).
  - vm_compute. reflexivity.
  - vm_compute. reflexivity.
  - vm_compute. reflexivity.
  - left. vm_compute. reflexivity.
  - vm_compute. reflexivity.
Defined.

(** The htlc of the sample invoice. *)
Lemma htlcs_roundtrip_witness :
  deserializeHtlcs
    (serializeHtlcs
       (range sample_runtime
          (Invoice.Htlcs (samples.holding samples.later samples.later))))
  = Ok (normHtlc
          <$> Invoice.Htlcs (samples.holding samples.later samples.later)).
Proof.
  apply (htlcs_roundtrip sample_runtime sample_runtime_sound).
  apply (wf_Htlcs _ (wf_invoice_holding samples.later samples.later)).
Defined.




Lemma QueryInvoices_bounds_witness :
  (forall resp,
     QueryInvoices sample_runtime samples2.pendingQuery samples2.db
     = Ok resp ->
     Z.of_nat (length (Invoices resp))
     <= NumMaxInvoices samples2.pendingQuery /\
     (PendingOnly samples2.pendingQuery = true ->
      Forall (fun inv => ContractTerm.State (Invoice.Terms inv)
                         <> ContractSettled) (Invoices resp))) /\
  QueryInvoices sample_runtime samples2.pendingQuery None
  = Ok {| Query := samples2.pendingQuery; Invoices := [];
          FirstIndexOffset := 0; LastIndexOffset := 0 |}.
Proof.
  split.
  - apply (QueryInvoices_bounds sample_runtime samples2.pendingQuery
             samples2.db).
    vm_compute. discriminate.
  - apply (QueryInvoices_bounds sample_runtime samples2.pendingQuery None).
    + vm_compute. discriminate.
    + intros invoices [=].
Defined.


Lemma FetchAllInvoices_pendingOnly_witness :
  FetchAllInvoices sample_runtime true samples2.db
  = Ok (List.filter
          (fun inv => negb (ContractTerm.State (Invoice.Terms inv)
                            =? ContractSettled)) samples2.allInvoices).
Proof.
  apply (FetchAllInvoices_pendingOnly sample_runtime samples2.db
           samples2.allInvoices).
  vm_compute. reflexivity.
Defined.

(** The sample message, with its funding key taken out, and its
    encoding. *)
Lemma AcceptChannel_nil_keys_and_short_payloads_witness :
  lnwire.Encode lnwire.toy_serialize
    {| lnwire.PendingChannelID := repeat x07 32;
       lnwire.DustLimit := 0; lnwire.MaxValueInFlight := 0;
       lnwire.ChannelReserve := 0; lnwire.HtlcMinimum := 0;
       lnwire.MinAcceptDepth := 0; lnwire.CsvDelay := 0;
       lnwire.MaxAcceptedHTLCs := 0;
       lnwire.FundingKey := None; lnwire.RevocationPoint := Some true;
       lnwire.PaymentPoint := Some true;
       lnwire.DelayedPaymentPoint := Some true;
       lnwire.HtlcPoint := Some true;
       lnwire.FirstCommitmentPoint := Some true |}
  = Err ErrNilPubKey /\
  length (unwrap (lnwire.Encode lnwire.toy_serialize lnwire.sample) [])
  = (270 + length (@nil byte))%nat.
Proof.
  split.
  - apply (AcceptChannel_nil_keys_and_short_payloads bool
             lnwire.toy_serialize lnwire.toy_parse _ [] []).
    left. reflexivity.
  - apply (AcceptChannel_nil_keys_and_short_payloads bool
             lnwire.toy_serialize lnwire.toy_parse lnwire.sample
             (unwrap (lnwire.Encode lnwire.toy_serialize lnwire.sample) [])
             []).
    vm_compute. reflexivity.
Defined.

End MoreSamples.

(** * The channel arbitrator *)

Section Arbitrator.
Import contractcourt.

Lemma last_cons_default (x : ArbitratorState) l d :
  List.last (x :: l) d = List.last l x.
Proof.
  revert d x. induction l as [|y l IH]; intros d x; [reflexivity|].
  change (List.last (y :: l) d = List.last (y :: l) x).
  rewrite (IH d y), (IH x y). reflexivity.
Qed.

Lemma follows_app s l1 l2 :
  follows s (l1 ++ l2) = follows s l1 && follows (List.last l1 s) l2.
Proof.
  revert s. induction l1 as [|x l1 IH]; intros s.
  - reflexivity.
  - cbn [app follows]. rewrite IH, andb_assoc, last_cons_default.
    reflexivity.
Qed.

Lemma last_app_last (l1 l2 : list ArbitratorState) s :
  List.last (l1 ++ l2) s = List.last l2 (List.last l1 s).
Proof.
  revert s. induction l1 as [|x l1 IH]; intros s; [reflexivity|].
  cbn [app]. rewrite !last_cons_default. apply IH.
Qed.

Lemma persisted_app s l1 l2 :
  persisted s (l1 ++ l2) = persisted (persisted s l1) l2.
Proof.
  revert s. induction l1 as [|x l1 IH]; intros s; [reflexivity|].
  destruct x; simpl; apply IH.
Qed.

Lemma ordered_app s l1 l2 :
  ordered s (l1 ++ l2) = ordered s l1 && ordered (persisted s l1) l2.
Proof.
  revert s. induction l1 as [|x l1 IH]; intros s; [reflexivity|].
  destruct x; simpl; rewrite ?IH, ?andb_assoc; reflexivity.
Qed.

(** A step that leaves its state leaves it along an edge of the diagram;
    what it does is in order, and it commits nothing itself. *)
Lemma stateStep_facts env s trigger next acts ok :
  stateStep env s trigger = (next, acts, ok) ->
  (next <> s -> diagram s next = true) /\
  ordered s acts = true /\ persisted s acts = s.
Proof.
  intros H. destruct env as [p lh dh rm rd dg].
  destruct s, trigger as [| |[]]; cbn in H;
    repeat match type of H with
           | context [match ?x with _ => _ end] => destruct x
           end;
    injection H as <- <- <-;
    (split; [|split; reflexivity]);
    first [intros Hn; congruence | intros _; reflexivity].
Qed.

(** What a run of [advanceState] adds to the log and to the actions. *)
Lemma advanceState_facts fuel env trigger a :
  let a' := advanceState fuel env trigger a in
  exists l acts,
    newStates (log a') = newStates (log a) ++ l /\
    follows (state (log a)) l = true /\
    state (log a') = List.last l (state (log a)) /\
    failCommit (log a') = failCommit (log a) /\
    failCommitState (log a') = failCommitState (log a) /\
    done a' = done a ++ acts /\
    ordered (state (log a)) acts = true /\
    state (log a') = persisted (state (log a)) acts.
Proof.
  revert a. induction fuel as [|fuel IH]; intros a; cbn zeta.
  - exists [], []. simpl. rewrite !app_nil_r. repeat split.
  - cbn [advanceState]. unfold CurrentState.
    destruct (stateStep env (state (log a)) trigger) as [[next acts] ok]
      eqn:Es.
    destruct (stateStep_facts _ _ _ _ _ _ Es) as (Hedge & Hord & Hper).
    destruct ok; cbn [negb].
    2:{ exists [], acts. simpl. rewrite app_nil_r. repeat split; auto. }
    case_bool_decide as Hn.
    { exists [], acts. simpl. rewrite app_nil_r. repeat split; auto. }
    unfold CommitState. cbn [act log].
    destruct (failCommit (log a) && bool_decide (next = failCommitState (log a))).
    + exists [], (acts ++ [CommitFailed next]). simpl.
      rewrite app_nil_r, app_assoc, ordered_app, persisted_app, Hord, Hper.
      repeat split; auto.
    + match goal with
      | |- context [advanceState fuel env trigger ?x] =>
          destruct (IH x) as (l & acts' & H1 & H2 & H3 & H4 & H5 & H6 & H7 & H8)
      end.
      unfold act in *.
      cbn [log done state newStates failCommit failCommitState] in *.
      exists (next :: l), (acts ++ Committed next :: acts').
      rewrite H3 in H8. rewrite H1, H3, H4, H5, H6, <- !app_assoc.
      cbn [app].
      split; [reflexivity|].
      split; [cbn [follows]; rewrite (Hedge Hn), H2; reflexivity|].
      split; [symmetry; apply last_cons_default|].
      split; [reflexivity|]. split; [reflexivity|]. split; [reflexivity|].
      split; [rewrite ordered_app, Hord, Hper; cbn [ordered]; exact H7|].
      rewrite persisted_app, Hper. cbn [persisted]. exact H8.
Qed.

Lemma extends_refl a : extends a a.
Proof. exists [], []. rewrite !app_nil_r. repeat split. Qed.

Lemma extends_trans a b c : extends a b -> extends b c -> extends a c.
Proof.
  intros (l1 & a1 & H1 & H2 & H3 & H4 & H5 & H6)
         (l2 & a2 & G1 & G2 & G3 & G4 & G5 & G6).
  exists (l1 ++ l2), (a1 ++ a2).
  rewrite G1, H1, G4, H4, <- !app_assoc.
  rewrite follows_app, H2, <- H3, G2.
  rewrite ordered_app, H5, <- H6, G5.
  rewrite last_app_last, <- H3, persisted_app, <- H6.
  repeat split; assumption.
Qed.

Lemma extends_act a acts :
  ordered (state (log a)) acts = true ->
  persisted (state (log a)) acts = state (log a) ->
  extends a (act a acts).
Proof.
  intros Ho Hp. exists [], acts. cbn [act log done].
  rewrite app_nil_r, Hp. repeat split. exact Ho.
Qed.

Lemma advanceState_extends fuel env trigger a :
  extends a (advanceState fuel env trigger a).
Proof.
  destruct (advanceState_facts fuel env trigger a)
    as (l & acts & H1 & H2 & H3 & _ & _ & H6 & H7 & H8).
  exists l, acts. repeat split; assumption.
Qed.

Lemma handle_extends env e a : extends a (handle env e a).
Proof.
  assert (Hclose : forall c,
    extends a (advanceState rounds env (closeTrigger c)
                 (act a [MarkChannelClosed c]))).
  { intros c. eapply extends_trans; [|apply advanceState_extends].
    apply extends_act; reflexivity. }
  destruct e; cbn [handle closureOf]; unfold CurrentState.
  1-4: destruct (state (log a));
       first [apply extends_refl | apply Hclose].
  - destruct (state (log a));
      first [apply extends_refl | apply advanceState_extends].
  - destruct (state (log a)).
    1:{ eapply extends_trans; [apply advanceState_extends|].
        apply extends_act; reflexivity. }
    all: apply extends_act; reflexivity.
  - apply advanceState_extends.
  - destruct (state (log a));
      first [apply extends_refl | apply advanceState_extends].
  - exists [], []. cbn [log state newStates done]. rewrite !app_nil_r.
    repeat split.
Qed.

Lemma run_extends es a : extends a (run es a).
Proof.
  revert a. induction es as [|[env e] es IH]; intros a.
  - apply extends_refl.
  - cbn [run]. eapply extends_trans; [apply handle_extends | apply IH].
Qed.

(** C1.  Whatever events reach the arbitrator, in whatever surroundings and
    with the commits of the log failing or not: the states the log has
    committed, in the order of the commits, follow one another along edges
    of the diagram of section 4.5, the first of them following the state
    the arbitrator started in, and the last of them is the persisted state.
    A breach seen in a state other than [StateFullyResolved] has
    [StateFullyResolved] committed as the very next state, when the log
    commits. *)
Theorem committed_states_follow_diagram es a :
  (exists l,
     newStates (log (run es a)) = newStates (log a) ++ l /\
     follows (state (log a)) l = true /\
     state (log (run es a)) = List.last l (state (log a))) /\
  (forall env,
     state (log a) <> StateFullyResolved ->
     failCommit (log a) = false ->
     newStates (log (handle env ContractBreach a))
     = newStates (log a) ++ [StateFullyResolved] /\
     state (log (handle env ContractBreach a)) = StateFullyResolved).
Proof.
  split.
  - destruct (run_extends es a) as (l & acts & H1 & H2 & H3 & _).
    exists l. auto.
  - intros env Hs Hf. destruct a as [[s ns fc fs] d]. simpl in *. subst fc.
    destruct s; try congruence; split; reflexivity.
Qed.

(** The breach at the arbitrator of the tests, started in [StateDefault]
    with a log that commits. *)
Lemma committed_states_follow_diagram_witness :
  newStates (log (handle quiet ContractBreach (started defaultLog)))
  = [StateFullyResolved] /\
  state (log (handle quiet ContractBreach (started defaultLog)))
  = StateFullyResolved.
Proof.
  destruct (committed_states_follow_diagram [] (started defaultLog))
    as [_ H].
  apply (H quiet); [discriminate | reflexivity].
Defined.

(** The arbitrator goes through the states the tests assert: a remote force
    close and a breach seen in [StateDefault], the local force close with
    its confirmation, the double spend, the publication that fails followed
    by a restart on a breached channel, and the restarts after the failed
    commits of [TestChannelArbitratorCommitFailure]. *)
Lemma states_asserted_by_the_tests :
  newStates (log (run [(quiet, RemoteUnilateralClosure)] (started defaultLog)))
  = [StateContractClosed; StateFullyResolved] /\
  newStates (log (run [(quiet, ContractBreach)] (started defaultLog)))
  = [StateFullyResolved] /\
  newStates (log (run [(quiet, ForceCloseReq)] (started defaultLog)))
  = [StateBroadcastCommit; StateCommitmentBroadcasted] /\
  newStates (log (run [(quiet, ForceCloseReq); (quiet, LocalUnilateralClosure)]
                    (started defaultLog)))
  = [StateBroadcastCommit; StateCommitmentBroadcasted;
     StateContractClosed; StateFullyResolved] /\
  newStates (log (run [({| PublishTx := ErrDoubleSpend; liveHtlcs := false;
                           dustHtlcs := false; resolverMessage := false;
                           resolversDone := false;
                           danglingHtlc := false |}, ForceCloseReq)]
                    (started defaultLog)))
  = [StateBroadcastCommit; StateCommitmentBroadcasted] /\
  newStates (log (run [({| PublishTx := PublishFailed; liveHtlcs := false;
                           dustHtlcs := false; resolverMessage := false;
                           resolversDone := false;
                           danglingHtlc := false |}, ForceCloseReq);
                       (quiet, Restart (Some BreachClose))]
                    (started defaultLog)))
  = [StateBroadcastCommit; StateFullyResolved] /\
  newStates (log (run [(quiet, RemoteUnilateralClosure);
                       (quiet, SetFailCommit false StateDefault);
                       (quiet, Restart (Some RemoteForceClose))]
                    (started failingLog)))
  = [StateContractClosed; StateFullyResolved] /\
  done (run [(quiet, ForceCloseReq)]
          (started {| state := StateCommitmentBroadcasted; newStates := [];
                      failCommit := false;
                      failCommitState := StateDefault |}))
  = [Replied true].
Proof. repeat (split; [reflexivity|]). reflexivity. Qed.

(** The run of [TestChannelArbitratorLocalForceClosePendingHtlc]: the
    states the test asserts, and the two resolution messages, the first
    right after [StateContractClosed] is committed and the second while
    [StateWaitingFullResolution] is the persisted state. *)
Lemma pending_htlc_run :
  newStates (log (run pendingHtlcEvents (started defaultLog)))
  = [StateBroadcastCommit; StateCommitmentBroadcasted;
     StateContractClosed; StateWaitingFullResolution; StateFullyResolved] /\
  done (run pendingHtlcEvents (started defaultLog))
  = [Committed StateBroadcastCommit; Published;
     Committed StateCommitmentBroadcasted; Replied false;
     MarkChannelClosed LocalForceClose;
     Committed StateContractClosed; ResolutionMessage;
     Committed StateWaitingFullResolution; ResolutionMessage;
     Committed StateFullyResolved; MarkChannelResolved].
Proof. split; reflexivity. Qed.

(** What [advanceState] does when the commit of the state that follows
    fails: the actions of the step, the failed commit, and nothing more. *)
Lemma advanceState_commit_fails fuel env trigger a next acts :
  stateStep env (state (log a)) trigger = (next, acts, true) ->
  next <> state (log a) ->
  snd (CommitState next (log a)) = false ->
  advanceState (S fuel) env trigger a = act a (acts ++ [CommitFailed next]).
Proof.
  intros Hs Hn Hc. cbn [advanceState]. unfold CurrentState. rewrite Hs.
  cbn [negb]. rewrite bool_decide_eq_false_2 by exact Hn.
  cbn [act log]. destruct (CommitState next (log a)) as [log' []];
    [discriminate|].
  unfold act. cbn [log done]. rewrite app_assoc. reflexivity.
Qed.

(** C2, as the tests have it.  Whatever events reach the arbitrator: the
    commitment is published only while [StateBroadcastCommit] is the
    persisted state, resolution messages are sent only while
    [StateContractClosed] or [StateWaitingFullResolution] is (by the step
    that follows the commit of [StateContractClosed] and by the resolvers
    the arbitrator then waits for), and the channel is marked resolved only
    while [StateFullyResolved] is; the persisted state is the state of the
    last commit that succeeded.  A commit that fails leaves the log as it
    is and ends the run of the state machine: [advanceState] has then done
    the actions of the one step and nothing after the failed commit.
    Marking the channel closed does not wait for a commit: a close seen on
    chain by an arbitrator that has not resolved its channel is marked
    first, before anything else is done or committed, and when the commit
    of the state that follows then fails the channel has been marked closed
    all the same, the log staying as it was. *)
Theorem actions_follow_commits es a :
  (exists acts,
     done (run es a) = done a ++ acts /\
     ordered (state (log a)) acts = true /\
     state (log (run es a)) = persisted (state (log a)) acts) /\
  (forall fuel env trigger,
     snd (CommitState (fst (fst (stateStep env (state (log a)) trigger)))
            (log a)) = false ->
     log (advanceState fuel env trigger a) = log a) /\
  (forall fuel env trigger next acts,
     stateStep env (state (log a)) trigger = (next, acts, true) ->
     next <> state (log a) ->
     snd (CommitState next (log a)) = false ->
     advanceState (S fuel) env trigger a
     = {| log := log a; done := done a ++ acts ++ [CommitFailed next] |}) /\
  (forall env e c,
     closureOf e = Some c ->
     state (log a) <> StateFullyResolved ->
     (exists acts,
        done (handle env e a) = done a ++ MarkChannelClosed c :: acts) /\
     (forall next acts,
        stateStep env (state (log a)) (closeTrigger c) = (next, acts, true) ->
        next <> state (log a) ->
        snd (CommitState next (log a)) = false ->
        handle env e a
        = {| log := log a;
             done := done a
                     ++ MarkChannelClosed c :: acts ++ [CommitFailed next] |})).
Proof.
  split; [|split; [|split]].
  - destruct (run_extends es a) as (l & acts & _ & _ & _ & H4 & H5 & H6).
    exists acts. auto.
  - intros fuel env trigger Hc. destruct fuel as [|fuel]; [reflexivity|].
    cbn [advanceState]. unfold CurrentState.
    destruct (stateStep env (state (log a)) trigger) as [[next acts] ok].
    cbn [fst] in Hc. destruct ok; cbn [negb]; [|reflexivity].
    case_bool_decide; [reflexivity|].
    cbn [act log]. destruct (CommitState next (log a)) as [log' []];
      [discriminate | reflexivity].
  - intros fuel env trigger next acts Hs Hn Hc.
    apply (advanceState_commit_fails fuel env trigger a next acts Hs Hn Hc).
  - intros env e c He Hs.
    assert (Hh : handle env e a
                 = advanceState rounds env (closeTrigger c)
                     (act a [MarkChannelClosed c])).
    { destruct e; try discriminate He; injection He as <-;
        cbn [handle closureOf]; unfold CurrentState;
        destruct (state (log a)); try reflexivity; congruence. }
    rewrite Hh. split.
    + destruct (advanceState_facts rounds env (closeTrigger c)
                  (act a [MarkChannelClosed c]))
        as (l & acts & _ & _ & _ & _ & _ & H6 & _).
      exists acts. rewrite H6. cbn [act done].
      rewrite <- app_assoc. reflexivity.
    + intros next acts Hstep Hn Hc. unfold rounds.
      rewrite (advanceState_commit_fails _ env (closeTrigger c)
                 (act a [MarkChannelClosed c]) next acts Hstep Hn Hc).
      unfold act. cbn [log done]. rewrite <- app_assoc. reflexivity.
Qed.

(** The failing commit of [TestChannelArbitratorCommitFailure]: a remote
    force close seen in [StateDefault], the commit of
    [StateContractClosed] failing. *)
Lemma actions_follow_commits_witness :
  log (advanceState rounds quiet (closeTrigger RemoteForceClose)
         (started failingLog)) = failingLog /\
  advanceState rounds quiet (closeTrigger RemoteForceClose)
    (started failingLog)
  = {| log := failingLog; done := [CommitFailed StateContractClosed] |} /\
  handle quiet RemoteUnilateralClosure (started failingLog)
  = {| log := failingLog;
       done := [MarkChannelClosed RemoteForceClose;
                CommitFailed StateContractClosed] |}.
Proof.
  destruct (actions_follow_commits [] (started failingLog))
    as (_ & H2 & H3 & H4).
  split; [|split].
  - apply (H2 rounds quiet (closeTrigger RemoteForceClose)). reflexivity.
  - apply (H3 6%nat quiet (closeTrigger RemoteForceClose)
             StateContractClosed []);
      [reflexivity | discriminate | reflexivity].
  - destruct (H4 quiet RemoteUnilateralClosure RemoteForceClose)
      as [_ H5]; [reflexivity | discriminate|].
    apply (H5 StateContractClosed []);
      [reflexivity | discriminate | reflexivity].
Defined.

(** C2 as the spec states it fails, at the input of
    [TestChannelArbitratorCommitFailure]: a remote force close is seen in
    [StateDefault] and the commit of [StateContractClosed] fails.  The
    channel is marked closed all the same, before the commit is tried; no
    state is committed and the persisted state stays [StateDefault]. *)
Lemma channel_marked_closed_before_failing_commit :
  done (handle quiet RemoteUnilateralClosure (started failingLog))
  = [MarkChannelClosed RemoteForceClose; CommitFailed StateContractClosed] /\
  state (log (handle quiet RemoteUnilateralClosure (started failingLog)))
  = StateDefault /\
  newStates (log (handle quiet RemoteUnilateralClosure (started failingLog)))
  = [].
Proof. split; [reflexivity|]. split; reflexivity. Qed.

End Arbitrator.
